(** * wordlist_crawler: the crawl engine of [crawler_wordlist.py]

    A shallow embedding of the functions of [crawler_wordlist.py]
    ([normalize_url], [extract_words], [extract_links], [crawl_url],
    [crawl_async]) and the properties of the crawl engine proved about them.

    Python values are modelled as follows.
    - [str]: a list of Unicode code points ([list N]).
    - [set]: stdpp's [gset]; the order in which a [for] loop walks a set is
      not fixed by Python and is a parameter of the model.
    - [deque]: a list, [popleft] at the head and [append] at the end.
    - [int]: [Z].
    - an operation that may raise: a sum, [inl] carrying the exception. *)

From Stdlib Require Import ZArith NArith Lia List String Ascii Bool.
From stdpp Require Import base decidable countable list gmap sets sorting.

Import ListNotations.
Local Open Scope N_scope.

(** ** Python strings *)

Abbreviation pystr := (list N) (only parsing).

(** A string literal of the source, as code points. *)
Definition py (s : string) : pystr :=
  List.map N_of_ascii (list_ascii_of_string s).

Definition is_az (c : N) : bool := (97 <=? c) && (c <=? 122).
Definition is_AZ (c : N) : bool := (65 <=? c) && (c <=? 90).

(** [c.isascii() and c.isalpha()] for one character. *)
Definition is_ascii_alpha (c : N) : bool := is_az c || is_AZ c.

(** [str.lower()], one code point at a time.  Besides [A-Z], exactly two code
    points lowercase to something that contains an ASCII letter: U+0130
    (to [i] followed by U+0307) and U+212A, the Kelvin sign (to [k]).  Every
    other code point outside ASCII lowercases to code points outside ASCII;
    they are left as they are here, which no ASCII-only pattern or
    comparison can tell apart. *)
Definition lower_cp (c : N) : pystr :=
  if is_AZ c then [c + 32]
  else if c =? 304 then [105; 775]
  else if c =? 8490 then [107]
  else [c].

Definition lower (s : pystr) : pystr := flat_map lower_cp s.

(** ** Word extraction *)

(** [WORD_PATTERN.findall(s)] for [WORD_PATTERN = re.compile(r'[a-z]+')]: a
    left-to-right scan; [run] holds, reversed, the letters matched since the
    last character that is not in [a-z]. *)
Fixpoint findall_from (run : pystr) (s : pystr) : list pystr :=
  match s with
  | [] => match run with [] => [] | _ => [rev run] end
  | c :: s' =>
      if is_az c then findall_from (c :: run) s'
      else match run with
           | [] => findall_from [] s'
           | _ => rev run :: findall_from [] s'
           end
  end.

Definition WORD_PATTERN_findall (s : pystr) : list pystr := findall_from [] s.

(** [extract_words(text)]: [set(WORD_PATTERN.findall(text.lower()))]. *)
Definition extract_words (text : pystr) : gset pystr :=
  list_to_set (WORD_PATTERN_findall (lower text)).

(** ** Exceptions *)

(** The exceptions the engine can meet.  All but [CancelledError] derive from
    [Exception]; [CancelledError] derives from [BaseException] only. *)
Inductive py_exn : Set :=
  | ValueError        (* urlsplit, urljoin, asyncio.Semaphore *)
  | TransportError    (* httpx: timeout, connection, DNS, protocol errors *)
  | HTTPStatusError   (* httpx: raise_for_status *)
  | ParserError       (* the HTML parser *)
  | CancelledError.   (* asyncio: the task was cancelled *)

(** [isinstance(e, Exception)]. *)
Definition is_Exception (e : py_exn) : bool :=
  match e with
  | CancelledError => false
  | _ => true
  end.

(** ** urllib.parse *)

(** [break_at d s]: the characters of [s] before the first one that
    satisfies [d], and the rest of [s] from that character on. *)
Fixpoint break_at (d : N -> bool) (s : pystr) : pystr * pystr :=
  match s with
  | [] => ([], [])
  | c :: s' =>
      if d c then ([], s)
      else let '(a, b) := break_at d s' in (c :: a, b)
  end.

Definition is_char (k : N) (c : N) : bool := c =? k.

(** [url.lstrip(_WHATWG_C0_CONTROL_OR_SPACE)]: the code points 0 to 32. *)
Fixpoint lstrip_c0_space (s : pystr) : pystr :=
  match s with
  | c :: s' => if c <=? 32 then lstrip_c0_space s' else s
  | [] => []
  end.

(** The [url.replace(b, "")] loop over [_UNSAFE_URL_BYTES_TO_REMOVE]: tab,
    carriage return and line feed. *)
Definition remove_unsafe (s : pystr) : pystr :=
  List.filter (fun c => negb ((c =? 9) || (c =? 13) || (c =? 10))) s.

Definition is_digit (c : N) : bool := (48 <=? c) && (c <=? 57).

(** [c in scheme_chars]: letters, digits and [+-.]. *)
Definition scheme_char (c : N) : bool :=
  is_az c || is_AZ c || is_digit c || (c =? 43) || (c =? 45) || (c =? 46).

(** The delimiters of [_splitnetloc]: [/], [?] and [#]. *)
Definition netloc_delim (c : N) : bool := (c =? 47) || (c =? 63) || (c =? 35).

Definition has_char (k : N) (s : pystr) : bool := existsb (is_char k) s.

(** The truth value of a string and of a deque: not empty. *)
Definition nonempty (s : pystr) : bool :=
  match s with [] => false | _ => true end.

Definition nonempty_queue {A} (q : list A) : bool :=
  match q with [] => false | _ => true end.

Record SplitResult := {
  sr_scheme : pystr; sr_netloc : pystr; sr_path : pystr;
  sr_query : pystr; sr_fragment : pystr }.

Record ParseResult := {
  scheme : pystr; netloc : pystr; path : pystr;
  params : pystr; query : pystr; fragment : pystr }.

(** [uses_params] of urllib.parse. *)
Definition uses_params : list pystr :=
  [ py ""; py "ftp"; py "hdl"; py "prospero"; py "http"; py "imap";
    py "https"; py "shttp"; py "rtsp"; py "rtspu"; py "sip"; py "sips";
    py "mms"; py "sftp"; py "tel" ].

(** [_splitparams(url)]: the parameters are looked for after the last [/]. *)
Definition splitparams (url : pystr) : pystr * pystr :=
  let '(seg_rev, head_rev) := break_at (is_char 47) (rev url) in
  match head_rev with
  | _ :: _ =>
      (* '/' in url: [rev head_rev] ends with the last '/' *)
      match break_at (is_char 59) (rev seg_rev) with
      | (_, []) => (url, [])
      | (s1, _ :: s2) => (rev head_rev ++ s1, s2)
      end
  | [] =>
      match break_at (is_char 59) url with
      | (u1, _ :: u2) => (u1, u2)
      | (_, []) => (removelast url, url)   (* find gave -1 *)
      end
  end.

(** Lines of [urlsplit] before the scheme: the strip and the removal. *)
Definition clean_url (url : pystr) : pystr :=
  remove_unsafe (lstrip_c0_space url).

(** The scheme of [urlsplit]: [url.find(':')] gives a position [i > 0], the
    first character is an ASCII letter and every character before the colon
    is in [scheme_chars].  Returns the scheme (empty if there is none) and
    the rest of the url. *)
Definition split_scheme (url : pystr) : pystr * pystr :=
  match break_at (is_char 58) url with
  | (c :: pre, _ :: rest) =>
      if is_ascii_alpha c && forallb scheme_char (c :: pre)
      then (lower (c :: pre), rest)
      else ([], url)
  | _ => ([], url)
  end.

(** [hay[:len(needle)] == needle]. *)
Fixpoint starts_with (needle hay : pystr) : bool :=
  match needle, hay with
  | [], _ => true
  | a :: n', b :: h' => (a =? b) && starts_with n' h'
  | _ :: _, [] => false
  end.

(** [if url[:2] == '//': netloc, url = _splitnetloc(url, 2)]. *)
Definition split_netloc (url : pystr) : pystr * pystr :=
  if starts_with (py "//") url then break_at netloc_delim (drop 2 url)
  else ([], url).

(** The fragment and the query of [urlsplit]: [url.split('#', 1)], then
    [url.split('?', 1)].  Returns the path, the query and the fragment. *)
Definition split_fragment_query (url : pystr) : pystr * pystr * pystr :=
  let '(url, fragment) :=
    match break_at (is_char 35) url with
    | (u, _ :: f) => (u, f)
    | (_, []) => (url, [])
    end in
  let '(url, query) :=
    match break_at (is_char 63) url with
    | (u, _ :: q) => (u, q)
    | (_, []) => (url, [])
    end in
  (url, query, fragment).

Section UrlParse.

(** Two checks of [urlsplit] on the network location are taken as
    parameters: [_check_bracketed_netloc] (the host between brackets is
    validated with the [ipaddress] module) and the NFKC test of
    [_checknetloc] (through [unicodedata]).  Each tells whether the check
    raises [ValueError]. *)
Variable bracketed_netloc_invalid : pystr -> bool.
Variable nfkc_invalid : pystr -> bool.

(** Whether [urlsplit] raises [ValueError] for this network location: a
    bracket without the other one, [_check_bracketed_netloc] when both
    are there, [_checknetloc] when it is not empty and not ASCII. *)
Definition netloc_rejected (netloc : pystr) : bool :=
  (has_char 91 netloc && negb (has_char 93 netloc))
  || (has_char 93 netloc && negb (has_char 91 netloc))
  || (has_char 91 netloc && has_char 93 netloc
      && bracketed_netloc_invalid netloc)
  || (nonempty netloc && negb (forallb (fun c => c <? 128) netloc)
      && nfkc_invalid netloc).

(** [urlsplit(url)] with the default [scheme=''] and
    [allow_fragments=True]. *)
Definition urlsplit (url : pystr) : py_exn + SplitResult :=
  let '(scheme, url) := split_scheme (clean_url url) in
  let '(netloc, url) := split_netloc url in
  let '(url, query, fragment) := split_fragment_query url in
  if netloc_rejected netloc then inl ValueError
  else inr {| sr_scheme := scheme; sr_netloc := netloc; sr_path := url;
              sr_query := query; sr_fragment := fragment |}.

(** [urlparse(url)]. *)
Definition urlparse (url : pystr) : py_exn + ParseResult :=
  match urlsplit url with
  | inl e => inl e
  | inr r =>
      let '(url, params) :=
        if bool_decide (sr_scheme r ∈ uses_params) && has_char 59 (sr_path r)
        then splitparams (sr_path r)
        else (sr_path r, []) in
      inr {| scheme := sr_scheme r; netloc := sr_netloc r; path := url;
             params := params; query := sr_query r;
             fragment := sr_fragment r |}
  end.

(** [normalize_url(url)]. *)
Definition normalize_url (url : pystr) : py_exn + pystr :=
  match urlparse url with
  | inl e => inl e
  | inr parsed =>
      inr (scheme parsed ++ py "://" ++ netloc parsed ++ path parsed
           ++ (if nonempty (query parsed) then py "?" ++ query parsed
               else py ""))
  end.

End UrlParse.

(** ** The parsed document *)

(** The classes of the strings of a tree: [NavigableString] and the classes
    bs4 derives from it.  The tree builder chooses the class: [Comment] for
    a comment, [Doctype] for the document type, [TemplateString],
    [RubyTextString] and [RubyParenthesisString] for text below a
    [template], [rt] or [rp] tag, [Script] and [Stylesheet] below [script]
    and [style]. *)
Inductive string_class : Type :=
  | NavigableString
  | CData
  | Comment
  | Declaration
  | Doctype
  | ProcessingInstruction
  | XMLProcessingInstruction
  | Script
  | Stylesheet
  | TemplateString
  | RubyTextString
  | RubyParenthesisString.

#[global] Instance string_class_eq_dec : EqDecision string_class.
Proof. solve_decision. Defined.

(** The tree BeautifulSoup builds: strings, each with the class [type]
    gives for it, and tags with their attributes. *)
#[warnings="-register-all"]
Inductive node : Type :=
  | Str (cls : string_class) (s : pystr)
  | Tag (name : pystr) (attrs : gmap pystr pystr) (contents : list node).

(** A [BeautifulSoup] object: the top-level nodes of the document. *)
Abbreviation soup := (list node) (only parsing).

Definition removed_tags : list pystr :=
  [ py "script"; py "style"; py "nav"; py "footer"; py "header" ].

(** [for tag in soup([...]): tag.extract()]: every tag with one of the names
    is taken out of the tree, with all it contains. *)
Fixpoint extract_tags (n : node) : list node :=
  match n with
  | Str _ _ => [n]
  | Tag name attrs contents =>
      if bool_decide (name ∈ removed_tags) then []
      else [Tag name attrs (List.flat_map extract_tags contents)]
  end.

(** [Tag.DEFAULT_INTERESTING_STRING_TYPES], the [types] that [get_text]
    and [_all_strings] use for a tag that is no string container, as the
    [BeautifulSoup] object is. *)
Definition DEFAULT_INTERESTING_STRING_TYPES : list string_class :=
  [ NavigableString; CData ].

(** [type(descendant) in types], with [None] for [types=None]: every
    string. *)
Definition of_types (types : option (list string_class))
    (cls : string_class) : bool :=
  match types with
  | None => true
  | Some l => bool_decide (cls ∈ l)
  end.

(** [Tag._all_strings(strip=False, types)]: the strings below a node whose
    class is one of [types], in document order. *)
Fixpoint all_strings (types : option (list string_class)) (n : node)
    : list pystr :=
  match n with
  | Str cls s => if of_types types cls then [s] else []
  | Tag _ _ contents => List.flat_map (all_strings types) contents
  end.

(** [sep.join(l)]. *)
Fixpoint join (sep : pystr) (l : list pystr) : pystr :=
  match l with
  | [] => []
  | [x] => x
  | x :: l' => x ++ sep ++ join sep l'
  end.

(** [soup.get_text(separator=' ')]: the strings of the default types,
    joined; a comment, the document type and the text of a [template] are
    not part of it. *)
Definition get_text (s : soup) : pystr :=
  join (py " ")
    (List.flat_map (all_strings (Some DEFAULT_INTERESTING_STRING_TYPES)) s).

(** The [href] of every tag [soup.find_all('a', href=True)] returns, in
    document order. *)
Fixpoint anchor_hrefs (n : node) : list pystr :=
  match n with
  | Str _ _ => []
  | Tag name attrs contents =>
      (if bool_decide (name = py "a")
       then match attrs !! py "href" with Some h => [h] | None => [] end
       else [])
      ++ List.flat_map anchor_hrefs contents
  end.

(** [needle in hay] for strings. *)
Fixpoint contains (needle hay : pystr) : bool :=
  starts_with needle hay
  || match hay with
     | [] => false
     | _ :: h' => contains needle h'
     end.

(** ** The network *)

(** What one [client.get] and the parse of its body give.  [GetRaises e]:
    the awaited call raised [e] (a transport or protocol error, or the
    cancellation of the task).  Otherwise a response with its status code,
    its [content-type] header if it has one, and what
    [BeautifulSoup(response.content, 'lxml')] makes of its body: a tree, or
    an exception of the parser. *)
Inductive net_reply : Type :=
  | GetRaises (e : py_exn)
  | Response (status_code : Z) (content_type : option pystr)
             (document : py_exn + soup).

(** [response.is_success], on which [raise_for_status] decides (httpx). *)
Definition is_success (status_code : Z) : bool :=
  ((200 <=? status_code) && (status_code <=? 299))%Z.

(** A Page Result: [(url, words, links)]. *)
Definition page_result : Type := pystr * gset pystr * gset pystr.

(** What [asyncio.gather(..., return_exceptions=True)] has for one task: the
    exception it raised, or the tuple it returned. *)
Definition task_result : Type := py_exn + page_result.

(** [isinstance(result, tuple)]. *)
Definition is_tuple (r : task_result) : bool :=
  match r with inr _ => true | inl _ => false end.

(** ** The crawl state *)

Definition entry : Type := pystr * Z.

(** What the crawl did so far.  The program does not keep these lists and
    never reads them; they are here to state properties of a whole crawl. *)
Record history := {
  enqueued : list entry;        (* every [queue.append], the seed included *)
  returned : list entry;        (* every entry put in [urls_to_crawl] *)
  discarded : list entry;       (* every entry dropped by the depth test *)
  results : list task_result;   (* every result of [asyncio.gather] *)
}.

Record crawl_state := {
  visited : gset pystr;
  queue : list entry;
  all_words : gset pystr;
  pages_crawled : Z;
  fetches : nat;                (* tasks created so far *)
  hist : history;
}.

(** The words of a result; an exception has none. *)
Definition result_words (r : task_result) : gset pystr :=
  match r with inr (_, words, _) => words | inl _ => ∅ end.

(** The results that are tuples. *)
Definition count_tuples (rs : list task_result) : nat :=
  length (List.filter is_tuple rs).

(** A fetch that succeeded, in the words of the specification: a response
    with a 2xx status, whatever its content type. *)
Definition fetch_succeeded (reply : net_reply) : bool :=
  match reply with
  | Response status_code _ _ => is_success status_code
  | GetRaises _ => false
  end.

Section Crawl.

Variable bracketed_netloc_invalid : pystr -> bool.
Variable nfkc_invalid : pystr -> bool.

(** [urllib.parse.urljoin(base, url)]; it may raise [ValueError]. *)
Variable urljoin : pystr -> pystr -> py_exn + pystr.

(** The order in which [for link in links] walks a set. *)
Variable set_iter : gset pystr -> list pystr.

(** The network: the reply to the [k]-th task of the crawl, for its url. *)
Variable net : nat -> pystr -> net_reply.

Let normalize := normalize_url bracketed_netloc_invalid nfkc_invalid.

(** [extract_links(soup, base_url)], over the anchors of the document. *)
Fixpoint extract_links_from (hrefs : list pystr) (base_url : pystr)
    (links : gset pystr) : py_exn + gset pystr :=
  match hrefs with
  | [] => inr links
  | href :: hrefs' =>
      match urljoin base_url href with
      | inl e => inl e
      | inr full_url =>
          match normalize full_url with
          | inl e => inl e
          | inr normalized =>
              extract_links_from hrefs' base_url ({[normalized]} ∪ links)
          end
      end
  end.

Definition extract_links (s : soup) (base_url : pystr)
    : py_exn + gset pystr :=
  extract_links_from (List.flat_map anchor_hrefs s) base_url ∅.

(** The body of the [try] of [crawl_url]. *)
Definition crawl_url_try (url : pystr) (reply : net_reply) : task_result :=
  match reply with
  | GetRaises e => inl e
  | Response status_code content_type document =>
      if negb (is_success status_code) then inl HTTPStatusError
      else if negb (contains (py "text/html") (default [] content_type))
      then inr (url, ∅, ∅)
      else
        match document with
        | inl e => inl e
        | inr parsed =>
            let s := List.flat_map extract_tags parsed in
            let text := get_text s in
            let words := extract_words text in
            match extract_links s url with
            | inl e => inl e
            | inr links => inr (url, words, links)
            end
        end
  end.

(** [crawl_url(client, url, semaphore)], given the reply of the network:
    [except Exception] catches what derives from [Exception]. *)
Definition crawl_url (url : pystr) (reply : net_reply) : task_result :=
  match crawl_url_try url reply with
  | inl e => if is_Exception e then inr (url, ∅, ∅) else inl e
  | inr r => inr r
  end.

(** *** The loop of [crawl_async] *)

Variables max_depth max_pages workers : Z.

Definition record_enqueued (h : history) (e : entry) : history :=
  {| enqueued := enqueued h ++ [e]; returned := returned h;
     discarded := discarded h; results := results h |}.

Definition record_returned (h : history) (e : entry) : history :=
  {| enqueued := enqueued h; returned := returned h ++ [e];
     discarded := discarded h; results := results h |}.

Definition record_discarded (h : history) (e : entry) : history :=
  {| enqueued := enqueued h; returned := returned h;
     discarded := discarded h ++ [e]; results := results h |}.

Definition record_result (h : history) (r : task_result) : history :=
  {| enqueued := enqueued h; returned := returned h;
     discarded := discarded h; results := results h ++ [r] |}.

(** Lines 125 to 127: one link of a result. *)
Definition enqueue_link (s : crawl_state) (link : pystr) : crawl_state :=
  if bool_decide (link ∉ visited s)
     && (Z.of_nat (size (visited s)) <? max_pages)%Z
  then {| visited := {[link]} ∪ visited s;
          queue := queue s ++ [(link, 0%Z)];
          all_words := all_words s;
          pages_crawled := pages_crawled s;
          fetches := fetches s;
          hist := record_enqueued (hist s) (link, 0%Z) |}
  else s.

(** Lines 119 to 127: one result of the batch. *)
Definition merge_result (s : crawl_state) (result : task_result)
    : crawl_state :=
  match result with
  | inl _ =>
      {| visited := visited s; queue := queue s;
         all_words := all_words s; pages_crawled := pages_crawled s;
         fetches := fetches s;
         hist := record_result (hist s) result |}
  | inr (crawled_url, words, links) =>
      fold_left enqueue_link (set_iter links)
        {| visited := visited s; queue := queue s;
           all_words := all_words s ∪ words;
           pages_crawled := (pages_crawled s + 1)%Z;
           fetches := fetches s;
           hist := record_result (hist s) result |}
  end.

(** Lines 105 to 109: the inner [while], from a queue, the batch built so
    far and the history, to the batch, what is left of the queue and the
    history. *)
Fixpoint fill_batch (q : list entry) (urls_to_crawl : list entry)
    (h : history) : list entry * list entry * history :=
  match q with
  | [] => (urls_to_crawl, [], h)
  | (url, depth) :: q' =>
      if (Z.of_nat (length urls_to_crawl) <? workers * 2)%Z then
        if (depth >? max_depth)%Z
        then fill_batch q' urls_to_crawl (record_discarded h (url, depth))
        else fill_batch q' (urls_to_crawl ++ [(url, depth)])
               (record_returned h (url, depth))
      else (urls_to_crawl, q, h)
  end.

(** Lines 114 to 116: one task per entry of the batch, and their results
    in the order of the batch; [k] numbers the tasks. *)
Fixpoint gather (k : nat) (urls_to_crawl : list entry) : list task_result :=
  match urls_to_crawl with
  | [] => []
  | (url, _) :: rest => crawl_url url (net k url) :: gather (S k) rest
  end.

Inductive loop_outcome : Type :=
  | Next (s : crawl_state)    (* the body ran, back to the test *)
  | Exit (s : crawl_state).   (* the test failed, or [break] *)

(** Lines 102 to 127: the test of the outer [while] and one run of its
    body. *)
Definition crawl_iteration (s : crawl_state) : loop_outcome :=
  if nonempty_queue (queue s) && (pages_crawled s <? max_pages)%Z then
    let '(urls_to_crawl, q', h') := fill_batch (queue s) [] (hist s) in
    let s1 := {| visited := visited s; queue := q';
                 all_words := all_words s;
                 pages_crawled := pages_crawled s;
                 fetches := fetches s; hist := h' |} in
    match urls_to_crawl with
    | [] => Exit s1
    | _ :: _ =>
        let results := gather (fetches s) urls_to_crawl in
        let s2 := {| visited := visited s1; queue := queue s1;
                     all_words := all_words s1;
                     pages_crawled := pages_crawled s1;
                     fetches := (fetches s1 + length urls_to_crawl)%nat;
                     hist := hist s1 |} in
        Next (fold_left merge_result results s2)
    end
  else Exit s.

(** The outer [while], run for at most [fuel] more bodies after the
    first. *)
Fixpoint crawl_loop (fuel : nat) (s : crawl_state) : option crawl_state :=
  match crawl_iteration s with
  | Exit s' => Some s'
  | Next s' =>
      match fuel with
      | O => None
      | S fuel' => crawl_loop fuel' s'
      end
  end.

(** The state when the test of the outer [while] is reached for the
    [n]-th time after the first, or the final state if the loop ends
    before. *)
Fixpoint state_after (n : nat) (s : crawl_state) : crawl_state :=
  match n with
  | O => s
  | S n' =>
      match crawl_iteration s with
      | Exit s' => s'
      | Next s' => state_after n' s'
      end
  end.

(** Lines 84 to 87: the state before the loop. *)
Definition initial_state (seed : pystr) : crawl_state :=
  {| visited := {[seed]};
     queue := [(seed, 0%Z)];
     all_words := ∅;
     pages_crawled := 0;
     fetches := 0;
     hist := {| enqueued := [(seed, 0%Z)]; returned := [];
                discarded := []; results := [] |} |}.

(** A number of bodies the loop cannot exceed: each body takes at least
    one entry off the queue, and an entry is added only while the Visited
    Set is under the budget. *)
Definition crawl_fuel (s : crawl_state) : nat :=
  (length (queue s)
   + Z.to_nat (max_pages - Z.of_nat (size (visited s))))%nat.

(** [crawl_async(start_url, max_depth, max_pages, workers)] up to the end
    of the loop: the final state, or the exception raised before the loop
    ([normalize_url] through [urlsplit], [asyncio.Semaphore(workers)] for
    a negative [workers]).  [None] would mean that the loop needs more
    than [crawl_fuel] bodies. *)
Definition crawl_run (start_url : pystr)
    : option (py_exn + crawl_state) :=
  match normalize start_url with
  | inl e => Some (inl e)
  | inr seed =>
      if (workers <? 0)%Z then Some (inl ValueError)
      else
        let s0 := initial_state seed in
        match crawl_loop (crawl_fuel s0) s0 with
        | None => None
        | Some s => Some (inr s)
        end
  end.

(** [crawl_async]: [return pages_crawled, all_words]. *)
Definition crawl_async (start_url : pystr)
    : option (py_exn + Z * gset pystr) :=
  match crawl_run start_url with
  | None => None
  | Some (inl e) => Some (inl e)
  | Some (inr s) => Some (inr (pages_crawled s, all_words s))
  end.

(** *** The tasks of a batch and the semaphore *)

(** A task created at line 114 for [crawl_url(client, url, semaphore)]:
    before [async with semaphore] lets it in, inside it (the fetch and the
    parse), or finished with its result. *)
Inductive task_phase : Type :=
  | Waiting (url : pystr)
  | Fetching (url : pystr)
  | Finished (r : task_result).

(** The crawl with the tasks of the batch in flight.  [sem_value] is the
    counter of the one [asyncio.Semaphore(workers)] of line 89; [tasks] is
    empty between two batches. *)
Record conc_state := {
  cs : crawl_state;
  sem_value : Z;
  tasks : list task_phase;
}.

Definition is_fetching (t : task_phase) : bool :=
  match t with Fetching _ => true | _ => false end.

Definition is_finished (t : task_phase) : bool :=
  match t with Finished _ => true | _ => false end.

(** The number of tasks inside [async with semaphore]. *)
Fixpoint fetching_count (l : list task_phase) : nat :=
  match l with
  | [] => O
  | t :: l' => ((if is_fetching t then 1 else 0) + fetching_count l')%nat
  end.

(** The results [asyncio.gather] returns, once every task has finished. *)
Fixpoint gathered (l : list task_phase) : option (list task_result) :=
  match l with
  | [] => Some []
  | Finished r :: l' =>
      match gathered l' with
      | Some rs => Some (r :: rs)
      | None => None
      end
  | _ :: _ => None
  end.

Inductive conc_step : conc_state -> conc_state -> Prop :=
  (* lines 102 to 114: the test, the batch, one task per entry *)
  | step_dispatch c urls_to_crawl q' h' :
      tasks c = [] ->
      nonempty_queue (queue (cs c))
        && (pages_crawled (cs c) <? max_pages)%Z = true ->
      fill_batch (queue (cs c)) [] (hist (cs c)) = (urls_to_crawl, q', h') ->
      urls_to_crawl <> [] ->
      conc_step c
        {| cs := {| visited := visited (cs c); queue := q';
                    all_words := all_words (cs c);
                    pages_crawled := pages_crawled (cs c);
                    fetches :=
                      (fetches (cs c) + length urls_to_crawl)%nat;
                    hist := h' |};
           sem_value := sem_value c;
           tasks := List.map (fun e => Waiting (fst e)) urls_to_crawl |}
  (* line 58: the semaphore lets a task in when its counter is positive *)
  | step_acquire c i url :
      tasks c !! i = Some (Waiting url) ->
      (0 < sem_value c)%Z ->
      conc_step c
        {| cs := cs c; sem_value := (sem_value c - 1)%Z;
           tasks := <[i := Fetching url]> (tasks c) |}
  (* lines 59 to 79: the task ends and leaves the semaphore *)
  | step_release c i url reply :
      tasks c !! i = Some (Fetching url) ->
      conc_step c
        {| cs := cs c; sem_value := (sem_value c + 1)%Z;
           tasks := <[i := Finished (crawl_url url reply)]> (tasks c) |}
  (* lines 116 to 127: [gather] returns, the results are merged *)
  | step_merge c rs :
      tasks c <> [] ->
      gathered (tasks c) = Some rs ->
      conc_step c
        {| cs := fold_left merge_result rs (cs c);
           sem_value := sem_value c; tasks := [] |}.

Definition conc_initial (seed : pystr) : conc_state :=
  {| cs := initial_state seed; sem_value := workers; tasks := [] |}.

(** The states a crawl can be in. *)
Inductive conc_reachable (seed : pystr) : conc_state -> Prop :=
  | reach_initial : conc_reachable seed (conc_initial seed)
  | reach_step c c' :
      conc_reachable seed c -> conc_step c c' -> conc_reachable seed c'.

(** *** What is stated of a crawl *)

(** The depth test of line 107, for an entry that is kept. *)
Definition depth_ok (e : entry) : bool := negb (e.2 >? max_depth)%Z.

(** The frontier: every entry ever enqueued has depth 0; the entries
    taken off the queue are the first ones enqueued, in that order, and
    went to the batches or were dropped by the depth test; an address
    was enqueued at most once, and the Visited Set holds exactly the
    addresses enqueued. *)
Record frontier_inv (s : crawl_state) : Prop := {
  inv_depth0 : Forall (fun e : entry => e.2 = 0%Z) (enqueued (hist s));
  inv_fifo : exists popped,
    enqueued (hist s) = popped ++ queue s
    /\ returned (hist s) = List.filter depth_ok popped
    /\ discarded (hist s)
       = List.filter (fun e => negb (depth_ok e)) popped;
  inv_nodup : NoDup (List.map fst (enqueued (hist s)));
  inv_visited : visited s = list_to_set (List.map fst (enqueued (hist s)));
  inv_budget : (Z.of_nat (size (visited s)) <= Z.max 1 max_pages)%Z;
}.

(** The accounts, each time the test of the outer loop is reached: one
    task and one result per entry of the batches, a page counted per
    tuple, the corpus the union of the words of the results. *)
Record accounting_inv (s : crawl_state) : Prop := {
  acc_fetches : fetches s = length (returned (hist s));
  acc_results : results (hist s) = gather O (returned (hist s));
  acc_pages :
    pages_crawled s = Z.of_nat (count_tuples (results (hist s)));
  acc_words :
    all_words s = ⋃ (List.map result_words (results (hist s)));
}.

(** The semaphore: its counter and the tasks it let in add up to
    [workers]. *)
Definition limiter_inv (c : conc_state) : Prop :=
  (Z.of_nat (fetching_count (tasks c)) + sem_value c = workers)%Z
  /\ (0 <= sem_value c)%Z.

(** The number of fetches of a batch that succeeded, for the claim that
    a page is counted for each of them and for no other. *)
Fixpoint success_count (k : nat) (urls_to_crawl : list entry) : nat :=
  match urls_to_crawl with
  | [] => O
  | (url, _) :: rest =>
      ((if fetch_succeeded (net k url) then 1 else 0)
       + success_count (S k) rest)%nat
  end.

End Crawl.

(** [-w/--workers] of [main]: [default=5]. *)
Definition default_workers : Z := 5.

(** ** The vocabulary of the properties *)

(** [w] is a maximal run of letters of [t]: letters only, at least one, and
    no letter next to it on either side. *)
Definition maximal_run (letter : N -> bool) (w t : pystr) : Prop :=
  w <> [] /\ Forall (fun c => letter c = true) w /\
  exists pre post, t = pre ++ w ++ post
    /\ (forall c, last pre = Some c -> letter c = false)
    /\ (forall c, head post = Some c -> letter c = false).

(** A token of the corpus: a non-empty string of the letters [a] to [z]. *)
Definition word_token (w : pystr) : Prop :=
  w <> [] /\ Forall (fun c => is_az c = true) w.

(** The code points outside ASCII whose uppercase contains an ASCII letter,
    with their uppercase. *)
Definition upper_to_ascii : list (N * pystr) :=
  [ (223, [83; 83]); (305, [73]); (329, [700; 78]); (383, [83]);
    (496, [74; 780]); (7830, [72; 817]); (7831, [84; 776]);
    (7832, [87; 778]); (7833, [89; 778]); (7834, [65; 702]);
    (64256, [70; 70]); (64257, [70; 73]); (64258, [70; 76]);
    (64259, [70; 70; 73]); (64260, [70; 70; 76]); (64261, [83; 84]);
    (64262, [83; 84]) ].

(** [str.upper()], one code point at a time.  A code point outside ASCII
    that is not in [upper_to_ascii] uppercases to code points outside ASCII
    that do not lowercase to an ASCII letter unless it did itself; it is
    left as it is here, which [extract_words] cannot tell apart. *)
Definition upper_cp (c : N) : pystr :=
  if is_az c then [c - 32]
  else match List.find (fun p => p.1 =? c) upper_to_ascii with
       | Some (_, u) => u
       | None => [c]
       end.

Definition upper (s : pystr) : pystr := flat_map upper_cp s.

(** Two characters that are the same, or the two cases of one ASCII
    letter. *)
Definition same_ascii_letter (a b : N) : Prop :=
  a = b \/ (is_AZ a = true /\ b = a + 32) \/ (is_AZ b = true /\ a = b + 32).

(** Two strings that differ in the case of ASCII letters only. *)
Definition ascii_case_variant (s t : pystr) : Prop :=
  Forall2 same_ascii_letter s t.

(** [s] with its letters [a] to [z] in upper case. *)
Definition ascii_upper (s : pystr) : pystr :=
  List.map (fun c => if is_az c then c - 32 else c) s.

(** [normalize_url(normalize_url(u))]. *)
Definition normalize_twice (bracketed_netloc_invalid nfkc_invalid : pystr -> bool)
    (url : pystr) : py_exn + pystr :=
  match normalize_url bracketed_netloc_invalid nfkc_invalid url with
  | inl e => inl e
  | inr v => normalize_url bracketed_netloc_invalid nfkc_invalid v
  end.

(** The characters [urlsplit] removes from a url. *)
Definition unsafe (c : N) : bool := (c =? 9) || (c =? 13) || (c =? 10).

(** A character of a scheme once in lower case. *)
Definition lower_scheme_char (c : N) : Prop :=
  scheme_char c = true /\ is_AZ c = false.

(** The parts [urlparse] finds in an address that has a scheme and a
    network location. *)
Record normal_parts (bracketed_netloc_invalid nfkc_invalid : pystr -> bool)
    (sch net pth qry : pystr) : Prop := {
  np_scheme : Forall lower_scheme_char sch;
  np_scheme_head : exists c s, sch = c :: s /\ is_az c = true;
  np_safe : Forall (fun c => unsafe c = false) (net ++ pth ++ qry);
  np_netloc : Forall (fun c => netloc_delim c = false) net;
  np_accepted :
    netloc_rejected bracketed_netloc_invalid nfkc_invalid net = false;
  np_path_head : forall c, head pth = Some c -> c = 47;
  np_path :
    Forall (fun c => is_char 35 c = false /\ is_char 63 c = false) pth;
  np_params : bool_decide (sch ∈ uses_params) && has_char 59 pth = true ->
              (splitparams pth).1 = pth;
  np_query : Forall (fun c => is_char 35 c = false) qry;
}.

(** The string [normalize_url] builds from the parts. *)
Definition assemble (sch net pth qry : pystr) : pystr :=
  sch ++ py "://" ++ net ++ pth
  ++ (if nonempty qry then py "?" ++ qry else py "").

(** ** Crawls to run the model on *)

(** The checks of the network location, for addresses whose host is a plain
    ASCII name without brackets: they do not raise. *)
Definition netloc_accepted : pystr -> bool := fun _ => false.

(** [urljoin] for the pages below, whose anchors all hold an absolute
    address in its simplest form: the address of the anchor. *)
Definition urljoin_absolute (base url : pystr) : py_exn + pystr := inr url.

(** A network that is down: every fetch ends in a transport error. *)
Definition net_down (k : nat) (url : pystr) : net_reply :=
  GetRaises TransportError.

Definition site_root : pystr := py "http://site.test/".

Definition anchor (href text : string) : node :=
  Tag (py "a") {[ py "href" := py href ]} [Str NavigableString (py text)].

(** The front page of a small site: a menu, a sentence, three anchors (two
    of them to one page, with and without a fragment) and a script. *)
Definition site_front_page : soup :=
  [ Tag (py "html") ∅
      [ Tag (py "body") ∅
          [ Tag (py "nav") ∅ [anchor "http://site.test/menu" "Menu"];
            Tag (py "p") ∅ [Str NavigableString (py "Hello, World!")];
            anchor "http://site.test/a#top" "foo-bar";
            anchor "http://site.test/a" "123";
            anchor "http://site.test/doc.pdf" "bar";
            Tag (py "script") ∅ [Str Script (py "var x = 1")] ] ] ].

(** The site: its front page, a page that is not found, a document that is
    not HTML; no other address answers. *)
Definition site_net (k : nat) (url : pystr) : net_reply :=
  if bool_decide (url = site_root)
  then Response 200 (Some (py "text/html; charset=utf-8"))
         (inr site_front_page)
  else if bool_decide (url = py "http://site.test/a")
  then Response 404 (Some (py "text/html")) (inr [])
  else if bool_decide (url = py "http://site.test/doc.pdf")
  then Response 200 (Some (py "application/pdf")) (inl ParserError)
  else GetRaises TransportError.

(** The crawl of the site with the depth and the workers [main] gives by
    default, and a budget of ten pages. *)
Definition site_crawl : option (py_exn + crawl_state) :=
  crawl_run netloc_accepted netloc_accepted urljoin_absolute elements
    site_net 3 10 default_workers site_root.

(** The state at the end of that crawl. *)
Definition site_final : crawl_state :=
  match site_crawl with
  | Some (inr s) => s
  | _ => initial_state site_root
  end.

(** ** [main] *)

(** The arguments [argparse] gives to [main]. *)
Record arguments := {
  arg_url : pystr;
  arg_depth : Z;
  arg_max_pages : Z;
  arg_file : pystr;
  arg_workers : Z;
}.

(** Lines 143 to 147: the arguments when only the url is given. *)
Definition default_arguments (url : pystr) : arguments :=
  {| arg_url := url; arg_depth := 3; arg_max_pages := 10000;
     arg_file := py "wordlist.txt"; arg_workers := default_workers |}.

(** [a <= b] on strings: code point by code point, a prefix before what it
    is a prefix of. *)
Fixpoint str_leb (a b : pystr) : bool :=
  match a, b with
  | [], _ => true
  | _ :: _, [] => false
  | x :: a', y :: b' =>
      if x <? y then true
      else if y <? x then false
      else str_leb a' b'
  end.

Definition str_le (a b : pystr) : Prop := str_leb a b = true.

#[global] Instance str_le_dec (a b : pystr) : Decision (str_le a b).
Proof. unfold str_le. apply _. Defined.

(** [sorted(l)] for a list of strings. *)
Definition sorted (l : list pystr) : list pystr := merge_sort str_le l.

(** Lines 166 to 168: what the loop writes to the file. *)
Definition wordlist_text (sorted_words : list pystr) : pystr :=
  List.flat_map (fun word => word ++ [10]) sorted_words.

Section Main.

Variable bracketed_netloc_invalid : pystr -> bool.
Variable nfkc_invalid : pystr -> bool.
Variable urljoin : pystr -> pystr -> py_exn + pystr.
Variable set_iter : gset pystr -> list pystr.
Variable net : nat -> pystr -> net_reply.

(** [main], from the arguments to what it reports and writes: the number
  of pages, the number of words ([len(all_words)]) and the text of the
  file; or the exception [crawl_async] raised. *)
Definition main (args : arguments) : option (py_exn + Z * nat * pystr) :=
match crawl_async bracketed_netloc_invalid nfkc_invalid urljoin set_iter
        net (arg_depth args) (arg_max_pages args) (arg_workers args)
        (arg_url args) with
| None => None
| Some (inl e) => Some (inl e)
| Some (inr (pages_crawled, all_words)) =>
    let sorted_words := sorted (set_iter all_words) in
    Some (inr (pages_crawled, size all_words, wordlist_text sorted_words))
end.

End Main.

(** ** More vocabulary *)

(** The names of the tags of a tree. *)
Fixpoint tag_names (n : node) : list pystr :=
  match n with
  | Str _ _ => []
  | Tag name _ contents => name :: List.flat_map tag_names contents
  end.

(** The lines of a text in which every line ends with a line feed. *)
Fixpoint lines_from (line : pystr) (text : pystr) : list pystr :=
  match text with
  | [] => match line with [] => [] | _ => [rev line] end
  | c :: text' =>
      if c =? 10 then rev line :: lines_from [] text'
      else lines_from (c :: line) text'
  end.

Definition lines (text : pystr) : list pystr := lines_from [] text.

(** [a < b] on strings. *)
Definition str_lt (a b : pystr) : Prop := str_le a b /\ a <> b.

(** A page with two anchors, the second of which [urljoin_strict] refuses. *)
Definition urljoin_strict (base url : pystr) : py_exn + pystr :=
  if has_char 91 url then inl ValueError else inr url.

Definition page_with_bad_link : soup :=
  [ Tag (py "p") ∅ [Str NavigableString (py "Some words")];
    anchor "http://site.test/ok" "fine";
    anchor "http://[broken" "broken" ].

(** A page with a document type, a comment and a template beside its
    text. *)
Definition page_with_comment : soup :=
  [ Str Doctype (py "html");
    Tag (py "html") ∅
      [ Tag (py "body") ∅
          [ Str Comment (py "hidden note");
            Tag (py "p") ∅ [Str NavigableString (py "visible text")];
            Tag (py "template") ∅ [Str TemplateString (py "later")];
            anchor "http://site.test/next" "base" ] ] ].

(** The crawl of the site, the first batch made and its one task let in by
    the semaphore. *)
Definition site_dispatched : conc_state :=
  {| cs := {| visited := {[site_root]}; queue := [];
              all_words := ∅; pages_crawled := 0; fetches := 1;
              hist := {| enqueued := [(site_root, 0%Z)];
                         returned := [(site_root, 0%Z)];
                         discarded := []; results := [] |} |};
     sem_value := default_workers;
     tasks := [Waiting site_root] |}.

Definition site_fetching : conc_state :=
  {| cs := cs site_dispatched;
     sem_value := (default_workers - 1)%Z;
     tasks := [Fetching site_root] |}.

(** A character that is neither [#] nor one of those [urlsplit]
    removes. *)
Definition plain (c : N) : Prop := is_char 35 c = false /\ unsafe c = false.

Section LinkVocabulary.

Variable bracketed_netloc_invalid : pystr -> bool.
Variable nfkc_invalid : pystr -> bool.
Variable urljoin : pystr -> pystr -> py_exn + pystr.

(** An anchor whose address [urljoin] and [normalize_url] accept, and what
  they make of it. *)
Definition resolves (base href l : pystr) : Prop :=
exists full_url,
  urljoin base href = inr full_url
  /\ normalize_url bracketed_netloc_invalid nfkc_invalid full_url = inr l.

(** An anchor on which [urljoin] or [normalize_url] raises [e]. *)
Definition fails_with (base href : pystr) (e : py_exn) : Prop :=
urljoin base href = inl e
\/ exists full_url,
     urljoin base href = inr full_url
     /\ normalize_url bracketed_netloc_invalid nfkc_invalid full_url
        = inl e.

(** An address [normalize_url] returns for some url. *)
Definition normalized (a : pystr) : Prop :=
exists u, normalize_url bracketed_netloc_invalid nfkc_invalid u = inr a.

Definition links_normalized (r : task_result) : Prop :=
match r with
| inr (_, _, links) => forall l, l ∈ links -> normalized l
| inl _ => True
end.

End LinkVocabulary.

(** * Proofs *)

(** Comparisons of code points, as booleans, to arithmetic. *)
Ltac N_bool :=
  unfold lower_scheme_char, scheme_char, is_ascii_alpha, is_digit, is_az,
    is_AZ, is_char, netloc_delim, unsafe in *;
  repeat first
    [ rewrite andb_true_iff in * | rewrite andb_false_iff in *
    | rewrite orb_true_iff in * | rewrite orb_false_iff in *
    | rewrite negb_true_iff in * | rewrite negb_false_iff in *
    | rewrite N.leb_le in * | rewrite N.leb_gt in *
    | rewrite N.ltb_lt in * | rewrite N.ltb_ge in *
    | rewrite N.eqb_eq in * | rewrite N.eqb_neq in * ];
  lia.

(** ** Word extraction *)

Lemma maximal_run_skip letter a c s w :
  Forall (fun x => letter x = true) a -> letter c = false ->
  maximal_run letter w (a ++ c :: s) <-> (w = a /\ a <> []) \/ maximal_run letter w s.
Proof.
  intros Ha Hc. split.
  - intros (Hne & Hw & pre & post & Heq & Hpre & Hpost).
    apply app_eq_app in Heq as [l [[E1 E2]|[E1 E2]]].
    + (* a = pre ++ l *)
      destruct pre as [|p0 pre'] using rev_ind.
      * simpl in *. subst l.
        symmetry in E2. apply app_eq_app in E2 as [m [[F1 F2]|[F1 F2]]].
        -- destruct m as [|m0 m].
           ++ left. rewrite app_nil_r in F1. subst. auto.
           ++ exfalso. subst post. specialize (Hpost m0 eq_refl).
              subst a. rewrite Forall_app in Ha. destruct Ha as [_ Ha].
              inversion Ha; congruence.
        -- destruct m as [|m0 m].
           ++ left. rewrite app_nil_r in F1. subst. auto.
           ++ exfalso. simpl in F2. inversion F2; subst.
              rewrite Forall_app in Hw. destruct Hw as [_ Hw].
              inversion Hw; congruence.
      * exfalso. specialize (Hpre p0). rewrite last_snoc in Hpre.
        specialize (Hpre eq_refl). subst a.
        rewrite !Forall_app in Ha. destruct Ha as [[_ Ha] _].
        inversion Ha; congruence.
    + destruct l as [|l0 l].
      * simpl in E2. rewrite app_nil_r in E1. subst pre.
        destruct w as [|w0 w]; [congruence|].
        simpl in E2. inversion E2; subst. inversion Hw; congruence.
      * simpl in E2. inversion E2; subst. right.
        split; [auto|]. split; [auto|]. exists l, post. split; [auto|].
        split; [|auto]. intros x Hx. apply Hpre.
        rewrite last_app. rewrite last_cons. rewrite Hx. reflexivity.
  - intros [[-> Hne]|(Hne & Hw & pre & post & Heq & Hpre & Hpost)].
    + split; [auto|]. split; [auto|]. exists [], (c :: s). simpl.
      split; [auto|]. split; [discriminate|]. intros x [= <-]. auto.
    + split; [auto|]. split; [auto|]. exists (a ++ c :: pre), post.
      split; [subst s; rewrite <- app_assoc; reflexivity|].
      split; [|auto]. intros x. rewrite last_app, last_cons.
      destruct (last pre) eqn:E; [intros [= <-]; auto|].
      intros [= <-]. auto.
Qed.

Lemma maximal_run_all letter t w :
  Forall (fun x => letter x = true) t ->
  maximal_run letter w t <-> (w = t /\ t <> []).
Proof.
  intros Ht. split.
  - intros (Hne & Hw & pre & post & Heq & Hpre & Hpost).
    destruct pre as [|p0 pre' _] using rev_ind.
    + destruct post as [|q0 post].
      * simpl in Heq. rewrite app_nil_r in Heq. subst. auto.
      * exfalso. specialize (Hpost q0 eq_refl). subst t.
        rewrite !Forall_app in Ht. destruct Ht as [_ [_ Ht]].
        inversion Ht; congruence.
    + exfalso. specialize (Hpre p0). rewrite last_snoc in Hpre.
      specialize (Hpre eq_refl). subst t.
      rewrite !Forall_app in Ht. destruct Ht as [[_ Ht] _].
      inversion Ht; congruence.
  - intros [-> Hne]. split; [auto|]. split; [auto|].
    exists [], []. simpl. rewrite app_nil_r. split; [auto|].
    split; discriminate.
Qed.

Lemma findall_from_spec s : forall run w,
  Forall (fun x => is_az x = true) run ->
  w ∈ findall_from run s <-> maximal_run is_az w (rev run ++ s).
Proof.
  induction s as [|c s IH]; intros run w Hrun.
  - simpl. rewrite app_nil_r.
    rewrite maximal_run_all by (apply Forall_rev; exact Hrun).
    destruct run as [|r0 run].
    + simpl. rewrite elem_of_nil. intuition congruence.
    + rewrite list_elem_of_singleton. split.
      * intros ->. split; [auto|]. simpl. intros E.
        apply app_eq_nil in E. destruct E; discriminate.
      * tauto.
  - simpl. destruct (is_az c) eqn:Hc.
    + rewrite IH by (constructor; auto). simpl.
      rewrite <- app_assoc. reflexivity.
    + rewrite maximal_run_skip; [|apply Forall_rev; exact Hrun|exact Hc].
      destruct run as [|r0 run].
      * rewrite (IH [] w) by constructor. simpl. intuition congruence.
      * rewrite elem_of_cons. rewrite (IH [] w) by constructor. simpl.
        split.
        -- intros [->|H]; [left|right; auto]. split; [auto|].
           intros E. apply app_eq_nil in E. destruct E; discriminate.
        -- intros [[-> _]|H]; auto.
Qed.

Lemma findall_maximal_runs s w :
  w ∈ WORD_PATTERN_findall s <-> maximal_run is_az w s.
Proof. unfold WORD_PATTERN_findall. rewrite findall_from_spec by constructor. reflexivity. Qed.

Lemma lower_cp_no_upper c : Forall (fun x => is_AZ x = false) (lower_cp c).
Proof.
  unfold lower_cp. destruct (is_AZ c) eqn:E.
  - repeat constructor. N_bool.
  - destruct (c =? 304) eqn:E1; [repeat constructor|].
    destruct (c =? 8490) eqn:E2; repeat constructor. exact E.
Qed.

Lemma lower_no_upper s : Forall (fun x => is_AZ x = false) (lower s).
Proof.
  induction s; simpl; [constructor|]. apply Forall_app. split; auto using lower_cp_no_upper.
Qed.

Lemma maximal_run_letters t w :
  Forall (fun x => is_AZ x = false) t ->
  maximal_run is_ascii_alpha w t <-> maximal_run is_az w t.
Proof.
  intros Ht.
  assert (Hsame : forall x, x ∈ t -> is_ascii_alpha x = is_az x).
  { intros x Hx. rewrite Forall_forall in Ht. unfold is_ascii_alpha.
    rewrite (Ht x Hx). apply orb_false_r. }
  split; intros (Hne & Hw & pre & post & Heq & Hpre & Hpost).
  - split; [auto|]. split.
    + rewrite Forall_forall in *. intros x Hx. rewrite <- Hsame; auto.
      subst t. set_solver.
    + exists pre, post. split; [auto|]. split.
      * intros c Hc. rewrite <- Hsame; auto. subst t.
        apply last_Some_elem_of in Hc. set_solver.
      * intros c Hc. rewrite <- Hsame; auto. subst t.
        apply head_Some_elem_of in Hc. set_solver.
  - split; [auto|]. split.
    + rewrite Forall_forall in *. intros x Hx. rewrite Hsame; auto.
      subst t. set_solver.
    + exists pre, post. split; [auto|]. split.
      * intros c Hc. rewrite Hsame; auto. subst t.
        apply last_Some_elem_of in Hc. set_solver.
      * intros c Hc. rewrite Hsame; auto. subst t.
        apply head_Some_elem_of in Hc. set_solver.
Qed.

(** C7: [extract_words] puts the text in lower case and returns the set of
    the maximal runs of ASCII letters of the result; on
    [Hello, World! foo-bar 123] the set is hello, world, foo and bar. *)
Theorem extract_words_maximal_runs :
  (forall text w,
     w ∈ extract_words text <-> maximal_run is_ascii_alpha w (lower text))
  /\ extract_words (py "Hello, World! foo-bar 123")
     = {[ py "hello"; py "world"; py "foo"; py "bar" ]}.
Proof.
  split.
  - intros text w. unfold extract_words. rewrite elem_of_list_to_set.
    rewrite findall_maximal_runs.
    rewrite maximal_run_letters by apply lower_no_upper. reflexivity.
  - vm_compute. reflexivity.
Qed.

(** ** Case of letters *)

Lemma same_ascii_letter_lower a b :
  same_ascii_letter a b -> lower_cp a = lower_cp b.
Proof.
  intros [->|[[Ha ->]|[Hb ->]]]; [reflexivity| |]; unfold lower_cp.
  - rewrite Ha.
    assert (is_AZ (a + 32) = false) as -> by N_bool.
    assert ((a + 32 =? 304) = false) as -> by N_bool.
    assert ((a + 32 =? 8490) = false) as -> by N_bool.
    reflexivity.
  - rewrite Hb.
    assert (is_AZ (b + 32) = false) as -> by N_bool.
    assert ((b + 32 =? 304) = false) as -> by N_bool.
    assert ((b + 32 =? 8490) = false) as -> by N_bool.
    reflexivity.
Qed.

Lemma ascii_case_variant_lower s t :
  ascii_case_variant s t -> lower s = lower t.
Proof.
  induction 1 as [|a b s t Hab Hst IH]; simpl; [reflexivity|].
  rewrite IH, (same_ascii_letter_lower a b Hab). reflexivity.
Qed.

Lemma ascii_upper_variant s : ascii_case_variant (ascii_upper s) s.
Proof.
  induction s as [|c s IH]; simpl; constructor; [|exact IH].
  destruct (is_az c) eqn:E; [|left; reflexivity].
  right. left. split; [N_bool|]. N_bool.
Qed.

Lemma extract_words_tokens s w : w ∈ extract_words s -> word_token w.
Proof.
  unfold extract_words. rewrite elem_of_list_to_set, findall_maximal_runs.
  intros (Hne & Hw & _). split; assumption.
Qed.

(** ** urllib.parse *)

(** ** Facts on [break_at] *)

Lemma break_at_app d s a b :
  break_at d s = (a, b) ->
  s = a ++ b /\ Forall (fun c => d c = false) a
  /\ (forall c, head b = Some c -> d c = true).
Proof.
  revert a b. induction s as [|c s IH]; intros a b H; simpl in H.
  - inversion H; subst. repeat split; auto. discriminate.
  - destruct (d c) eqn:Hd.
    + inversion H; subst. repeat split; auto.
      intros c' [= <-]. exact Hd.
    + destruct (break_at d s) as [a' b'] eqn:E. inversion H; subst.
      destruct (IH a' b eq_refl) as (-> & Ha & Hb).
      repeat split; auto.
Qed.

Lemma break_at_unique d a b :
  Forall (fun c => d c = false) a ->
  (forall c, head b = Some c -> d c = true) ->
  break_at d (a ++ b) = (a, b).
Proof.
  intros Ha Hb. induction Ha as [|c a Hc Ha IH]; simpl.
  - destruct b as [|c b]; simpl; auto.
    rewrite (Hb c eq_refl). reflexivity.
  - rewrite Hc, IH. reflexivity.
Qed.

Lemma break_at_none d s :
  Forall (fun c => d c = false) s -> break_at d s = (s, []).
Proof.
  intros H. rewrite <- (app_nil_r s) at 1.
  apply break_at_unique; auto. discriminate.
Qed.

Lemma has_char_false k s :
  has_char k s = false <-> Forall (fun c => is_char k c = false) s.
Proof.
  unfold has_char. induction s as [|c s IH]; simpl.
  - split; auto.
  - rewrite orb_false_iff, IH. split.
    + intros [? ?]; constructor; auto.
    + intros H; inversion H; auto.
Qed.

Lemma starts_with_spec a b :
  starts_with a b = true <-> exists r, b = a ++ r.
Proof.
  revert b. induction a as [|x a IH]; intros b; simpl.
  - split; eauto.
  - destruct b as [|y b].
    + split; [discriminate|]. intros [r H]. discriminate.
    + rewrite andb_true_iff, IH, N.eqb_eq. split.
      * intros [-> [r ->]]. eauto.
      * intros [r H]. inversion H; subst. eauto.
Qed.

(** ** [_splitparams] *)

Lemma splitparams_slash_none h seg :
  Forall (fun c => is_char 47 c = false) seg ->
  Forall (fun c => is_char 59 c = false) seg ->
  splitparams (h ++ 47 :: seg) = (h ++ 47 :: seg, []).
Proof.
  intros Hs Hp. unfold splitparams.
  rewrite rev_app_distr. simpl. rewrite <- app_assoc. simpl.
  rewrite break_at_unique; [|apply Forall_rev; exact Hs|intros c [= <-]; reflexivity].
  rewrite rev_involutive, break_at_none by exact Hp. reflexivity.
Qed.

Lemma splitparams_slash_some h s1 s2 :
  Forall (fun c => is_char 47 c = false) (s1 ++ 59 :: s2) ->
  Forall (fun c => is_char 59 c = false) s1 ->
  splitparams (h ++ 47 :: s1 ++ 59 :: s2) = (h ++ 47 :: s1, s2).
Proof.
  intros Hs Hp. unfold splitparams.
  rewrite rev_app_distr. simpl. rewrite <- app_assoc. simpl.
  rewrite break_at_unique; [|apply Forall_rev; exact Hs|intros c [= <-]; reflexivity].
  rewrite rev_involutive.
  rewrite break_at_unique; [|exact Hp|intros c [= <-]; reflexivity].
  simpl. rewrite rev_involutive, <- app_assoc. reflexivity.
Qed.

Lemma splitparams_noslash s1 s2 :
  Forall (fun c => is_char 47 c = false) (s1 ++ 59 :: s2) ->
  Forall (fun c => is_char 59 c = false) s1 ->
  splitparams (s1 ++ 59 :: s2) = (s1, s2).
Proof.
  intros Hs Hp. unfold splitparams.
  rewrite break_at_none by (apply Forall_rev; exact Hs).
  rewrite break_at_unique; [|exact Hp|intros c [= <-]; reflexivity].
  reflexivity.
Qed.

(** Every string is of one of four shapes for [_splitparams]. *)
Lemma splitparams_shape p :
  (exists h seg, p = h ++ 47 :: seg
     /\ Forall (fun c => is_char 47 c = false) seg
     /\ Forall (fun c => is_char 59 c = false) seg)
  \/ (exists h s1 s2, p = h ++ 47 :: s1 ++ 59 :: s2
     /\ Forall (fun c => is_char 47 c = false) (s1 ++ 59 :: s2)
     /\ Forall (fun c => is_char 59 c = false) s1)
  \/ (exists s1 s2, p = s1 ++ 59 :: s2
     /\ Forall (fun c => is_char 47 c = false) (s1 ++ 59 :: s2)
     /\ Forall (fun c => is_char 59 c = false) s1)
  \/ (Forall (fun c => is_char 47 c = false) p
     /\ Forall (fun c => is_char 59 c = false) p).
Proof.
  destruct (break_at (is_char 47) (rev p)) as [sr hr] eqn:E.
  apply break_at_app in E as (Hp & Hsr & Hh).
  apply (f_equal (@rev N)) in Hp. rewrite rev_involutive, rev_app_distr in Hp.
  apply Forall_rev in Hsr.
  destruct (break_at (is_char 59) (rev sr)) as [s1 s2] eqn:E2.
  apply break_at_app in E2 as (Hseg & Hs1 & Hs2).
  destruct hr as [|c hr].
  - simpl in Hp. rewrite <- Hp in *.
    destruct s2 as [|c2 s2].
    + right. right. right. rewrite app_nil_r in Hseg. subst s1. auto.
    + right. right. left. exists s1, s2.
      specialize (Hs2 c2 eq_refl). unfold is_char in Hs2.
      apply N.eqb_eq in Hs2. subst c2. rewrite <- Hseg. auto.
  - specialize (Hh c eq_refl). unfold is_char in Hh. apply N.eqb_eq in Hh.
    subst c. simpl in Hp. rewrite <- app_assoc in Hp. simpl in Hp.
    destruct s2 as [|c2 s2].
    + left. exists (rev hr), (rev sr). rewrite app_nil_r in Hseg.
      rewrite <- Hseg in Hs1. auto.
    + right. left. exists (rev hr), s1, s2.
      specialize (Hs2 c2 eq_refl). unfold is_char in Hs2.
      apply N.eqb_eq in Hs2. subst c2. rewrite <- Hseg. auto.
Qed.

Lemma Forall_has_char k s :
  Forall (fun c => is_char k c = false) s -> has_char k s = false.
Proof. apply has_char_false. Qed.

Lemma Forall_removelast (P : N -> Prop) l :
  Forall P l -> Forall P (removelast l).
Proof.
  induction 1 as [|x l Hx Hl IH]; simpl; [constructor|].
  destruct l; [constructor|]. constructor; auto.
Qed.

(** Splitting the parameters off twice is splitting them off once. *)
Lemma splitparams_idem p :
  has_char 59 (splitparams p).1 = true ->
  splitparams (splitparams p).1 = ((splitparams p).1, []).
Proof.
  destruct (splitparams_shape p)
    as [(h & seg & -> & Hs & Hp)|[(h & s1 & s2 & -> & Hs & Hp)
        |[(s1 & s2 & -> & Hs & Hp)|[Hs Hp]]]].
  - rewrite splitparams_slash_none by auto. simpl.
    intros _. apply splitparams_slash_none; auto.
  - rewrite splitparams_slash_some by auto. simpl.
    intros _. apply splitparams_slash_none; auto.
    apply Forall_app in Hs. tauto.
  - rewrite splitparams_noslash by auto. simpl.
    rewrite Forall_has_char by auto. discriminate.
  - unfold splitparams at 1 2.
    rewrite (break_at_none (is_char 47)) by (apply Forall_rev; exact Hs).
    rewrite (break_at_none (is_char 59)) by exact Hp. simpl.
    intros H. exfalso. revert H.
    rewrite Forall_has_char by (apply Forall_removelast; exact Hp).
    discriminate.
Qed.


Lemma splitparams_Forall (P : N -> Prop) p :
  has_char 59 p = true -> Forall P p -> Forall P (splitparams p).1.
Proof.
  intros Hsemi HP.
  destruct (splitparams_shape p)
    as [(h & seg & -> & Hs & Hp)|[(h & s1 & s2 & -> & Hs & Hp)
        |[(s1 & s2 & -> & Hs & Hp)|[Hs Hp]]]].
  - rewrite splitparams_slash_none by auto. exact HP.
  - rewrite splitparams_slash_some by auto. simpl.
    rewrite !Forall_app, !Forall_cons, Forall_app in HP.
    rewrite Forall_app, Forall_cons. tauto.
  - rewrite splitparams_noslash by auto. simpl.
    rewrite Forall_app in HP. tauto.
  - rewrite Forall_has_char in Hsemi by exact Hp. discriminate.
Qed.

Lemma splitparams_slash_head p :
  has_char 59 (47 :: p) = true -> exists r, (splitparams (47 :: p)).1 = 47 :: r.
Proof.
  intros Hsemi.
  destruct (splitparams_shape (47 :: p))
    as [(h & seg & E & Hs & Hp)|[(h & s1 & s2 & E & Hs & Hp)
        |[(s1 & s2 & E & Hs & Hp)|[Hs Hp]]]].
  - rewrite E, splitparams_slash_none by auto. rewrite <- E. eauto.
  - rewrite E, splitparams_slash_some by auto. simpl.
    destruct h as [|h0 h]; simpl in *; inversion E; subst; eauto.
  - exfalso. rewrite <- E in Hs. inversion Hs; subst. discriminate.
  - inversion Hs; subst. discriminate.
Qed.

(** ** The scheme *)

Lemma lower_cp_scheme_char c :
  scheme_char c = true ->
  exists c', lower_cp c = [c'] /\ lower_scheme_char c'
    /\ (is_ascii_alpha c = true -> is_az c' = true).
Proof.
  intros Hc. unfold lower_cp. destruct (is_AZ c) eqn:E.
  - exists (c + 32). split; [reflexivity|]. split; [|intros _]; N_bool.
  - assert ((c =? 304) = false) as -> by N_bool.
    assert ((c =? 8490) = false) as -> by N_bool.
    exists c. split; [reflexivity|]. split; [split; auto|].
    intros H. N_bool.
Qed.

Lemma lower_scheme s :
  Forall (fun c => scheme_char c = true) s ->
  Forall lower_scheme_char (lower s) /\ length (lower s) = length s.
Proof.
  induction 1 as [|c s Hc Hs [IH1 IH2]]; simpl; [split; auto|].
  destruct (lower_cp_scheme_char c Hc) as (c' & -> & Hc' & _). simpl.
  split; auto.
Qed.

Lemma lower_lower_scheme s :
  Forall lower_scheme_char s -> lower s = s.
Proof.
  induction 1 as [|c s Hc Hs IH]; simpl; [reflexivity|].
  rewrite IH. unfold lower_cp.
  assert (is_AZ c = false) as -> by (destruct Hc; auto).
  assert ((c =? 304) = false) as -> by (destruct Hc; N_bool).
  assert ((c =? 8490) = false) as -> by (destruct Hc; N_bool).
  reflexivity.
Qed.

Lemma forallb_Forall_true (f : N -> bool) l :
  forallb f l = true <-> Forall (fun c => f c = true) l.
Proof.
  induction l as [|c l IH]; simpl.
  - split; auto.
  - rewrite andb_true_iff, IH. split.
    + intros [? ?]; constructor; auto.
    + intros H; inversion H; auto.
Qed.

(** What [split_scheme] returns. *)
Lemma split_scheme_spec url sch rest :
  split_scheme url = (sch, rest) ->
  (sch = [] /\ rest = url)
  \/ (exists c s, sch = c :: s /\ is_az c = true
        /\ Forall lower_scheme_char sch
        /\ exists pre, url = pre ++ 58 :: rest).
Proof.
  unfold split_scheme.
  destruct (break_at (is_char 58) url) as [a b] eqn:E.
  apply break_at_app in E as (-> & Ha & Hb).
  destruct a as [|c pre]; [intros [= <- <-]; auto|].
  destruct b as [|k b]; [intros [= <- <-]; auto|].
  destruct (is_ascii_alpha c && forallb scheme_char (c :: pre)) eqn:C;
    [|intros [= <- <-]; auto].
  intros [= <- <-]. right.
  apply andb_true_iff in C as [Calpha Call].
  apply forallb_Forall_true in Call.
  specialize (Hb k eq_refl). unfold is_char in Hb. apply N.eqb_eq in Hb.
  subst k.
  destruct (lower_scheme (c :: pre) Call) as [Hl _].
  inversion Call as [|? ? Hc Hpre]; subst.
  destruct (lower_cp_scheme_char c Hc) as (c' & Ec & Hc' & Haz).
  simpl in *. rewrite Ec in *. simpl in *.
  exists c', (lower pre). repeat split; auto.
  exists (c :: pre). reflexivity.
Qed.

(** ** Characters [urlsplit] removes *)

Lemma remove_unsafe_safe s : Forall (fun c => unsafe c = false) (remove_unsafe s).
Proof.
  unfold remove_unsafe. induction s as [|c s IH]; simpl; [constructor|].
  destruct (negb _) eqn:E; auto. constructor; auto.
  apply negb_true_iff in E. exact E.
Qed.

Lemma remove_unsafe_id s :
  Forall (fun c => unsafe c = false) s -> remove_unsafe s = s.
Proof.
  unfold remove_unsafe. induction 1 as [|c s Hc Hs IH]; simpl; auto.
  unfold unsafe in Hc. rewrite Hc. simpl. rewrite IH. reflexivity.
Qed.

Lemma clean_url_safe u : Forall (fun c => unsafe c = false) (clean_url u).
Proof. apply remove_unsafe_safe. Qed.

Lemma lower_scheme_char_safe c :
  lower_scheme_char c -> unsafe c = false /\ is_char 58 c = false /\ (32 <? c) = true.
Proof. intros H. unfold unsafe. repeat split; N_bool. Qed.

Lemma normalize_normal_parts bni nfkc sch net pth qry :
  normal_parts bni nfkc sch net pth qry ->
  normalize_url bni nfkc (assemble sch net pth qry)
  = inr (assemble sch net pth qry).
Proof.
  intros [Hsch (c & s & -> & Hc) Hsafe Hnet Hacc Hhead Hpth Hpar Hqry].
  set (optq := if nonempty qry then py "?" ++ qry else py "").
  assert (Hoptq_safe : Forall (fun c => unsafe c = false) optq).
  { subst optq. rewrite !Forall_app in Hsafe. destruct qry; simpl.
    - constructor.
    - constructor; [reflexivity|]. tauto. }
  assert (Hclean : clean_url (assemble (c :: s) net pth qry)
                   = assemble (c :: s) net pth qry).
  { unfold clean_url, assemble. simpl lstrip_c0_space.
    assert ((c <=? 32) = false) as -> by N_bool.
    apply remove_unsafe_id. fold optq.
    change (c :: s ++ py "://" ++ net ++ pth ++ optq)
      with ((c :: s) ++ py "://" ++ net ++ pth ++ optq).
    rewrite !Forall_app in *. repeat split; try tauto.
    - eapply Forall_impl; [exact Hsch|]. intros x Hx.
      apply lower_scheme_char_safe in Hx. tauto.
    - repeat constructor. }
  assert (Hsplit : split_scheme (assemble (c :: s) net pth qry)
                   = (c :: s, py "//" ++ net ++ pth ++ optq)).
  { unfold split_scheme, assemble. fold optq.
    change ((c :: s) ++ py "://" ++ net ++ pth ++ optq)
      with ((c :: s) ++ 58 :: py "//" ++ net ++ pth ++ optq).
    rewrite break_at_unique.
    - assert (is_ascii_alpha c = true) as ->
        by (unfold is_ascii_alpha; rewrite Hc; reflexivity).
      assert (forallb scheme_char (c :: s) = true) as ->.
      { apply forallb_Forall_true. eapply Forall_impl; [exact Hsch|].
        intros x [Hx _]. exact Hx. }
      simpl andb. cbv iota.
      rewrite (lower_lower_scheme (c :: s) Hsch). reflexivity.
    - eapply Forall_impl; [exact Hsch|]. intros x Hx.
      apply lower_scheme_char_safe in Hx. tauto.
    - intros x [= <-]. reflexivity. }
  assert (Hnetloc : split_netloc (py "//" ++ net ++ pth ++ optq)
                    = (net, pth ++ optq)).
  { change (py "//" ++ net ++ pth ++ optq)
      with (47 :: 47 :: net ++ pth ++ optq).
    unfold split_netloc. cbn [starts_with py List.map list_ascii_of_string].
    change (drop 2 (47 :: 47 :: net ++ pth ++ optq))
      with (net ++ pth ++ optq).
    replace (starts_with (py "//") (47 :: 47 :: net ++ pth ++ optq))
      with true by (symmetry; apply starts_with_spec; eexists; reflexivity).
    apply break_at_unique; [exact Hnet|].
    intros x Hx. destruct pth as [|p0 pth'].
    - simpl in Hx. subst optq. destruct qry; simpl in Hx; [discriminate|].
      inversion Hx; subst. reflexivity.
    - simpl in Hx. inversion Hx; subst. rewrite (Hhead x eq_refl).
      reflexivity. }
  assert (Hfq : split_fragment_query (pth ++ optq) = (pth, qry, [])).
  { unfold split_fragment_query.
    rewrite (break_at_none (is_char 35)).
    2:{ apply Forall_app. split.
        - eapply Forall_impl; [exact Hpth|]. intros ? [? ?]; assumption.
        - subst optq. destruct qry; simpl; [constructor|].
          constructor; [reflexivity|exact Hqry]. }
    subst optq. destruct qry as [|q0 qry]; simpl nonempty; cbv iota.
    - change (py "") with (@nil N). rewrite app_nil_r.
      rewrite (break_at_none (is_char 63)); [reflexivity|].
      eapply Forall_impl; [exact Hpth|]. intros ? [? ?]; assumption.
    - change (py "?" ++ q0 :: qry) with (63 :: q0 :: qry).
      rewrite break_at_unique; [reflexivity| |intros x [= <-]; reflexivity].
      eapply Forall_impl; [exact Hpth|]. intros ? [? ?]; assumption. }
  unfold normalize_url, urlparse, urlsplit.
  rewrite Hclean, Hsplit, Hnetloc, Hfq, Hacc.
  cbn [sr_scheme sr_netloc sr_path sr_query sr_fragment].
  destruct (bool_decide (c :: s ∈ uses_params) && has_char 59 pth) eqn:E.
  - specialize (Hpar eq_refl). destruct (splitparams pth) as [p1 p2].
    simpl in Hpar. subst p1. reflexivity.
  - reflexivity.
Qed.

Lemma split_netloc_spec url net rest :
  split_netloc url = (net, rest) -> net <> [] ->
  url = 47 :: 47 :: net ++ rest
  /\ Forall (fun c => netloc_delim c = false) net
  /\ (forall c, head rest = Some c -> netloc_delim c = true).
Proof.
  unfold split_netloc. intros H Hne.
  destruct (starts_with (py "//") url) eqn:E; [|inversion H; congruence].
  apply starts_with_spec in E as [r ->].
  change (drop 2 (py "//" ++ r)) with r in H.
  apply break_at_app in H as (-> & Hn & Hr). auto.
Qed.

Lemma split_once_spec k url :
  exists u rest,
    (match break_at (is_char k) url with
     | (u, _ :: f) => (u, f)
     | (_, []) => (url, [])
     end) = (u, rest)
    /\ (exists x, url = u ++ x)
    /\ Forall (fun c => is_char k c = false) u
    /\ (forall P : N -> Prop, Forall P url -> Forall P u /\ Forall P rest).
Proof.
  destruct (break_at (is_char k) url) as [u f] eqn:E.
  apply break_at_app in E as (-> & Hu & Hf).
  destruct f as [|c f].
  - exists (u ++ []), []. rewrite app_nil_r. repeat split; eauto.
    exists []. rewrite app_nil_r. reflexivity.
  - exists u, f. repeat split; eauto.
    + rewrite Forall_app in H. tauto.
    + rewrite Forall_app, Forall_cons in H. tauto.
Qed.

Lemma split_fragment_query_spec url p q f :
  split_fragment_query url = (p, q, f) ->
  (exists rest, url = p ++ rest)
  /\ Forall (fun c => is_char 35 c = false /\ is_char 63 c = false) p
  /\ Forall (fun c => is_char 35 c = false) q
  /\ (forall P : N -> Prop, Forall P url -> Forall P p /\ Forall P q).
Proof.
  unfold split_fragment_query.
  destruct (split_once_spec 35 url) as (u1 & f1 & -> & [x1 ->] & H1 & A1).
  destruct (split_once_spec 63 u1) as (u2 & q1 & -> & [x2 ->] & H2 & A2).
  intros [= <- <- <-].
  destruct (A2 _ H1) as [H2' Hq].
  repeat split.
  - exists (x2 ++ x1). rewrite app_assoc. reflexivity.
  - apply Forall_and. auto.
  - exact Hq.
  - apply A2. rewrite Forall_app in H. tauto.
  - apply A2. rewrite Forall_app in H. tauto.
Qed.

(** The parts of what [urlparse] returns for an address with a scheme and
    a network location are those of a normalized address. *)
Lemma urlparse_normal_parts bni nfkc u r :
  urlparse bni nfkc u = inr r ->
  scheme r <> [] -> netloc r <> [] ->
  normal_parts bni nfkc (scheme r) (netloc r) (path r) (query r).
Proof.
  unfold urlparse, urlsplit.
  pose proof (clean_url_safe u) as Hsafe.
  destruct (split_scheme (clean_url u)) as [sch r1] eqn:E1.
  destruct (split_netloc r1) as [net r2] eqn:E2.
  destruct (split_fragment_query r2) as [[p q] f] eqn:E3.
  destruct (netloc_rejected bni nfkc net) eqn:E4; [discriminate|].
  cbn [sr_scheme sr_netloc sr_path sr_query sr_fragment].
  intros H Hsch Hnet.
  assert (Hr : scheme r = sch /\ netloc r = net /\ query r = q
               /\ path r = (if bool_decide (sch ∈ uses_params) && has_char 59 p
                            then (splitparams p).1 else p)).
  { destruct (bool_decide (sch ∈ uses_params) && has_char 59 p);
      [destruct (splitparams p)|]; inversion H; subst; auto. }
  destruct Hr as (Hr1 & Hr2 & Hr3 & Hr4). rewrite Hr1, Hr2, Hr3, Hr4 in *.
  clear H Hr1 Hr2 Hr3 Hr4.
  apply split_scheme_spec in E1
    as [[-> _]|(c & s & -> & Hc & Hlow & pre & Hu)]; [congruence|].
  apply split_netloc_spec in E2 as (-> & Hn & Hr2); [|exact Hnet].
  apply split_fragment_query_spec in E3 as ([rest ->] & Hp & Hq & Hall).
  rewrite Hu in Hsafe. rewrite Forall_app, !Forall_cons, Forall_app in Hsafe.
  destruct Hsafe as (_ & _ & _ & _ & Hsn & Hsr).
  destruct (Hall _ Hsr) as [Hsp Hsq].
  assert (Hhead : forall x, head p = Some x -> x = 47).
  { intros x Hx. destruct p as [|p0 p]; [discriminate|].
    inversion Hx; subst. specialize (Hr2 x eq_refl).
    inversion Hp as [|? ? [Hx1 Hx2] _]; subst. N_bool. }
  destruct (bool_decide (c :: s ∈ uses_params) && has_char 59 p) eqn:Epar.
  - apply andb_true_iff in Epar as [Eu Esemi].
    split; auto.
    + eauto.
    + rewrite !Forall_app. repeat split; auto.
      apply splitparams_Forall; auto.
    + intros x Hx. destruct p as [|p0 p]; [discriminate Esemi|].
      rewrite (Hhead p0 eq_refl) in *.
      destruct (splitparams_slash_head p Esemi) as [r' Hr'].
      rewrite Hr' in Hx. inversion Hx. reflexivity.
    + apply splitparams_Forall; auto.
    + intros H. apply andb_true_iff in H as [_ H].
      rewrite splitparams_idem by exact H. reflexivity.
  - split; auto.
    + eauto.
    + rewrite !Forall_app. repeat split; auto.
    + rewrite Epar. discriminate.
Qed.

Lemma normalize_url_assemble bni nfkc u r :
  urlparse bni nfkc u = inr r ->
  normalize_url bni nfkc u
  = inr (assemble (scheme r) (netloc r) (path r) (query r)).
Proof. unfold normalize_url. intros ->. reflexivity. Qed.

Lemma normalize_url_idem bni nfkc u r v :
  urlparse bni nfkc u = inr r ->
  scheme r <> [] -> netloc r <> [] ->
  normalize_url bni nfkc u = inr v ->
  normalize_url bni nfkc v = inr v.
Proof.
  intros Hr Hs Hn Hv. rewrite (normalize_url_assemble _ _ _ _ Hr) in Hv.
  inversion Hv; subst. apply normalize_normal_parts.
  eapply urlparse_normal_parts; eauto.
Qed.

(** ** A fragment added to a locator *)

Lemma break_at_found d s a k b t :
  break_at d s = (a, k :: b) -> break_at d (s ++ t) = (a, k :: b ++ t).
Proof.
  intros H. apply break_at_app in H as (-> & Ha & Hk).
  rewrite <- app_assoc. apply break_at_unique; auto.
Qed.

Lemma break_at_stop d s a b c t :
  break_at d s = (a, b) -> d c = true ->
  break_at d (s ++ c :: t) = (a, b ++ c :: t).
Proof.
  intros H Hc. destruct b as [|k b].
  - apply break_at_app in H as (-> & Ha & _). rewrite app_nil_r.
    apply break_at_unique; auto. intros x [= <-]. exact Hc.
  - apply (break_at_found _ _ _ _ _ (c :: t)) in H. exact H.
Qed.

Lemma break_at_not_found d s t :
  break_at d s = (s, []) ->
  break_at d (s ++ t) = (s ++ (break_at d t).1, (break_at d t).2).
Proof.
  intros H. apply break_at_app in H as (_ & Hs & _).
  destruct (break_at d t) as [a b] eqn:E.
  apply break_at_app in E as (-> & Ha & Hb). simpl.
  rewrite app_assoc. apply break_at_unique; auto.
  apply Forall_app. auto.
Qed.

Lemma lstrip_app u c f :
  (c <=? 32) = false ->
  lstrip_c0_space (u ++ c :: f) = lstrip_c0_space u ++ c :: f.
Proof.
  intros Hc. induction u as [|x u IH]; simpl.
  - rewrite Hc. reflexivity.
  - destruct (x <=? 32); auto.
Qed.

Lemma clean_url_fragment u f :
  clean_url (u ++ 35 :: f) = clean_url u ++ 35 :: remove_unsafe f.
Proof.
  unfold clean_url. rewrite lstrip_app by reflexivity.
  unfold remove_unsafe. rewrite List.filter_app. reflexivity.
Qed.

Lemma split_scheme_fragment u f :
  split_scheme (u ++ 35 :: f)
  = ((split_scheme u).1, (split_scheme u).2 ++ 35 :: f).
Proof.
  unfold split_scheme.
  destruct (break_at (is_char 58) u) as [a b] eqn:E.
  destruct b as [|k b].
  - (* no colon in u *)
    pose proof (break_at_app _ _ _ _ E) as (Hu & _). rewrite app_nil_r in Hu.
    subst a. rewrite (break_at_not_found _ _ _ E).
    assert (Hnot : forall x s, forallb scheme_char (x :: s) = true ->
                   ~ 35 ∈ x :: s).
    { intros x s H Hin. apply forallb_Forall_true in H.
      rewrite Forall_forall in H. apply H in Hin. discriminate. }
    destruct (u ++ (break_at (is_char 58) (35 :: f)).1) as [|c pre] eqn:Eu.
    + destruct u; reflexivity || (destruct u; discriminate).
    + destruct (break_at (is_char 58) (35 :: f)).2 as [|k2 b2].
      * destruct u; reflexivity.
      * destruct (is_ascii_alpha c && forallb scheme_char (c :: pre)) eqn:C.
        -- exfalso. apply andb_true_iff in C as [_ C].
           apply (Hnot _ _ C). rewrite <- Eu. simpl.
           destruct (break_at (is_char 58) f). simpl. set_solver.
        -- destruct u; reflexivity.
  - rewrite (break_at_found _ _ _ _ _ (35 :: f) E).
    destruct a as [|c pre]; [reflexivity|].
    destruct (is_ascii_alpha c && forallb scheme_char (c :: pre));
      reflexivity.
Qed.

Lemma split_netloc_fragment u f :
  split_netloc (u ++ 35 :: f)
  = ((split_netloc u).1, (split_netloc u).2 ++ 35 :: f).
Proof.
  unfold split_netloc.
  destruct u as [|a [|b r]]; try reflexivity.
  - simpl. rewrite !andb_false_r. reflexivity.
  - change (starts_with (py "//") ((a :: b :: r) ++ 35 :: f))
      with (starts_with (py "//") (a :: b :: r)).
    destruct (starts_with (py "//") (a :: b :: r)); [|reflexivity].
    change (drop 2 ((a :: b :: r) ++ 35 :: f)) with (r ++ 35 :: f).
    change (drop 2 (a :: b :: r)) with r.
    destruct (break_at netloc_delim r) as [n r2] eqn:E.
    apply (break_at_stop _ _ _ _ 35 f) in E; [|reflexivity].
    rewrite E. reflexivity.
Qed.

Lemma split_fragment_query_fragment u f :
  exists f', split_fragment_query (u ++ 35 :: f)
  = ((split_fragment_query u).1.1, (split_fragment_query u).1.2, f').
Proof.
  unfold split_fragment_query.
  destruct (break_at (is_char 35) u) as [a b] eqn:E.
  pose proof (break_at_stop _ _ _ _ 35 f E eq_refl) as E'. rewrite E'.
  apply break_at_app in E as (-> & _ & _).
  destruct b as [|k b]; simpl; rewrite ?app_nil_r.
  - destruct (break_at (is_char 63) a) as [a2 [|k2 b2]]; eauto.
  - destruct (break_at (is_char 63) a) as [a2 [|k2 b2]]; eauto.
Qed.

Lemma normalize_url_fragment bni nfkc u f :
  normalize_url bni nfkc (u ++ 35 :: f) = normalize_url bni nfkc u.
Proof.
  unfold normalize_url, urlparse, urlsplit.
  rewrite clean_url_fragment, split_scheme_fragment.
  destruct (split_scheme (clean_url u)) as [sch r1]. cbn [fst snd].
  rewrite split_netloc_fragment.
  destruct (split_netloc r1) as [net r2]. cbn [fst snd].
  destruct (split_fragment_query_fragment r2 (remove_unsafe f)) as [f' ->].
  destruct (split_fragment_query r2) as [[p q] f0]. cbn [fst snd].
  destruct (netloc_rejected bni nfkc net); [reflexivity|].
  cbn [sr_scheme sr_netloc sr_path sr_query sr_fragment].
  destruct (bool_decide (sch ∈ uses_params) && has_char 59 p);
    [destruct (splitparams p)|]; reflexivity.
Qed.

(** C8, amended: for every locator, with no condition on it, a fragment
    added to it does not change what [normalize_url] returns, whether a
    value or an exception; and for a locator in which [urlparse] finds a
    scheme and a network location, [normalize_url] returns a value, and
    applied to that value it returns it again. *)
Theorem normalize_url_idempotent_absolute
    (bracketed_netloc_invalid nfkc_invalid : list N -> bool)
    (u f : list N) :
  normalize_url bracketed_netloc_invalid nfkc_invalid (u ++ 35 :: f)
  = normalize_url bracketed_netloc_invalid nfkc_invalid u
  /\ forall r : ParseResult,
       urlparse bracketed_netloc_invalid nfkc_invalid u = inr r ->
       scheme r <> [] -> netloc r <> [] ->
       exists v,
         normalize_url bracketed_netloc_invalid nfkc_invalid u = inr v
         /\ normalize_url bracketed_netloc_invalid nfkc_invalid v = inr v
         /\ normalize_twice bracketed_netloc_invalid nfkc_invalid u
            = normalize_url bracketed_netloc_invalid nfkc_invalid u.
Proof.
  split; [apply normalize_url_fragment|].
  intros r Hr Hs Hn.
  destruct (normalize_url bracketed_netloc_invalid nfkc_invalid u)
    as [e|v] eqn:Hv.
  { unfold normalize_url in Hv. rewrite Hr in Hv. discriminate. }
  pose proof (normalize_url_idem _ _ _ _ _ Hr Hs Hn Hv) as Hidem.
  exists v. split; [reflexivity|]. split; [exact Hidem|].
  unfold normalize_twice. rewrite Hv. exact Hidem.
Qed.

(** ** What a normalized address is made of *)

Lemma split_netloc_cases url net rest :
  split_netloc url = (net, rest) ->
  (net = [] /\ rest = url)
  \/ (url = 47 :: 47 :: net ++ rest
      /\ Forall (fun c => netloc_delim c = false) net).
Proof.
  unfold split_netloc.
  destruct (starts_with (py "//") url) eqn:E;
    [|intros [= <- <-]; left; auto].
  apply starts_with_spec in E as [r ->].
  change (drop 2 (py "//" ++ r)) with r. intros H.
  apply break_at_app in H as (-> & Hn & _). right. auto.
Qed.

Lemma urlparse_parts_plain bni nfkc u r :
  urlparse bni nfkc u = inr r ->
  (scheme r = [] \/ Forall lower_scheme_char (scheme r))
  /\ Forall plain (netloc r) /\ Forall plain (path r)
  /\ Forall plain (query r)
  /\ netloc_rejected bni nfkc (netloc r) = false.
Proof.
  unfold urlparse, urlsplit.
  pose proof (clean_url_safe u) as Hsafe.
  destruct (split_scheme (clean_url u)) as [sch r1] eqn:E1.
  destruct (split_netloc r1) as [net r2] eqn:E2.
  destruct (split_fragment_query r2) as [[p q] f] eqn:E3.
  destruct (netloc_rejected bni nfkc net) eqn:E4; [discriminate|].
  cbn [sr_scheme sr_netloc sr_path sr_query sr_fragment].
  intros H.
  assert (Hr : scheme r = sch /\ netloc r = net /\ query r = q
               /\ path r = (if bool_decide (sch ∈ uses_params) && has_char 59 p
                            then (splitparams p).1 else p)).
  { destruct (bool_decide (sch ∈ uses_params) && has_char 59 p);
      [destruct (splitparams p)|]; inversion H; subst; auto. }
  destruct Hr as (Hr1 & Hr2 & Hr3 & Hr4). rewrite Hr1, Hr2, Hr3, Hr4.
  clear H Hr1 Hr2 Hr3 Hr4.
  assert (Hs1 : (sch = [] \/ Forall lower_scheme_char sch)
                /\ Forall (fun c => unsafe c = false) r1).
  { apply split_scheme_spec in E1
      as [[-> ->]|(c & s & -> & Hc & Hlow & pre & Hu)]; [auto|].
    split; [auto|]. rewrite Hu, Forall_app, Forall_cons in Hsafe. tauto. }
  destruct Hs1 as [Hsch Hr1].
  assert (Hs2 : Forall plain net /\ Forall (fun c => unsafe c = false) r2).
  { apply split_netloc_cases in E2 as [[-> ->]|[-> Hn]];
      [split; [constructor|exact Hr1]|].
    rewrite !Forall_cons, Forall_app in Hr1.
    destruct Hr1 as (_ & _ & Hnet & Hr2). split; [|exact Hr2].
    apply Forall_and. split; [|exact Hnet].
    eapply Forall_impl; [exact Hn|]. intros x Hx. N_bool. }
  destruct Hs2 as [Hnet Hr2].
  apply split_fragment_query_spec in E3 as (_ & Hp & Hq & Hall).
  destruct (Hall _ Hr2) as [Hsp Hsq].
  assert (Hpp : Forall plain p).
  { apply Forall_and. split; [|exact Hsp].
    eapply Forall_impl; [exact Hp|]. intros x [Hx _]. exact Hx. }
  split; [exact Hsch|]. split; [exact Hnet|]. split.
  - destruct (bool_decide (sch ∈ uses_params) && has_char 59 p) eqn:Epar;
      [|exact Hpp].
    apply andb_true_iff in Epar as [_ Esemi].
    apply splitparams_Forall; auto.
  - split; [|exact E4]. apply Forall_and. auto.
Qed.

Lemma normalize_url_plain
    (bracketed_netloc_invalid nfkc_invalid : list N -> bool)
    (u v : list N) :
  normalize_url bracketed_netloc_invalid nfkc_invalid u = inr v ->
  (35 ∉ v) /\ (9 ∉ v) /\ (10 ∉ v) /\ (13 ∉ v)
  /\ exists sch rest,
       v = sch ++ py "://" ++ rest /\ Forall lower_scheme_char sch.
Proof.
  unfold normalize_url.
  destruct (urlparse bracketed_netloc_invalid nfkc_invalid u) as [e|r] eqn:E;
    [discriminate|].
  intros [= <-].
  destruct (urlparse_parts_plain _ _ _ _ E) as (Hs & Hn & Hp & Hq & _).
  assert (Hsch : Forall lower_scheme_char (scheme r))
    by (destruct Hs as [->|Hs]; [constructor|exact Hs]).
  assert (Hall : Forall plain
            (scheme r ++ py "://" ++ netloc r ++ path r
             ++ (if nonempty (query r) then py "?" ++ query r else py ""))).
  { rewrite !Forall_app. repeat split; auto.
    - eapply Forall_impl; [exact Hsch|]. intros x Hx.
      split; [|apply lower_scheme_char_safe; exact Hx].
      destruct Hx. N_bool.
    - repeat constructor.
    - destruct (query r); simpl; [constructor|].
      constructor; [split; reflexivity|exact Hq]. }
  rewrite Forall_forall in Hall.
  assert (Hnot : forall k, (k = 35 \/ k = 9 \/ k = 10 \/ k = 13) ->
            k ∉ scheme r ++ py "://" ++ netloc r ++ path r
                ++ (if nonempty (query r) then py "?" ++ query r
                    else py "")).
  { intros k Hk Hin. destruct (Hall k Hin) as [H1 H2].
    unfold is_char, unsafe in *.
    destruct Hk as [-> | [-> | [-> | ->]]]; discriminate. }
  repeat split; try (apply Hnot; tauto).
  exists (scheme r), (netloc r ++ path r
                      ++ (if nonempty (query r) then py "?" ++ query r
                          else py "")).
  split; [reflexivity|exact Hsch].
Qed.

(** X1: what [normalize_url] returns has no fragment left and is free of
    the characters [urlsplit] removes: it holds no [#], tab, carriage
    return or line feed; it is a scheme in lower case, which may be empty,
    then [://] and the rest. *)
Theorem normalize_url_result_plain
    (bracketed_netloc_invalid nfkc_invalid : list N -> bool)
    (u v : list N) :
  normalize_url bracketed_netloc_invalid nfkc_invalid u = inr v ->
  (35 ∉ v) /\ (9 ∉ v) /\ (10 ∉ v) /\ (13 ∉ v)
  /\ exists sch rest,
       v = sch ++ py "://" ++ rest /\ Forall lower_scheme_char sch.
Proof. apply normalize_url_plain. Qed.

Lemma normalize_url_only_value_error bni nfkc u e :
  normalize_url bni nfkc u = inl e -> e = ValueError.
Proof.
  unfold normalize_url, urlparse, urlsplit.
  destruct (split_scheme (clean_url u)) as [sch r1].
  destruct (split_netloc r1) as [net r2].
  destruct (split_fragment_query r2) as [[pth q] f].
  destruct (netloc_rejected bni nfkc net); [congruence|].
  cbn [sr_scheme sr_netloc sr_path sr_query sr_fragment].
  destruct (bool_decide (sch ∈ uses_params) && has_char 59 pth);
    [destruct (splitparams pth)|]; discriminate.
Qed.

Lemma netloc_rejected_nil bni nfkc : netloc_rejected bni nfkc [] = false.
Proof. reflexivity. Qed.

(** X2: [normalize_url] raises nothing but [ValueError], and only for a url
    in which [urlsplit] finds a network location: a url without [//] after
    its scheme is always normalized. *)
Theorem normalize_url_raises_value_error
    (bracketed_netloc_invalid nfkc_invalid : list N -> bool)
    (u : list N) (e : py_exn) :
  normalize_url bracketed_netloc_invalid nfkc_invalid u = inl e ->
  e = ValueError
  /\ starts_with (py "//") (split_scheme (clean_url u)).2 = true
  /\ netloc_rejected bracketed_netloc_invalid nfkc_invalid
       (split_netloc (split_scheme (clean_url u)).2).1 = true.
Proof.
  unfold normalize_url, urlparse, urlsplit.
  destruct (split_scheme (clean_url u)) as [sch r1] eqn:E1. cbn [snd].
  destruct (split_netloc r1) as [net r2] eqn:E2. cbn [fst].
  destruct (split_fragment_query r2) as [[p q] f].
  destruct (netloc_rejected bracketed_netloc_invalid nfkc_invalid net)
    eqn:E4.
  - intros [= <-]. split; [reflexivity|]. split; [|reflexivity].
    revert E2. unfold split_netloc.
    destruct (starts_with (py "//") r1); [reflexivity|].
    intros [= <- _]. rewrite netloc_rejected_nil in E4. discriminate.
  - cbn [sr_scheme sr_netloc sr_path sr_query sr_fragment].
    destruct (bool_decide (sch ∈ uses_params) && has_char 59 p);
      [destruct (splitparams p)|]; discriminate.
Qed.

(** ** The text of a document *)

Lemma lower_app a b : lower (a ++ b) = lower a ++ lower b.
Proof. unfold lower. apply flat_map_app. Qed.

Lemma findall_from_separator c b : forall a run,
  is_az c = false ->
  findall_from run (a ++ c :: b) = findall_from run a ++ findall_from [] b.
Proof.
  induction a as [|x a IH]; intros run Hc; simpl.
  - rewrite Hc. destruct run; reflexivity.
  - destruct (is_az x); [apply IH; exact Hc|].
    destruct run; rewrite IH by exact Hc; reflexivity.
Qed.

Lemma extract_words_separator (a b : list N) (c : N) :
  is_ascii_alpha c = false -> c <> 304 -> c <> 8490 ->
  extract_words (a ++ c :: b) = extract_words a ∪ extract_words b.
Proof.
  intros Hc H1 H2. unfold extract_words.
  rewrite lower_app. change (lower (c :: b)) with (lower_cp c ++ lower b).
  assert (lower_cp c = [c]) as ->.
  { unfold lower_cp.
    assert (is_AZ c = false) as -> by N_bool.
    assert ((c =? 304) = false) as -> by N_bool.
    assert ((c =? 8490) = false) as -> by N_bool. reflexivity. }
  unfold WORD_PATTERN_findall. simpl app.
  rewrite findall_from_separator by N_bool.
  apply list_to_set_app_L.
Qed.

(** X6: [extract_words] splits its text at every character that is not a
    letter in either case: the words of two texts with such a character
    between them are the words of the one and the words of the other. *)
Theorem extract_words_split (a b : list N) (c : N) :
  is_ascii_alpha c = false -> c <> 304 -> c <> 8490 ->
  extract_words (a ++ c :: b) = extract_words a ∪ extract_words b.
Proof. apply extract_words_separator. Qed.

Lemma extract_words_nil : extract_words [] = ∅.
Proof. reflexivity. Qed.

Lemma extract_words_join l :
  extract_words (join (py " ") l) = ⋃ (List.map extract_words l).
Proof.
  induction l as [|x l IH]; [reflexivity|].
  destruct l as [|y l].
  - simpl. rewrite union_empty_r_L. reflexivity.
  - change (join (py " ") (x :: y :: l))
      with (x ++ 32 :: join (py " ") (y :: l)).
    rewrite extract_words_separator by (reflexivity || discriminate).
    rewrite IH. reflexivity.
Qed.

Lemma get_text_tag name attrs contents :
  get_text [Tag name attrs contents] = get_text contents.
Proof. unfold get_text. simpl. rewrite app_nil_r. reflexivity. Qed.

Lemma extract_words_get_text_app s s' :
  extract_words (get_text (s ++ s'))
  = extract_words (get_text s) ∪ extract_words (get_text s').
Proof.
  unfold get_text. rewrite !extract_words_join, flat_map_app, map_app.
  apply union_list_app_L.
Qed.

Lemma extract_words_get_text_str cls x :
  extract_words (get_text [Str cls x])
  = match cls with
    | NavigableString | CData => extract_words x
    | _ => ∅
    end.
Proof.
  destruct cls; unfold get_text; simpl; rewrite ?app_nil_r; reflexivity.
Qed.

(** X7: the words [extract_words] finds in [soup.get_text(separator=' ')]
    are the words of the strings of the tree whose class is
    [NavigableString] or [CData], string by string: no word runs over two
    strings.  The words of two trees side by side are those of the one and
    of the other, a tag gives the text of its contents, and a string of
    another class (a comment, the document type, the text of a template)
    gives no word: the page [page_with_comment] has the words of its
    paragraph and of its anchor only. *)
Theorem get_text_words (s s' : list node) (name : list N)
    (attrs : gmap (list N) (list N)) (cls : string_class) (x : list N) :
  extract_words (get_text s)
  = ⋃ (List.map extract_words
         (List.flat_map
            (all_strings (Some DEFAULT_INTERESTING_STRING_TYPES)) s))
  /\ extract_words (get_text (s ++ s'))
     = extract_words (get_text s) ∪ extract_words (get_text s')
  /\ get_text [Tag name attrs s] = get_text s
  /\ extract_words (get_text [Str cls x])
     = match cls with
       | NavigableString | CData => extract_words x
       | _ => ∅
       end
  /\ get_text page_with_comment = py "visible text base"
  /\ extract_words (get_text page_with_comment)
     = {[ py "visible"; py "text"; py "base" ]}.
Proof.
  split; [unfold get_text; apply extract_words_join|].
  split; [apply extract_words_get_text_app|].
  split; [apply get_text_tag|].
  split; [apply extract_words_get_text_str|].
  split; vm_compute; reflexivity.
Qed.

(** Induction on a tree, with the property for the contents of a tag. *)
Lemma node_nested_ind (P : node -> Prop) :
  (forall cls s, P (Str cls s)) ->
  (forall name attrs contents,
     Forall P contents -> P (Tag name attrs contents)) ->
  forall n, P n.
Proof.
  intros Hs Ht. fix IH 1. intros [cls s|name attrs contents].
  - apply Hs.
  - apply Ht. induction contents as [|x l IHl]; constructor.
    + apply IH.
    + exact IHl.
Qed.

Lemma flat_map_Forall_nil {A B} (f : A -> list B) (g : B -> list B) l :
  Forall (fun x => List.flat_map g (f x) = f x) l ->
  List.flat_map g (List.flat_map f l) = List.flat_map f l.
Proof.
  induction 1 as [|x l Hx Hl IH]; simpl; [reflexivity|].
  rewrite flat_map_app, Hx, IH. reflexivity.
Qed.

Lemma extract_tags_idem n :
  List.flat_map extract_tags (extract_tags n) = extract_tags n.
Proof.
  induction n as [cls s|name attrs contents IH] using node_nested_ind;
    [reflexivity|].
  simpl. destruct (bool_decide (name ∈ removed_tags)) eqn:E;
    [reflexivity|].
  simpl. rewrite E. rewrite app_nil_r.
  rewrite (flat_map_Forall_nil extract_tags extract_tags contents IH).
  reflexivity.
Qed.

Lemma extract_tags_names n :
  Forall (fun name => name ∉ removed_tags)
    (List.flat_map tag_names (extract_tags n)).
Proof.
  induction n as [cls s|name attrs contents IH] using node_nested_ind;
    [constructor|].
  simpl. destruct (bool_decide (name ∈ removed_tags)) eqn:E;
    [constructor|].
  apply bool_decide_eq_false in E. simpl. rewrite app_nil_r.
  constructor; [exact E|].
  induction IH as [|x l Hx Hl IHl]; simpl; [constructor|].
  rewrite flat_map_app. apply Forall_app. auto.
Qed.

Lemma extract_tags_keeps n :
  (forall types s,
     s ∈ List.flat_map (all_strings types) (extract_tags n) ->
     s ∈ all_strings types n)
  /\ (forall h, h ∈ List.flat_map anchor_hrefs (extract_tags n) ->
      h ∈ anchor_hrefs n).
Proof.
  induction n as [cls s|name attrs contents IH] using node_nested_ind.
  - simpl. split; [intros types x|intros x]; rewrite ?app_nil_r; auto.
  - simpl. destruct (bool_decide (name ∈ removed_tags)) eqn:E.
    + simpl. split; [intros types x Hx|intros x Hx];
        apply elem_of_nil in Hx; destruct Hx.
    + simpl. rewrite !app_nil_r.
      assert (Hs : forall types x,
                x ∈ List.flat_map (all_strings types)
                      (List.flat_map extract_tags contents) ->
                x ∈ List.flat_map (all_strings types) contents).
      { clear E. induction IH as [|y l [Hy _] Hl IHl]; simpl;
          [auto|].
        intros types x. rewrite flat_map_app, !elem_of_app.
        intros [Hx|Hx]; eauto. }
      assert (Ha : forall x,
                x ∈ List.flat_map anchor_hrefs
                      (List.flat_map extract_tags contents) ->
                x ∈ List.flat_map anchor_hrefs contents).
      { clear E Hs. induction IH as [|y l [_ Hy] Hl IHl]; simpl;
          [auto|].
        intros x. rewrite flat_map_app, !elem_of_app.
        intros [Hx|Hx]; auto. }
      split; [intros types x; rewrite app_nil_r; apply Hs|].
      intros x. rewrite !elem_of_app. intros [Hx|Hx]; auto.
Qed.

Lemma extract_tags_unchanged n :
  Forall (fun name => name ∉ removed_tags) (tag_names n) ->
  extract_tags n = [n].
Proof.
  induction n as [cls s|name attrs contents IH] using node_nested_ind;
    [reflexivity|].
  simpl. rewrite Forall_cons. intros [Hname Hrest].
  rewrite bool_decide_eq_false_2 by exact Hname.
  do 2 f_equal.
  induction IH as [|x l Hx Hl IHl]; simpl in *; [reflexivity|].
  rewrite Forall_app in Hrest. destruct Hrest as [H1 H2].
  rewrite (Hx H1), (IHl H2). reflexivity.
Qed.

(** X5: taking the script, style, nav, footer and header tags out of a
    tree leaves none of them, at any depth; what is left are strings and
    anchors of the tree, for the strings of every choice of classes; doing
    it again changes nothing, and a tree with none of these tags is left as
    it is. *)
Theorem extract_tags_removes (n : node) :
  Forall (fun name => name ∉ removed_tags)
    (List.flat_map tag_names (extract_tags n))
  /\ (forall types s,
        s ∈ List.flat_map (all_strings types) (extract_tags n) ->
        s ∈ all_strings types n)
  /\ (forall h, h ∈ List.flat_map anchor_hrefs (extract_tags n) ->
      h ∈ anchor_hrefs n)
  /\ List.flat_map extract_tags (extract_tags n) = extract_tags n
  /\ (Forall (fun name => name ∉ removed_tags) (tag_names n) ->
      extract_tags n = [n]).
Proof.
  split; [apply extract_tags_names|].
  split; [apply extract_tags_keeps|].
  split; [apply extract_tags_keeps|].
  split; [apply extract_tags_idem|apply extract_tags_unchanged].
Qed.

(** ** The crawl *)

Section CrawlProofs.

Variable bracketed_netloc_invalid : list N -> bool.
Variable nfkc_invalid : list N -> bool.
Variable urljoin : list N -> list N -> py_exn + list N.
Variable set_iter : gset (list N) -> list (list N).
Variable net : nat -> list N -> net_reply.
Variables max_depth max_pages workers : Z.

Local Open Scope Z_scope.

Local Abbreviation normalize :=
  (normalize_url bracketed_netloc_invalid nfkc_invalid).
Local Abbreviation enqueue_link := (enqueue_link max_pages).
Local Abbreviation merge_result := (merge_result set_iter max_pages).
Local Abbreviation fill_batch := (fill_batch max_depth workers).
Local Abbreviation crawl_url_try :=
  (crawl_url_try bracketed_netloc_invalid nfkc_invalid urljoin).
Local Abbreviation crawl_url :=
  (crawl_url bracketed_netloc_invalid nfkc_invalid urljoin).
Local Abbreviation gather :=
  (gather bracketed_netloc_invalid nfkc_invalid urljoin net).
Local Abbreviation crawl_iteration :=
  (crawl_iteration bracketed_netloc_invalid nfkc_invalid urljoin set_iter
     net max_depth max_pages workers).
Local Abbreviation crawl_loop :=
  (crawl_loop bracketed_netloc_invalid nfkc_invalid urljoin set_iter net
     max_depth max_pages workers).
Local Abbreviation state_after :=
  (state_after bracketed_netloc_invalid nfkc_invalid urljoin set_iter net
     max_depth max_pages workers).
Local Abbreviation crawl_fuel := (crawl_fuel max_pages).
Local Abbreviation crawl_run :=
  (crawl_run bracketed_netloc_invalid nfkc_invalid urljoin set_iter net
     max_depth max_pages workers).
Local Abbreviation crawl_async :=
  (crawl_async bracketed_netloc_invalid nfkc_invalid urljoin set_iter net
     max_depth max_pages workers).
Local Abbreviation depth_ok := (depth_ok max_depth).
Local Abbreviation frontier_inv := (frontier_inv max_depth max_pages).
Local Abbreviation accounting_inv :=
  (accounting_inv bracketed_netloc_invalid nfkc_invalid urljoin net).

(** *** The frontier *)

Lemma enqueue_link_frontier s link :
  frontier_inv s -> frontier_inv (enqueue_link s link).
Proof.
  intros [H0 (p & Hp & Hr & Hd) Hn Hv Hb]. unfold enqueue_link.
  destruct (bool_decide (link ∉ visited s)) eqn:Hin; simpl;
    [|split; eauto].
  destruct (Z.of_nat (size (visited s)) <? max_pages) eqn:Hlt; simpl;
    [|split; eauto].
  apply bool_decide_eq_true in Hin. apply Z.ltb_lt in Hlt.
  split; simpl.
  - apply Forall_app. split; [exact H0|]. repeat constructor.
  - exists p. rewrite Hp, <- app_assoc. auto.
  - rewrite map_app. simpl. apply NoDup_app. split; [exact Hn|].
    split; [|apply NoDup_singleton].
    intros x Hx. rewrite list_elem_of_singleton. intros ->.
    apply Hin. rewrite Hv. apply elem_of_list_to_set. exact Hx.
  - rewrite map_app, list_to_set_app_L. simpl. rewrite Hv.
    rewrite union_empty_r_L. apply union_comm_L.
  - rewrite size_union by (apply disjoint_singleton_l; exact Hin).
    rewrite size_singleton. lia.
Qed.

Lemma enqueue_links_frontier links s :
  frontier_inv s -> frontier_inv (fold_left enqueue_link links s).
Proof.
  revert s. induction links as [|l links IH]; intros s Hs; simpl; auto.
  apply IH. apply enqueue_link_frontier. exact Hs.
Qed.

Lemma merge_result_frontier s r :
  frontier_inv s -> frontier_inv (merge_result s r).
Proof.
  intros Hs. destruct r as [e|[[u w] l]]; simpl.
  - destruct Hs. split; auto.
  - apply enqueue_links_frontier. destruct Hs. split; auto.
Qed.

Lemma merge_results_frontier rs s :
  frontier_inv s -> frontier_inv (fold_left merge_result rs s).
Proof.
  revert s. induction rs as [|r rs IH]; intros s Hs; simpl; auto.
  apply IH. apply merge_result_frontier. exact Hs.
Qed.

(** What the inner loop does to the queue, the batch and the history. *)
Lemma fill_batch_spec q : forall b h b' q' h',
  fill_batch q b h = (b', q', h') ->
  exists popped,
    q = popped ++ q'
    /\ b' = b ++ List.filter depth_ok popped
    /\ enqueued h' = enqueued h
    /\ returned h' = returned h ++ List.filter depth_ok popped
    /\ discarded h'
       = discarded h ++ List.filter (fun e => negb (depth_ok e)) popped
    /\ results h' = results h
    /\ Z.of_nat (length b') <= Z.max (Z.of_nat (length b)) (workers * 2)
    /\ (q' <> [] -> workers * 2 <= Z.of_nat (length b'))
    /\ (q <> [] -> Z.of_nat (length b) < workers * 2 -> popped <> []).
Proof.
  induction q as [|[url depth] q IH]; intros b h b' q' h' H; simpl in H.
  - inversion H; subst. exists []. simpl. rewrite !app_nil_r.
    repeat split; auto; try lia; congruence.
  - destruct (Z.of_nat (length b) <? workers * 2) eqn:Hfull.
    + apply Z.ltb_lt in Hfull.
      destruct (depth >? max_depth) eqn:Hd.
      * assert (Hok : depth_ok (url, depth) = false)
          by (unfold depth_ok; simpl; rewrite Hd; reflexivity).
        apply IH in H as (p & -> & -> & He & Hr & Hdi & Hre & Hlen & Hq' & _).
        exists ((url, depth) :: p). simpl. rewrite Hok. simpl in *.
        rewrite Hdi, <- app_assoc. simpl.
        repeat split; auto; intros; discriminate.
      * assert (Hok : depth_ok (url, depth) = true)
          by (unfold depth_ok; simpl; rewrite Hd; reflexivity).
        apply IH in H as (p & -> & -> & He & Hr & Hdi & Hre & Hlen & Hq' & _).
        exists ((url, depth) :: p). simpl. rewrite Hok. simpl in *.
        rewrite Hr, <- !app_assoc. simpl.
        repeat split; auto; try (intros; discriminate).
        all: rewrite ?length_app in *; simpl in *; try lia.
        intros Hne. specialize (Hq' Hne). rewrite ?length_app in *.
        simpl in *. lia.
    + apply Z.ltb_ge in Hfull. inversion H; subst.
      exists []. simpl. rewrite !app_nil_r.
      repeat split; auto; try lia.
Qed.

Lemma initial_frontier seed : frontier_inv (initial_state seed).
Proof.
  split; cbn [initial_state visited queue hist enqueued returned discarded].
  - repeat constructor.
  - exists []. auto.
  - apply NoDup_singleton.
  - simpl. rewrite union_empty_r_L. reflexivity.
  - rewrite size_singleton. lia.
Qed.

Lemma crawl_iteration_frontier s :
  frontier_inv s ->
  match crawl_iteration s with
  | Next s' | Exit s' => frontier_inv s'
  end.
Proof.
  intros Hs. unfold crawl_iteration.
  destruct (nonempty_queue (queue s) && (pages_crawled s <? max_pages));
    [|exact Hs].
  destruct (fill_batch (queue s) [] (hist s)) as [[b q'] h'] eqn:Hfb.
  apply fill_batch_spec in Hfb
    as (p & Hq & Hb & He & Hr & Hd & _).
  assert (Hs1 : frontier_inv
    {| visited := visited s; queue := q'; all_words := all_words s;
       pages_crawled := pages_crawled s; fetches := fetches s;
       hist := h' |}).
  { destruct Hs as [H0 (p0 & Hp0 & Hr0 & Hd0) Hn Hv Hbu].
    split; simpl; rewrite ?He; auto.
    exists (p0 ++ p). rewrite Hp0, Hq, <- app_assoc.
    rewrite !List.filter_app, Hr, Hd, Hr0, Hd0. auto. }
  destruct b as [|e b]; [exact Hs1|].
  apply merge_results_frontier.
  destruct Hs1 as [H0 Hf Hn Hv Hbu]. split; auto.
Qed.

Lemma state_after_frontier n : forall s,
  frontier_inv s -> frontier_inv (state_after n s).
Proof.
  induction n as [|n IH]; intros s Hs; simpl; [exact Hs|].
  pose proof (crawl_iteration_frontier s Hs) as H.
  destruct (crawl_iteration s); auto.
Qed.

Lemma crawl_loop_frontier fuel : forall s s',
  frontier_inv s -> crawl_loop fuel s = Some s' -> frontier_inv s'.
Proof.
  induction fuel as [|fuel IH]; intros s s' Hs H; simpl in H;
    pose proof (crawl_iteration_frontier s Hs) as Hi;
    destruct (crawl_iteration s); try discriminate.
  - congruence.
  - eauto.
  - congruence.
Qed.

(** *** Termination *)

Lemma enqueue_link_fuel s link :
  crawl_fuel (enqueue_link s link) = crawl_fuel s.
Proof.
  unfold enqueue_link, crawl_fuel.
  destruct (bool_decide (link ∉ visited s)) eqn:Hin; simpl; auto.
  destruct (Z.of_nat (size (visited s)) <? max_pages) eqn:Hlt; simpl; auto.
  apply bool_decide_eq_true in Hin. apply Z.ltb_lt in Hlt.
  rewrite size_union by set_solver. rewrite size_singleton.
  rewrite length_app. simpl. lia.
Qed.

Lemma merge_result_fuel s r :
  crawl_fuel (merge_result s r) = crawl_fuel s.
Proof.
  destruct r as [e|[[u w] l]]; simpl; [reflexivity|].
  generalize (set_iter l). intros links.
  match goal with |- crawl_fuel (fold_left _ _ ?s1) = _ =>
    change (crawl_fuel s) with (crawl_fuel s1); generalize s1 end.
  induction links as [|x links IH]; intros s1; simpl; auto.
  rewrite IH. apply enqueue_link_fuel.
Qed.

Lemma merge_results_fuel rs : forall s,
  crawl_fuel (fold_left merge_result rs s) = crawl_fuel s.
Proof.
  induction rs as [|r rs IH]; intros s; simpl; auto.
  rewrite IH. apply merge_result_fuel.
Qed.

Lemma crawl_iteration_fuel s s' :
  crawl_iteration s = Next s' -> (crawl_fuel s' < crawl_fuel s)%nat.
Proof.
  unfold crawl_iteration.
  destruct (nonempty_queue (queue s) && (pages_crawled s <? max_pages));
    [|discriminate].
  destruct (fill_batch (queue s) [] (hist s)) as [[b q'] h'] eqn:Hfb.
  apply fill_batch_spec in Hfb as (p & Hq & Hb & _).
  destruct b as [|e b]; [discriminate|]. intros [= <-].
  rewrite merge_results_fuel. unfold crawl_fuel. simpl.
  rewrite Hq, length_app.
  destruct p as [|e0 p]; [discriminate|]. simpl. lia.
Qed.

Lemma crawl_loop_total fuel : forall s,
  (crawl_fuel s <= fuel)%nat -> exists s', crawl_loop fuel s = Some s'.
Proof.
  induction fuel as [|fuel IH]; intros s Hf; simpl;
    destruct (crawl_iteration s) as [s1|s1] eqn:Hi; eauto;
    apply crawl_iteration_fuel in Hi.
  - lia.
  - apply IH. lia.
Qed.

(** The loop and [state_after] agree. *)
Lemma crawl_loop_state_after fuel : forall s s',
  crawl_loop fuel s = Some s' -> state_after (S fuel) s = s'.
Proof.
  induction fuel as [|fuel IH]; intros s s' H; simpl in *;
    destruct (crawl_iteration s) as [s1|s1] eqn:Hi;
    try discriminate; try congruence.
  apply IH in H. simpl in H. exact H.
Qed.

(** *** Accounting *)

Lemma enqueue_link_same s link :
  pages_crawled (enqueue_link s link) = pages_crawled s
  /\ all_words (enqueue_link s link) = all_words s
  /\ fetches (enqueue_link s link) = fetches s
  /\ results (hist (enqueue_link s link)) = results (hist s)
  /\ returned (hist (enqueue_link s link)) = returned (hist s).
Proof.
  unfold enqueue_link.
  destruct (bool_decide (link ∉ visited s)
            && (Z.of_nat (size (visited s)) <? max_pages));
    simpl; auto.
Qed.

Lemma enqueue_links_same links : forall s,
  pages_crawled (fold_left enqueue_link links s) = pages_crawled s
  /\ all_words (fold_left enqueue_link links s) = all_words s
  /\ fetches (fold_left enqueue_link links s) = fetches s
  /\ results (hist (fold_left enqueue_link links s)) = results (hist s)
  /\ returned (hist (fold_left enqueue_link links s)) = returned (hist s).
Proof.
  induction links as [|l links IH]; intros s; simpl; auto.
  destruct (IH (enqueue_link s l)) as (-> & -> & -> & -> & ->).
  apply enqueue_link_same.
Qed.

Lemma merge_result_account s r :
  pages_crawled (merge_result s r)
    = pages_crawled s + (if is_tuple r then 1 else 0)
  /\ all_words (merge_result s r) = all_words s ∪ result_words r
  /\ fetches (merge_result s r) = fetches s
  /\ results (hist (merge_result s r)) = results (hist s) ++ [r]
  /\ returned (hist (merge_result s r)) = returned (hist s).
Proof.
  destruct r as [e|[[u w] l]]; simpl.
  - rewrite union_empty_r_L. repeat split; auto. lia.
  - match goal with |- context [fold_left _ ?ls ?s1] =>
      destruct (enqueue_links_same ls s1) as (-> & -> & -> & -> & ->) end.
    simpl. auto.
Qed.

Lemma merge_results_account rs : forall s,
  pages_crawled (fold_left merge_result rs s)
    = pages_crawled s + Z.of_nat (count_tuples rs)
  /\ all_words (fold_left merge_result rs s)
      = all_words s ∪ ⋃ (List.map result_words rs)
  /\ fetches (fold_left merge_result rs s) = fetches s
  /\ results (hist (fold_left merge_result rs s)) = results (hist s) ++ rs
  /\ returned (hist (fold_left merge_result rs s)) = returned (hist s).
Proof.
  induction rs as [|r rs IH]; intros s.
  - simpl. rewrite union_empty_r_L, app_nil_r. repeat split; auto.
    unfold count_tuples. simpl. lia.
  - cbn [fold_left].
    destruct (IH (merge_result s r)) as (-> & -> & -> & -> & ->).
    destruct (merge_result_account s r) as (-> & -> & -> & -> & ->).
    rewrite <- app_assoc. cbn [List.map].
    change (⋃ (result_words r :: List.map result_words rs))
      with (result_words r ∪ ⋃ (List.map result_words rs)).
    rewrite (assoc_L (∪)). repeat split; auto.
    unfold count_tuples. cbn [List.filter].
    destruct (is_tuple r); cbn [length]; lia.
Qed.

Lemma gather_app k a b :
  gather k (a ++ b) = gather k a ++ gather (k + length a) b.
Proof.
  revert k. induction a as [|[u d] a IH]; intros k; simpl.
  - rewrite Nat.add_0_r. reflexivity.
  - rewrite IH. replace (S k + length a)%nat with (k + S (length a))%nat by lia.
    reflexivity.
Qed.

Lemma count_tuples_app a b :
  count_tuples (a ++ b) = (count_tuples a + count_tuples b)%nat.
Proof. unfold count_tuples. rewrite List.filter_app, length_app. reflexivity. Qed.

Lemma initial_accounting seed : accounting_inv (initial_state seed).
Proof. split; reflexivity. Qed.

Lemma crawl_iteration_accounting s :
  accounting_inv s ->
  match crawl_iteration s with
  | Next s' | Exit s' => accounting_inv s'
  end.
Proof.
  intros [Hf Hr Hp Hw]. unfold crawl_iteration.
  destruct (nonempty_queue (queue s) && (pages_crawled s <? max_pages));
    [|split; auto].
  destruct (fill_batch (queue s) [] (hist s)) as [[b q'] h'] eqn:Hfb.
  apply fill_batch_spec in Hfb
    as (p & Hq & Hb & He & Hret & Hd & Hres & _).
  change ([] ++ List.filter depth_ok p) with (List.filter depth_ok p) in Hb.
  rewrite <- Hb in Hret.
  destruct b as [|e b].
  - rewrite app_nil_r in Hret.
    split; cbn [fetches hist pages_crawled all_words];
      rewrite ?Hret, ?Hres; auto.
  - match goal with |- accounting_inv (fold_left _ ?rs ?s2) =>
      destruct (merge_results_account rs s2) as (H1 & H2 & H3 & H4 & H5)
    end.
    cbn [visited queue all_words pages_crawled fetches hist] in *.
    split.
    + rewrite H3, H5, Hret, length_app, Hf. reflexivity.
    + rewrite H4, H5, Hret, Hres, gather_app, Hr, Hf. reflexivity.
    + rewrite H1, H4, Hres, count_tuples_app, Hp. lia.
    + rewrite H2, H4, Hres, map_app, union_list_app_L, Hw. reflexivity.
Qed.

(** *** Along a crawl *)

Lemma state_after_accounting n : forall s,
  accounting_inv s -> accounting_inv (state_after n s).
Proof.
  induction n as [|n IH]; intros s Hs; simpl; [exact Hs|].
  pose proof (crawl_iteration_accounting s Hs) as H.
  destruct (crawl_iteration s); auto.
Qed.

Lemma crawl_run_cases start_url :
  (exists e, crawl_run start_url = Some (inl e))
  \/ (exists seed,
        normalize start_url = inr seed /\ 0 <= workers
        /\ crawl_run start_url
           = Some (inr (state_after (S (crawl_fuel (initial_state seed)))
                          (initial_state seed)))).
Proof.
  unfold crawl_run.
  destruct (normalize start_url) as [e|seed]; [left; eauto|].
  destruct (workers <? 0) eqn:Hw; [left; eauto|].
  apply Z.ltb_ge in Hw. right. exists seed.
  destruct (crawl_loop_total (crawl_fuel (initial_state seed))
              (initial_state seed)) as [s Hs]; [lia|].
  rewrite Hs. apply crawl_loop_state_after in Hs. rewrite Hs. auto.
Qed.

Lemma crawl_run_state start_url s :
  crawl_run start_url = Some (inr s) ->
  exists seed n, s = state_after n (initial_state seed).
Proof.
  intros H. destruct (crawl_run_cases start_url)
    as [[e He]|(seed & _ & _ & Hs)]; [congruence|].
  rewrite Hs in H. exists seed, (S (crawl_fuel (initial_state seed))).
  congruence.
Qed.

Lemma gather_length k b : length (gather k b) = length b.
Proof.
  revert k. induction b as [|[u d] b IH]; intros k; simpl; auto.
Qed.

Lemma filter_length_le {A} (f : A -> bool) l :
  (length (List.filter f l) <= length l)%nat.
Proof.
  induction l as [|x l IH]; simpl; [lia|].
  destruct (f x); simpl; lia.
Qed.

(** The pages counted are at most the addresses of the Visited Set. *)
Lemma pages_le_visited s :
  frontier_inv s -> accounting_inv s ->
  0 <= pages_crawled s <= Z.of_nat (size (visited s)).
Proof.
  intros [_ (p & Hp & Hr & _) Hn Hv _] [_ Hres Hpg _].
  rewrite Hpg, Hv, size_list_to_set by exact Hn.
  rewrite length_map. unfold count_tuples.
  pose proof (filter_length_le is_tuple (results (hist s))) as H1.
  pose proof (f_equal (@length _) Hres) as H2.
  rewrite gather_length, Hr in H2.
  pose proof (filter_length_le depth_ok p) as H3.
  rewrite Hp, length_app. lia.
Qed.

(** *** One fetch *)

Lemma crawl_url_caught url reply e :
  crawl_url_try url reply = inl e -> is_Exception e = true ->
  crawl_url url reply = inr (url, ∅, ∅).
Proof. unfold crawl_url. intros -> ->. reflexivity. Qed.

Lemma crawl_url_try_status url status ct doc :
  is_success status = false ->
  crawl_url_try url (Response status ct doc) = inl HTTPStatusError.
Proof. unfold crawl_url_try. intros ->. reflexivity. Qed.

Lemma crawl_url_try_not_html url status ct doc :
  is_success status = true ->
  contains (py "text/html") (default [] ct) = false ->
  crawl_url_try url (Response status ct doc) = inr (url, ∅, ∅).
Proof. unfold crawl_url_try. intros -> ->. reflexivity. Qed.

Lemma crawl_url_try_parse url status ct e :
  crawl_url_try url (Response status ct (inl e)) = inl HTTPStatusError
  \/ crawl_url_try url (Response status ct (inl e)) = inr (url, ∅, ∅)
  \/ crawl_url_try url (Response status ct (inl e)) = inl e.
Proof.
  unfold crawl_url_try.
  destruct (is_success status); simpl; auto.
  destruct (contains (py "text/html") (default [] ct)); simpl; auto.
Qed.

Lemma crawl_url_shape url reply :
  (exists e, crawl_url url reply = inl e
             /\ crawl_url_try url reply = inl e /\ is_Exception e = false)
  \/ (exists words links, crawl_url url reply = inr (url, words, links)).
Proof.
  unfold crawl_url.
  destruct (crawl_url_try url reply) as [e|[[u w] l]] eqn:E.
  - destruct (is_Exception e) eqn:He; [right|left]; eauto.
  - right. exists w, l. revert E. unfold crawl_url_try.
    destruct reply as [e|status ct doc]; [discriminate|].
    destruct (is_success status); [|discriminate]. simpl.
    destruct (contains (py "text/html") (default [] ct)); simpl;
      [|congruence].
    destruct doc as [e|d]; [discriminate|].
    destruct (extract_links _ _ _ _ _); [discriminate|]. congruence.
Qed.

Lemma crawl_url_words url reply w :
  w ∈ result_words (crawl_url url reply) -> word_token w.
Proof.
  unfold crawl_url.
  destruct (crawl_url_try url reply) as [e|[[u ws] l]] eqn:E.
  - destruct (is_Exception e); simpl; set_solver.
  - simpl. revert E. unfold crawl_url_try.
    destruct reply as [e|status ct doc]; [discriminate|].
    destruct (is_success status); [|discriminate]. simpl.
    destruct (contains (py "text/html") (default [] ct)); simpl.
    + destruct doc as [e|d]; [discriminate|].
      destruct (extract_links _ _ _ _ _); [discriminate|].
      intros [= <- <- <-]. apply extract_words_tokens.
    + intros [= <- <- <-]. set_solver.
Qed.

Lemma gather_words b : forall k r w,
  r ∈ gather k b -> w ∈ result_words r -> word_token w.
Proof.
  induction b as [|[u d] b IH]; intros k r w; simpl.
  - rewrite elem_of_nil. tauto.
  - rewrite elem_of_cons. intros [->|Hr]; eauto using crawl_url_words.
Qed.

Lemma corpus_tokens s w :
  accounting_inv s -> w ∈ all_words s -> word_token w.
Proof.
  intros [_ Hres _ Hw]. rewrite Hw, elem_of_union_list.
  intros (X & HX & HwX). apply list_elem_of_In, in_map_iff in HX
    as (r & <- & Hr). apply list_elem_of_In in Hr. rewrite Hres in Hr.
  eauto using gather_words.
Qed.

(** *** The properties of the crawl *)

Lemma state_after_invs seed n :
  frontier_inv (state_after n (initial_state seed))
  /\ accounting_inv (state_after n (initial_state seed)).
Proof.
  split.
  - apply state_after_frontier, initial_frontier.
  - apply state_after_accounting, initial_accounting.
Qed.

Lemma enqueue_link_cases s link :
  (enqueue_link s link = s
   /\ ((link ∈ visited s) \/ (max_pages <= Z.of_nat (size (visited s)))))
  \/ ((link ∉ visited s) /\ Z.of_nat (size (visited s)) < max_pages
      /\ visited (enqueue_link s link) = {[link]} ∪ visited s
      /\ queue (enqueue_link s link) = queue s ++ [(link, 0)]).
Proof.
  unfold enqueue_link.
  destruct (bool_decide (link ∉ visited s)) eqn:Hin; simpl.
  - apply bool_decide_eq_true in Hin.
    destruct (Z.of_nat (size (visited s)) <? max_pages) eqn:Hlt.
    + apply Z.ltb_lt in Hlt. right. auto.
    + apply Z.ltb_ge in Hlt. left. auto.
  - apply bool_decide_eq_false in Hin. left. split; [reflexivity|].
    left. destruct (decide (link ∈ visited s)); tauto.
Qed.

(** C1, amended: with a page budget of at least 1, the Visited Set holds
    at most as many addresses as the budget each time the test of the
    loop is reached, a link leaves it within the budget, and
    [crawl_async] returns, with a pages-crawled count between 0 and the
    budget when it returns one. *)
Theorem crawl_budget_respected (start_url : list N) :
  1 <= max_pages ->
  (forall seed n,
     Z.of_nat (size (visited (state_after n (initial_state seed))))
     <= max_pages)
  /\ (forall s link,
        Z.of_nat (size (visited s)) <= max_pages ->
        Z.of_nat (size (visited (enqueue_link s link))) <= max_pages)
  /\ exists r, crawl_async start_url = Some r
       /\ forall pages words,
            r = inr (pages, words) -> 0 <= pages <= max_pages.
Proof.
  intros Hbudget. split; [|split].
  - intros seed n. destruct (state_after_invs seed n) as [[_ _ _ _ Hb] _].
    lia.
  - intros s link Hs.
    destruct (enqueue_link_cases s link)
      as [[-> _]|(Hin & Hlt & -> & _)]; [exact Hs|].
    rewrite size_union by (apply disjoint_singleton_l; exact Hin).
    rewrite size_singleton. lia.
  - unfold crawl_async.
    destruct (crawl_run_cases start_url)
      as [[e ->]|(seed & _ & _ & ->)].
    + eexists. split; [reflexivity|]. discriminate.
    + destruct (state_after_invs seed
                  (S (crawl_fuel (initial_state seed)))) as [Hf Ha].
      pose proof (pages_le_visited _ Hf Ha) as Hle.
      destruct Hf as [_ _ _ _ Hb].
      remember (state_after (S (crawl_fuel (initial_state seed)))
                  (initial_state seed)) as sf.
      eexists. split; [reflexivity|]. intros pages words [= <- _]. lia.
Qed.

(** C2, amended: a page is counted for each result that is a tuple, and
    for no other result; there is one result for each entry of the
    batches, and the corpus is the union of the words of the results.  A
    fetch that fails (a transport error, a status that is not 2xx) gives
    the tuple with no words and no links: it is counted as a page, and
    adds no word to the corpus and no entry to the frontier.  An
    exception object among the results is not counted. *)
Theorem pages_crawled_counts_tuples (start_url : list N)
    (s : crawl_state) :
  (forall X, set_iter X ≡ₚ elements X) ->
  crawl_run start_url = Some (inr s) ->
  pages_crawled s = Z.of_nat (count_tuples (results (hist s)))
  /\ results (hist s) = gather O (returned (hist s))
  /\ all_words s = ⋃ (List.map result_words (results (hist s)))
  /\ (forall url reply,
        fetch_succeeded reply = false ->
        (forall e, reply = GetRaises e -> is_Exception e = true) ->
        crawl_url url reply = inr (url, ∅, ∅))
  /\ (forall s0 url,
        pages_crawled (merge_result s0 (inr (url, ∅, ∅)))
          = pages_crawled s0 + 1
        /\ all_words (merge_result s0 (inr (url, ∅, ∅))) = all_words s0
        /\ visited (merge_result s0 (inr (url, ∅, ∅))) = visited s0
        /\ queue (merge_result s0 (inr (url, ∅, ∅))) = queue s0)
  /\ (forall s0 e,
        pages_crawled (merge_result s0 (inl e)) = pages_crawled s0
        /\ all_words (merge_result s0 (inl e)) = all_words s0
        /\ visited (merge_result s0 (inl e)) = visited s0
        /\ queue (merge_result s0 (inl e)) = queue s0).
Proof.
  intros Hiter Hrun.
  destruct (crawl_run_state _ _ Hrun) as (seed & n & ->).
  destruct (state_after_invs seed n) as [_ [_ Hres Hpg Hw]].
  assert (Hnil : set_iter ∅ = []).
  { apply Permutation_nil_r. rewrite Hiter, elements_empty. reflexivity. }
  split; [exact Hpg|]. split; [exact Hres|]. split; [exact Hw|].
  split; [|split].
  - intros url reply Hfail Hexn.
    destruct reply as [e|status ct doc]; simpl in Hfail.
    + apply (crawl_url_caught _ _ e); [reflexivity|].
      apply Hexn. reflexivity.
    + apply (crawl_url_caught _ _ HTTPStatusError); [|reflexivity].
      apply crawl_url_try_status. exact Hfail.
  - intros s0 url. simpl. rewrite Hnil. simpl.
    rewrite union_empty_r_L. auto.
  - intros s0 e. simpl. auto.
Qed.

(** C3: [crawl_url] gives the Orchestrator no error.  When what is
    raised inside its [try] derives from [Exception], it returns a
    tuple; on a status that is not 2xx, an error of the transport or of
    the protocol, or a failure of the parser, the tuple is the address
    with no words and no links.  Whatever the network replies, the loop
    of [crawl_async] runs to its end. *)
Theorem crawl_url_absorbs_errors (url : list N) (reply : net_reply) :
  (forall e, crawl_url_try url reply = inl e -> is_Exception e = true) ->
  is_tuple (crawl_url url reply) = true
  /\ (forall e, crawl_url_try url reply = inl e ->
       crawl_url url reply = inr (url, ∅, ∅))
  /\ (forall status ct doc,
        reply = Response status ct doc -> is_success status = false ->
        crawl_url url reply = inr (url, ∅, ∅))
  /\ (forall e, reply = GetRaises e ->
       crawl_url url reply = inr (url, ∅, ∅))
  /\ (forall status ct e,
        reply = Response status ct (inl e) ->
        crawl_url url reply = inr (url, ∅, ∅))
  /\ (forall start_url seed,
        normalize start_url = inr seed -> 0 <= workers ->
        exists s, crawl_run start_url = Some (inr s)).
Proof.
  intros Hexn.
  assert (Hcaught : forall e, crawl_url_try url reply = inl e ->
                    crawl_url url reply = inr (url, ∅, ∅)).
  { intros e He. apply (crawl_url_caught _ _ e); auto. }
  split; [|split; [exact Hcaught|split; [|split; [|split]]]].
  - destruct (crawl_url_shape url reply)
      as [(e & _ & He & Hne)|(w & l & ->)]; [|reflexivity].
    rewrite (Hexn e He) in Hne. discriminate.
  - intros status ct doc -> Hst.
    apply (Hcaught HTTPStatusError), crawl_url_try_status, Hst.
  - intros e ->. apply (Hcaught e). reflexivity.
  - intros status ct e ->.
    destruct (crawl_url_try_parse url status ct e) as [H|[H|H]].
    + apply (Hcaught _ H).
    + unfold crawl_url. rewrite H. reflexivity.
    + apply (Hcaught _ H).
  - intros start_url seed Hseed Hw.
    destruct (crawl_run_cases start_url)
      as [[e He]|(seed' & _ & _ & Hs)]; [|eauto].
    exfalso. revert He. unfold crawl_run. rewrite Hseed.
    destruct (workers <? 0) eqn:E; [apply Z.ltb_lt in E; lia|].
    destruct (crawl_loop _ _); discriminate.
Qed.

Lemma depth_zero_kept l :
  0 <= max_depth -> Forall (fun e : entry => e.2 = 0) l ->
  List.filter depth_ok l = l
  /\ List.filter (fun e => negb (depth_ok e)) l = [].
Proof.
  intros Hd. induction 1 as [|[u d] l Hx Hl [IH1 IH2]]; simpl; [auto|].
  simpl in Hx. subst d.
  assert (depth_ok (u, 0) = true) as ->.
  { unfold depth_ok. simpl.
    assert ((0 >? max_depth) = false) as -> by lia. reflexivity. }
  simpl. rewrite IH1, IH2. auto.
Qed.

(** C4: every entry a link gives is enqueued at depth 0, whatever the
    page it was found on; all the entries ever enqueued and all those in
    the queue have depth 0; with a maximum depth of at least 0 the depth
    test has dropped no entry, and drops none of the next batch. *)
Theorem links_enqueued_at_depth_zero (seed : list N) (n : nat) :
  0 <= max_depth ->
  Forall (fun e : entry => e.2 = 0)
    (enqueued (hist (state_after n (initial_state seed))))
  /\ Forall (fun e : entry => e.2 = 0)
       (queue (state_after n (initial_state seed)))
  /\ discarded (hist (state_after n (initial_state seed))) = []
  /\ (forall s0 link,
        queue (enqueue_link s0 link) = queue s0
        \/ queue (enqueue_link s0 link) = queue s0 ++ [(link, 0)])
  /\ exists popped,
       queue (state_after n (initial_state seed))
       = popped
         ++ (fill_batch (queue (state_after n (initial_state seed))) []
               (hist (state_after n (initial_state seed)))).1.2
       /\ (fill_batch (queue (state_after n (initial_state seed))) []
             (hist (state_after n (initial_state seed)))).1.1 = popped.
Proof.
  intros Hd. destruct (state_after_invs seed n) as [Hf _].
  remember (state_after n (initial_state seed)) as s.
  destruct Hf as [H0 (p & Hp & Hr & Hdi) _ _ _].
  rewrite Hp, Forall_app in H0. destruct H0 as [H0p H0q].
  split; [rewrite Hp; apply Forall_app; auto|].
  split; [exact H0q|]. split.
  - rewrite Hdi. apply depth_zero_kept; auto.
  - split.
    + intros s0 link. destruct (enqueue_link_cases s0 link)
        as [[-> _]|(_ & _ & _ & ->)]; auto.
    + destruct (fill_batch (queue s) [] (hist s)) as [[b q'] h'] eqn:E.
      apply fill_batch_spec in E as (p' & Hq & Hb & _).
      exists p'. simpl. split; [exact Hq|].
      rewrite Hq, Forall_app in H0q. destruct H0q as [H0p' _].
      rewrite Hb. simpl. apply depth_zero_kept; auto.
Qed.

Lemma NoDup_app_l {A} (l k : list A) : NoDup (l ++ k) -> NoDup l.
Proof. rewrite NoDup_app. tauto. Qed.

Lemma NoDup_list_filter {A} (f : A -> bool) l :
  NoDup l -> NoDup (List.filter f l).
Proof.
  induction 1 as [|x l Hx Hl IH]; simpl; [constructor|].
  destruct (f x); [|exact IH]. constructor; [|exact IH].
  intros Hin. apply Hx. apply list_elem_of_In in Hin.
  apply filter_In in Hin as [Hin _]. apply list_elem_of_In. exact Hin.
Qed.

(** C5: the inner loop takes entries off the head of the queue, in the
    order they were enqueued, puts in the batch those the depth test
    keeps and drops the others; the batch has at most [2 * workers]
    entries, and exactly that many when entries are left in the queue;
    on an empty queue the batch is empty.  Over a whole crawl the
    entries returned are those kept among the first ones enqueued, in
    that order, and none is returned twice. *)
Theorem dequeue_batch_fifo (q : list entry) (h : history)
    (seed : list N) (n : nat) :
  (exists popped,
     q = popped ++ (fill_batch q [] h).1.2
     /\ (fill_batch q [] h).1.1 = List.filter depth_ok popped
     /\ discarded (fill_batch q [] h).2
        = discarded h ++ List.filter (fun e => negb (depth_ok e)) popped)
  /\ Z.of_nat (length (fill_batch q [] h).1.1) <= Z.max 0 (workers * 2)
  /\ ((fill_batch q [] h).1.2 <> [] ->
      Z.of_nat (length (fill_batch q [] h).1.1) = Z.max 0 (workers * 2))
  /\ fill_batch [] [] h = ([], [], h)
  /\ NoDup (returned (hist (state_after n (initial_state seed))))
  /\ exists popped,
       enqueued (hist (state_after n (initial_state seed)))
       = popped ++ queue (state_after n (initial_state seed))
       /\ returned (hist (state_after n (initial_state seed)))
          = List.filter depth_ok popped.
Proof.
  destruct (fill_batch q [] h) as [[b q'] h'] eqn:E.
  apply fill_batch_spec in E
    as (p & Hq & Hb & _ & _ & Hdi & _ & Hlen & Hfull & _).
  cbn [fst snd length] in *.
  split; [exists p; auto|]. split; [lia|].
  split; [intros Hne; specialize (Hfull Hne); lia|].
  split; [reflexivity|].
  destruct (state_after_invs seed n) as [[_ (p0 & Hp0 & Hr0 & _) Hn _ _] _].
  split; [|eauto].
  rewrite Hr0. apply NoDup_list_filter.
  apply NoDup_fmap_1 in Hn. rewrite Hp0 in Hn.
  apply NoDup_app_l in Hn. exact Hn.
Qed.

(** C6: an address enters the Visited Set at most once.  The addresses
    ever enqueued are all different and the Visited Set holds exactly
    them; a link whose address is in the Visited Set changes nothing; a
    link that is enqueued was not in the set and is in it at once, before
    any fetch; the same link a second time changes nothing. *)
Theorem visited_at_most_once (seed : list N) (n : nat)
    (s0 : crawl_state) (link : list N) :
  NoDup (List.map fst (enqueued (hist (state_after n (initial_state seed)))))
  /\ visited (state_after n (initial_state seed))
     = list_to_set
         (List.map fst
            (enqueued (hist (state_after n (initial_state seed)))))
  /\ size (visited (state_after n (initial_state seed)))
     = length (enqueued (hist (state_after n (initial_state seed))))
  /\ (link ∈ visited s0 -> enqueue_link s0 link = s0)
  /\ (enqueue_link s0 link <> s0 ->
      (link ∉ visited s0)
      /\ visited (enqueue_link s0 link) = {[link]} ∪ visited s0
      /\ queue (enqueue_link s0 link) = queue s0 ++ [(link, 0)])
  /\ enqueue_link (enqueue_link s0 link) link = enqueue_link s0 link.
Proof.
  destruct (state_after_invs seed n) as [[_ _ Hn Hv _] _].
  split; [exact Hn|]. split; [exact Hv|]. split.
  { rewrite Hv, size_list_to_set, length_map by exact Hn. reflexivity. }
  split; [|split].
  - intros Hin. destruct (enqueue_link_cases s0 link)
      as [[-> _]|(Hnot & _)]; tauto.
  - intros Hne. destruct (enqueue_link_cases s0 link)
      as [[Heq _]|(Hnot & _ & Hv' & Hq')]; [congruence|auto].
  - destruct (enqueue_link_cases s0 link)
      as [[Heq _]|(Hnot & _ & Hv' & Hq')]; [|].
    + rewrite !Heq. reflexivity.
    + destruct (enqueue_link_cases (enqueue_link s0 link) link)
        as [[-> _]|(Hnot2 & _)]; [reflexivity|].
      exfalso. apply Hnot2. rewrite Hv'. apply elem_of_union. left.
      apply elem_of_singleton. reflexivity.
Qed.

(** C10, amended: [extract_words] gives the same set for two strings that
    differ only in the case of ASCII letters, so for a string and the
    string with its letters [a] to [z] in upper case; every word it
    returns is a non-empty string of the letters [a] to [z], and so is
    every word of the corpus a crawl ends with. *)
Theorem extract_words_ascii_case_insensitive (s t : list N) :
  ascii_case_variant s t ->
  extract_words s = extract_words t
  /\ extract_words (ascii_upper s) = extract_words s
  /\ (forall w, w ∈ extract_words s -> word_token w)
  /\ (forall start_url st w,
        crawl_run start_url = Some (inr st) ->
        w ∈ all_words st -> word_token w).
Proof.
  intros Hst. split; [|split; [|split]].
  - unfold extract_words. rewrite (ascii_case_variant_lower s t Hst).
    reflexivity.
  - unfold extract_words.
    rewrite (ascii_case_variant_lower _ _ (ascii_upper_variant s)).
    reflexivity.
  - intros w. apply extract_words_tokens.
  - intros start_url st w Hrun.
    destruct (crawl_run_state _ _ Hrun) as (seed & n & ->).
    apply corpus_tokens. apply state_after_invs.
Qed.

(** *** More on the crawl *)

Lemma enqueue_link_grows s link :
  visited s ⊆ visited (enqueue_link s link).
Proof.
  destruct (enqueue_link_cases s link) as [[-> _]|(_ & _ & -> & _)].
  - reflexivity.
  - apply union_subseteq_r.
Qed.

Lemma enqueue_links_grow links : forall s,
  visited s ⊆ visited (fold_left enqueue_link links s).
Proof.
  induction links as [|l links IH]; intros s; simpl; [reflexivity|].
  etransitivity; [apply enqueue_link_grows|apply IH].
Qed.

Lemma merge_result_grows s r :
  visited s ⊆ visited (merge_result s r).
Proof.
  destruct r as [e|[[u w] l]]; simpl; [reflexivity|].
  match goal with |- _ ⊆ visited (fold_left _ ?ls ?s1) =>
    apply (enqueue_links_grow ls s1) end.
Qed.

Lemma merge_results_grow rs : forall s,
  visited s ⊆ visited (fold_left merge_result rs s).
Proof.
  induction rs as [|r rs IH]; intros s; simpl; [reflexivity|].
  etransitivity; [apply merge_result_grows|apply IH].
Qed.

Lemma crawl_iteration_grows s :
  match crawl_iteration s with
  | Next s' | Exit s' =>
      visited s ⊆ visited s' /\ all_words s ⊆ all_words s'
      /\ pages_crawled s <= pages_crawled s'
      /\ (fetches s <= fetches s')%nat
  end.
Proof.
  unfold crawl_iteration.
  destruct (nonempty_queue (queue s) && (pages_crawled s <? max_pages)).
  2:{ repeat split; reflexivity || lia. }
  destruct (fill_batch (queue s) [] (hist s)) as [[b q'] h'] eqn:Hfb.
  destruct b as [|e b].
  { cbn [visited all_words pages_crawled fetches].
    repeat split; reflexivity || lia. }
  match goal with |- context [fold_left _ ?rs ?s2] =>
    destruct (merge_results_account rs s2) as (H1 & H2 & H3 & _);
    pose proof (merge_results_grow rs s2) as H4 end.
  cbn [visited all_words pages_crawled fetches] in *.
  rewrite H1, H2, H3. repeat split.
  - exact H4.
  - apply union_subseteq_l.
  - lia.
  - lia.
Qed.

Lemma state_after_step_grows n : forall s,
  visited (state_after n s) ⊆ visited (state_after (S n) s)
  /\ all_words (state_after n s) ⊆ all_words (state_after (S n) s)
  /\ pages_crawled (state_after n s) <= pages_crawled (state_after (S n) s)
  /\ (fetches (state_after n s) <= fetches (state_after (S n) s))%nat.
Proof.
  induction n as [|n IH]; intros s.
  - simpl. pose proof (crawl_iteration_grows s) as H.
    destruct (crawl_iteration s); exact H.
  - change (state_after (S (S n)) s)
      with (match crawl_iteration s with
            | Exit s' => s'
            | Next s' => state_after (S n) s'
            end).
    change (state_after (S n) s)
      with (match crawl_iteration s with
            | Exit s' => s'
            | Next s' => state_after n s'
            end).
    destruct (crawl_iteration s) as [s'|s']; [apply IH|].
    repeat split; reflexivity || lia.
Qed.

(** X11: a crawl only adds: from one test of the loop to any later one
    the Visited Set and the corpus grow or stay, and so do the count of
    pages and the number of tasks. *)
Theorem crawl_only_grows (s : crawl_state) (n m : nat) :
  (n <= m)%nat ->
  visited (state_after n s) ⊆ visited (state_after m s)
  /\ all_words (state_after n s) ⊆ all_words (state_after m s)
  /\ pages_crawled (state_after n s) <= pages_crawled (state_after m s)
  /\ (fetches (state_after n s) <= fetches (state_after m s))%nat.
Proof.
  induction 1 as [|m Hle (IH1 & IH2 & IH3 & IH4)].
  - repeat split; reflexivity || lia.
  - destruct (state_after_step_grows m s) as (H1 & H2 & H3 & H4).
    repeat split; try (etransitivity; eassumption); lia.
Qed.

(** X8: with no worker, a budget of no page, or a negative maximum depth,
    the crawl makes no fetch: it ends with no page, no word, and the seed
    alone in the Visited Set. *)
Theorem crawl_without_fetch (start_url seed : list N) :
  normalize start_url = inr seed -> 0 <= workers ->
  workers = 0 \/ max_pages <= 0 \/ max_depth < 0 ->
  exists s,
    crawl_run start_url = Some (inr s)
    /\ fetches s = O /\ results (hist s) = []
    /\ pages_crawled s = 0 /\ all_words s = ∅
    /\ visited s = {[seed]}.
Proof.
  intros Hseed Hw Hcase. unfold crawl_run. rewrite Hseed.
  assert ((workers <? 0) = false) as -> by lia.
  assert (Hexit : exists s,
            crawl_iteration (initial_state seed) = Exit s
            /\ fetches s = O /\ results (hist s) = []
            /\ pages_crawled s = 0 /\ all_words s = ∅
            /\ visited s = {[seed]}).
  { unfold crawl_iteration.
    cbn [initial_state queue pages_crawled nonempty_queue hist andb].
    destruct (0 <? max_pages) eqn:Hb.
    2:{ eexists. split; [reflexivity|]. repeat split. }
    cbn [fill_batch length Nat.ltb].
    destruct (Z.of_nat 0 <? workers * 2) eqn:Hfull.
    2:{ eexists. split; [reflexivity|]. repeat split. }
    apply Z.ltb_lt in Hb, Hfull. simpl in Hfull.
    assert ((0 >? max_depth) = true) as -> by lia.
    eexists. split; [reflexivity|]. repeat split. }
  destruct Hexit as (s & Hs & Hprops).
  exists s. split; [|exact Hprops].
  destruct (crawl_fuel (initial_state seed)); simpl; rewrite Hs;
    reflexivity.
Qed.

(** X9: [crawl_async] always ends.  It raises exactly when
    [normalize_url] raises on the start url, with the same exception, or
    when [workers] is negative, with [ValueError]; otherwise it returns
    its pair. *)
Theorem crawl_async_raises_or_returns (start_url : list N) :
  (exists e,
     crawl_async start_url = Some (inl e)
     /\ (normalize start_url = inl e
         \/ (exists seed, normalize start_url = inr seed)
            /\ workers < 0 /\ e = ValueError))
  \/ (exists seed pages words,
        normalize start_url = inr seed /\ 0 <= workers
        /\ crawl_async start_url = Some (inr (pages, words))).
Proof.
  unfold crawl_async.
  destruct (crawl_run_cases start_url)
    as [[e He]|(seed & Hseed & Hw & Hs)].
  - left. exists e. rewrite He. split; [reflexivity|].
    revert He. unfold crawl_run.
    destruct (normalize start_url) as [e'|seed]; [intros [= ->]; auto|].
    destruct (workers <? 0) eqn:E.
    + intros [= <-]. right. split; [eauto|]. split; [lia|reflexivity].
    + destruct (crawl_loop _ _); discriminate.
  - right. rewrite Hs. eauto 10.
Qed.

Lemma NoDup_map_fst_filter (f : entry -> bool) (l : list entry) :
  NoDup (List.map fst l) -> NoDup (List.map fst (List.filter f l)).
Proof.
  induction l as [|x l IH]; simpl; [auto|].
  rewrite NoDup_cons. intros [Hx Hl].
  destruct (f x); simpl; [|auto].
  apply NoDup_cons. split; [|auto].
  intros Hin. apply Hx.
  apply list_elem_of_In, in_map_iff in Hin as (y & Hy & Hin).
  apply filter_In in Hin as [Hin _].
  apply list_elem_of_In, in_map_iff. eauto.
Qed.

(** X10: no address is fetched twice.  Each time the test of the loop is
    reached, the addresses of the tasks created so far are all
    different, they are in the Visited Set, and there are at most as
    many tasks as the larger of 1 and the page budget. *)
Theorem each_address_fetched_once (seed : list N) (n : nat) :
  NoDup (List.map fst (returned (hist (state_after n (initial_state seed)))))
  /\ fetches (state_after n (initial_state seed))
     = length (returned (hist (state_after n (initial_state seed))))
  /\ Z.of_nat (fetches (state_after n (initial_state seed)))
     <= Z.max 1 max_pages
  /\ (forall e,
        e ∈ returned (hist (state_after n (initial_state seed))) ->
        e.1 ∈ visited (state_after n (initial_state seed))).
Proof.
  destruct (state_after_invs seed n)
    as [[_ (p & Hp & Hr & _) Hn Hv Hb] [Hf _ _ _]].
  remember (state_after n (initial_state seed)) as s.
  rewrite Hp, map_app in Hn. pose proof (NoDup_app_l _ _ Hn) as Hnp.
  split; [rewrite Hr; apply NoDup_map_fst_filter; exact Hnp|].
  split; [exact Hf|]. split.
  - rewrite Hf, Hr. pose proof (filter_length_le depth_ok p) as H1.
    rewrite Hv, size_list_to_set in Hb.
    + rewrite length_map, Hp, length_app in Hb. lia.
    + rewrite Hp, map_app. exact Hn.
  - intros e He. rewrite Hr in He.
    apply list_elem_of_In, filter_In in He as [He _].
    rewrite Hv, elem_of_list_to_set, Hp, map_app.
    apply elem_of_app. left.
    apply list_elem_of_In, in_map. exact He.
Qed.

(** *** The links of a page *)

Local Abbreviation extract_links_from :=
  (extract_links_from bracketed_netloc_invalid nfkc_invalid urljoin).
Local Abbreviation extract_links :=
  (extract_links bracketed_netloc_invalid nfkc_invalid urljoin).
Local Abbreviation resolves :=
  (resolves bracketed_netloc_invalid nfkc_invalid urljoin).
Local Abbreviation fails_with :=
  (fails_with bracketed_netloc_invalid nfkc_invalid urljoin).
Local Abbreviation normalized :=
  (normalized bracketed_netloc_invalid nfkc_invalid).
Local Abbreviation links_normalized :=
  (links_normalized bracketed_netloc_invalid nfkc_invalid).

Lemma extract_links_from_spec hrefs base : forall acc,
  match extract_links_from hrefs base acc with
  | inr links =>
      Forall (fun href => exists l, resolves base href l) hrefs
      /\ forall l, l ∈ links <->
           l ∈ acc \/ exists href, href ∈ hrefs /\ resolves base href l
  | inl e => exists href, href ∈ hrefs /\ fails_with base href e
  end.
Proof.
  induction hrefs as [|href hrefs IH]; intros acc; simpl.
  - split; [constructor|]. intros l. split; [auto|].
    intros [H|(h & Hh & _)]; [exact H|]. apply elem_of_nil in Hh.
    destruct Hh.
  - destruct (urljoin base href) as [e|full] eqn:Ej.
    { exists href. split; [left|left; exact Ej]. }
    destruct (normalize full) as [e|l0] eqn:En.
    { exists href. split; [left|right; eauto]. }
    specialize (IH ({[l0]} ∪ acc)).
    destruct (extract_links_from hrefs base ({[l0]} ∪ acc)) as [e|links].
    + destruct IH as (h & Hh & Hf). exists h. split; [right; exact Hh|].
      exact Hf.
    + destruct IH as [Hall Hlinks]. split.
      * constructor; [exists l0, full; auto|exact Hall].
      * intros l. rewrite Hlinks, elem_of_union, elem_of_singleton.
        split.
        -- intros [[->|H]|(h & Hh & Hr)]; auto.
           ++ right. exists href. split; [left|exists full; auto].
           ++ right. exists h. split; [right; exact Hh|exact Hr].
        -- intros [H|(h & Hh & Hr)]; auto.
           apply elem_of_cons in Hh as [->|Hh].
           ++ left. left. destruct Hr as (f' & Hf1 & Hf2).
              congruence.
           ++ right. eauto.
Qed.

Lemma extract_links_spec (s : list node) (base : list N) :
  match extract_links s base with
  | inr links =>
      Forall (fun href => exists l, resolves base href l)
        (List.flat_map anchor_hrefs s)
      /\ forall l, l ∈ links <->
           exists href, href ∈ List.flat_map anchor_hrefs s
                        /\ resolves base href l
  | inl e =>
      exists href, href ∈ List.flat_map anchor_hrefs s
                   /\ fails_with base href e
  end.
Proof.
  unfold extract_links.
  pose proof (extract_links_from_spec (List.flat_map anchor_hrefs s)
                base ∅) as H.
  destruct (extract_links_from _ base ∅) as [e|links]; [exact H|].
  destruct H as [Hall Hl]. split; [exact Hall|].
  intros l. rewrite Hl. split; [|auto].
  intros [H|H]; [|exact H]. apply not_elem_of_empty in H. destruct H.
Qed.

(** X3: [extract_links] returns a set exactly when [urljoin] and
    [normalize_url] accept the address of every anchor of the tree, and
    the set then holds the normalized addresses of the anchors and
    nothing else; it raises exactly when one of the two raises on some
    anchor, with the exception raised there. *)
Theorem extract_links_resolves_all (s : list node) (base : list N) :
  match extract_links s base with
  | inr links =>
      Forall (fun href => exists l, resolves base href l)
        (List.flat_map anchor_hrefs s)
      /\ forall l, l ∈ links <->
           exists href, href ∈ List.flat_map anchor_hrefs s
                        /\ resolves base href l
  | inl e =>
      exists href, href ∈ List.flat_map anchor_hrefs s
                   /\ fails_with base href e
  end.
Proof. apply extract_links_spec. Qed.

Lemma extract_links_bad s base href e :
  href ∈ List.flat_map anchor_hrefs s -> fails_with base href e ->
  exists e', extract_links s base = inl e'
             /\ exists href', href' ∈ List.flat_map anchor_hrefs s
                              /\ fails_with base href' e'.
Proof.
  intros Hin Hf. unfold extract_links.
  pose proof (extract_links_from_spec (List.flat_map anchor_hrefs s)
                base ∅) as H.
  destruct (extract_links_from _ base ∅) as [e'|links]; [eauto|].
  exfalso. destruct H as [Hall _]. rewrite Forall_forall in Hall.
  destruct (Hall href Hin) as (l & full & Hj & Hn).
  destruct Hf as [Hf|(full' & Hj' & Hn')]; congruence.
Qed.

(** X4: one anchor that cannot be resolved empties the page.  When
    [urljoin] raises nothing but what derives from [Exception], a reply
    whose tree, once the tags are taken out, has an anchor on which
    [urljoin] or [normalize_url] raises gives the tuple with no words
    and no links, whatever the text and the other anchors of the page. *)
Theorem unresolved_link_empties_page (url href : list N) (e : py_exn)
    (status : Z) (ct : option (list N)) (doc : list node) :
  (forall b h e', urljoin b h = inl e' -> is_Exception e' = true) ->
  href ∈ List.flat_map anchor_hrefs (List.flat_map extract_tags doc) ->
  fails_with url href e ->
  crawl_url url (Response status ct (inr doc)) = inr (url, ∅, ∅).
Proof.
  intros Hjoin Hin Hf.
  destruct (extract_links_bad _ _ _ _ Hin Hf)
    as (e' & He' & href' & _ & Hf').
  assert (Hexn : is_Exception e' = true).
  { destruct Hf' as [Hj|(full & _ & Hn)]; [eauto|].
    apply normalize_url_only_value_error in Hn. subst e'. reflexivity. }
  unfold crawl_url, crawl_url_try.
  destruct (is_success status); simpl; [|reflexivity].
  destruct (contains (py "text/html") (default [] ct)); simpl;
    [|reflexivity].
  rewrite He', Hexn. reflexivity.
Qed.

(** X12: a tuple [crawl_url] returns carries the url it was given, and
    either it has no words and no links, or the reply was a 2xx response
    whose content type holds [text/html], the words are those of the
    text of its tree without the tags taken out (the text [get_text]
    gives: the strings of class [NavigableString] or [CData]), and the
    links are what [extract_links] returns for that tree. *)
Theorem crawl_url_result (url url' : list N) (reply : net_reply)
    (words links : gset (list N)) :
  crawl_url url reply = inr (url', words, links) ->
  url' = url
  /\ ((words = ∅ /\ links = ∅)
      \/ exists status ct doc,
           reply = Response status ct (inr doc)
           /\ is_success status = true
           /\ contains (py "text/html") (default [] ct) = true
           /\ words
              = extract_words (get_text (List.flat_map extract_tags doc))
           /\ extract_links (List.flat_map extract_tags doc) url
              = inr links).
Proof.
  unfold crawl_url.
  destruct (crawl_url_try url reply) as [e|[[u w] l]] eqn:E.
  - destruct (is_Exception e); [|discriminate].
    intros [= <- <- <-]. auto.
  - intros [= <- <- <-]. revert E. unfold crawl_url_try.
    destruct reply as [e|status ct doc]; [discriminate|].
    destruct (is_success status) eqn:Hs; [|discriminate]. simpl.
    destruct (contains (py "text/html") (default [] ct)) eqn:Hc; simpl.
    + destruct doc as [e|d]; [discriminate|].
      destruct (extract_links _ _) as [e|l'] eqn:El;
        [discriminate|].
      intros [= <- <- <-]. split; [reflexivity|]. right.
      exists status, ct, d. auto.
    + intros [= <- <- <-]. auto.
Qed.

(** *** The addresses of the Visited Set *)

Lemma crawl_url_links_normalized url reply :
  links_normalized (crawl_url url reply).
Proof.
  destruct (crawl_url url reply) as [e|[[u w] l]] eqn:E; simpl; [exact I|].
  apply crawl_url_result in E as [_ [[_ ->]|(st & ct & doc & _ & _ & _
                                             & _ & El)]].
  - intros x Hx. apply not_elem_of_empty in Hx. destruct Hx.
  - pose proof (extract_links_spec
                  (List.flat_map extract_tags doc) url) as H.
    rewrite El in H. destruct H as [_ Hl].
    intros x Hx. apply Hl in Hx as (h & _ & full & _ & Hn).
    exists full. exact Hn.
Qed.

Lemma gather_links_normalized b : forall k,
  Forall links_normalized (gather k b).
Proof.
  induction b as [|[u d] b IH]; intros k; simpl; constructor;
    auto using crawl_url_links_normalized.
Qed.

Lemma enqueue_link_normalized s link :
  normalized link ->
  (forall a, a ∈ visited s -> normalized a) ->
  forall a, a ∈ visited (enqueue_link s link) -> normalized a.
Proof.
  intros Hl Hs a.
  destruct (enqueue_link_cases s link) as [[-> _]|(_ & _ & -> & _)];
    [apply Hs|].
  rewrite elem_of_union, elem_of_singleton. intros [->|Ha]; auto.
Qed.

Lemma enqueue_links_normalized links : forall s,
  Forall normalized links ->
  (forall a, a ∈ visited s -> normalized a) ->
  forall a, a ∈ visited (fold_left enqueue_link links s) -> normalized a.
Proof.
  induction links as [|l links IH]; intros s Hl Hs; simpl; [exact Hs|].
  inversion Hl; subst. apply IH; [assumption|].
  apply enqueue_link_normalized; assumption.
Qed.

Section SetIteration.

(** A [for] loop over a set walks elements of the set. *)
Hypothesis set_iter_elements : forall X x, x ∈ set_iter X -> x ∈ X.

Lemma merge_result_normalized s r :
  links_normalized r ->
  (forall a, a ∈ visited s -> normalized a) ->
  forall a, a ∈ visited (merge_result s r) -> normalized a.
Proof.
  destruct r as [e|[[u w] l]]; simpl; [auto|].
  intros Hl Hs. apply enqueue_links_normalized; [|exact Hs].
  apply Forall_forall. intros x Hx. apply Hl, set_iter_elements, Hx.
Qed.

Lemma merge_results_normalized rs : forall s,
  Forall links_normalized rs ->
  (forall a, a ∈ visited s -> normalized a) ->
  forall a, a ∈ visited (fold_left merge_result rs s) -> normalized a.
Proof.
  induction rs as [|r rs IH]; intros s Hrs Hs; simpl; [exact Hs|].
  inversion Hrs; subst. apply IH; [assumption|].
  apply merge_result_normalized; assumption.
Qed.

Lemma crawl_iteration_normalized s :
  (forall a, a ∈ visited s -> normalized a) ->
  match crawl_iteration s with
  | Next s' | Exit s' => forall a, a ∈ visited s' -> normalized a
  end.
Proof.
  intros Hs. unfold crawl_iteration.
  destruct (nonempty_queue (queue s) && (pages_crawled s <? max_pages));
    [|exact Hs].
  destruct (fill_batch (queue s) [] (hist s)) as [[b q'] h'].
  destruct b as [|e b]; [exact Hs|].
  apply merge_results_normalized; [apply gather_links_normalized|].
  exact Hs.
Qed.

Lemma state_after_normalized n : forall s,
  (forall a, a ∈ visited s -> normalized a) ->
  forall a, a ∈ visited (state_after n s) -> normalized a.
Proof.
  induction n as [|n IH]; intros s Hs; simpl; [exact Hs|].
  pose proof (crawl_iteration_normalized s Hs) as H.
  destruct (crawl_iteration s) as [s'|s']; [apply IH|]; exact H.
Qed.

(** X13: the Visited Set of a crawl holds normalized addresses only:
    each is what [normalize_url] returns for some url, and so holds no
    [#], tab, carriage return or line feed. *)
Theorem visited_addresses_normalized (start_url : list N)
    (s : crawl_state) (a : list N) :
  crawl_run start_url = Some (inr s) -> a ∈ visited s ->
  (exists u, normalize u = inr a)
  /\ (35%N ∉ a) /\ (9%N ∉ a) /\ (10%N ∉ a) /\ (13%N ∉ a).
Proof.
  intros Hrun Ha.
  assert (Hn : normalized a).
  { destruct (crawl_run_cases start_url)
      as [[e He]|(seed & Hseed & _ & Hs)]; [congruence|].
    assert (Hs' : s = state_after (S (crawl_fuel (initial_state seed)))
                        (initial_state seed)) by congruence.
    rewrite Hs' in Ha.
    revert Ha. apply state_after_normalized.
    intros x. cbn [initial_state visited].
    rewrite elem_of_singleton. intros ->. exists start_url. exact Hseed. }
  split; [exact Hn|]. destruct Hn as [u Hu].
  destruct (normalize_url_plain _ _ _ _ Hu) as (H1 & H2 & H3 & H4 & _).
  auto.
Qed.

End SetIteration.

Lemma crawl_async_tokens start_url pages words w :
  crawl_async start_url = Some (inr (pages, words)) ->
  w ∈ words -> word_token w.
Proof.
  unfold crawl_async.
  destruct (crawl_run start_url) as [[e|s]|] eqn:Hrun; try discriminate.
  intros [= <- <-].
  destruct (crawl_run_state _ _ Hrun) as (seed & n & ->).
  apply corpus_tokens. apply state_after_invs.
Qed.

(** *** The end of a crawl *)

Lemma crawl_loop_exit fuel : forall s0 s,
  crawl_loop fuel s0 = Some s -> frontier_inv s0 ->
  exists s_last, frontier_inv s_last /\ crawl_iteration s_last = Exit s.
Proof.
  induction fuel as [|fuel IH]; intros s0 s H Hs0; simpl in H;
    pose proof (crawl_iteration_frontier s0 Hs0) as Hi;
    destruct (crawl_iteration s0) as [s1|s1] eqn:E; try discriminate.
  - inversion H; subst. eauto.
  - eauto.
  - inversion H; subst. eauto.
Qed.

Lemma crawl_iteration_exit s s' :
  0 <= max_depth -> 1 <= workers -> frontier_inv s ->
  crawl_iteration s = Exit s' ->
  s' = s /\ (queue s = [] \/ max_pages <= pages_crawled s).
Proof.
  intros Hd Hw Hs. unfold crawl_iteration.
  destruct (nonempty_queue (queue s)) eqn:Hq; simpl.
  2:{ intros [= <-]. split; [reflexivity|]. left.
      destruct (queue s); [reflexivity|discriminate]. }
  destruct (pages_crawled s <? max_pages) eqn:Hp.
  2:{ intros [= <-]. split; [reflexivity|]. right. lia. }
  destruct (fill_batch (queue s) [] (hist s)) as [[b q'] h'] eqn:Hfb.
  destruct b as [|e b]; [|discriminate].
  exfalso.
  apply fill_batch_spec in Hfb
    as (p & Hqp & Hb & _ & _ & _ & _ & _ & _ & Hpop).
  destruct Hs as [H0 (p0 & Hp0 & _) _ _ _].
  rewrite Hp0, Hqp, !Forall_app in H0. destruct H0 as (_ & H0p & _).
  destruct (depth_zero_kept p Hd H0p) as [Hkeep _].
  simpl in Hb. rewrite Hkeep in Hb. subst p.
  apply Hpop; [|simpl; lia|reflexivity].
  destruct (queue s); [discriminate|discriminate].
Qed.

(** X18: a crawl does not stop early.  With a maximum depth of at least
    0 and at least one worker, when [crawl_async] ends the queue is
    empty or the count of pages has reached the budget; and when the
    queue is empty every address of the Visited Set has been fetched,
    once: the entries fetched are the entries enqueued. *)
Theorem crawl_ends_when_done (start_url : list N) (s : crawl_state) :
  0 <= max_depth -> 1 <= workers ->
  crawl_run start_url = Some (inr s) ->
  (queue s = [] \/ max_pages <= pages_crawled s)
  /\ (queue s = [] ->
      returned (hist s) = enqueued (hist s)
      /\ fetches s = size (visited s)
      /\ forall a, a ∈ visited s <-> a ∈ List.map fst (returned (hist s))).
Proof.
  intros Hd Hw. unfold crawl_run.
  destruct (normalize start_url) as [e|seed]; [discriminate|].
  destruct (workers <? 0); [discriminate|].
  destruct (crawl_loop (crawl_fuel (initial_state seed))
              (initial_state seed)) as [sf|] eqn:Hloop; [|discriminate].
  intros [= <-].
  destruct (crawl_loop_exit _ _ _ Hloop (initial_frontier seed))
    as (s_last & Hinv & Hexit).
  pose proof (crawl_loop_state_after _ _ _ Hloop) as Hsf.
  destruct (crawl_iteration_exit _ _ Hd Hw Hinv Hexit) as [-> Hdone].
  split; [exact Hdone|]. intros Hq.
  destruct (state_after_invs seed (S (crawl_fuel (initial_state seed))))
    as [_ [Hf _ _ _]].
  rewrite Hsf in Hf.
  destruct Hinv as [H0 (p & Hp & Hr & _) Hn Hv _].
  rewrite Hq, app_nil_r in Hp. subst p.
  destruct (depth_zero_kept _ Hd H0) as [Hkeep _].
  rewrite Hkeep in Hr. split; [exact Hr|]. split.
  - rewrite Hf, Hr, Hv, size_list_to_set, length_map by exact Hn.
    reflexivity.
  - intros a. rewrite Hv, Hr. apply elem_of_list_to_set.
Qed.

End CrawlProofs.

(** ** The semaphore *)

Section Limiter.

Variable bracketed_netloc_invalid : list N -> bool.
Variable nfkc_invalid : list N -> bool.
Variable urljoin : list N -> list N -> py_exn + list N.
Variable set_iter : gset (list N) -> list (list N).
Variables max_depth max_pages workers : Z.

Local Open Scope Z_scope.

Local Abbreviation conc_step :=
  (conc_step bracketed_netloc_invalid nfkc_invalid urljoin set_iter
     max_depth max_pages workers).
Local Abbreviation conc_reachable :=
  (conc_reachable bracketed_netloc_invalid nfkc_invalid urljoin set_iter
     max_depth max_pages workers).
Local Abbreviation limiter_inv := (limiter_inv workers).

Lemma fetching_count_acquire l : forall i url,
  l !! i = Some (Waiting url) ->
  fetching_count (<[i := Fetching url]> l) = S (fetching_count l).
Proof.
  induction l as [|t l IH]; intros [|i] url H; simpl in *; try discriminate.
  - inversion H; subst. reflexivity.
  - rewrite (IH i url H). lia.
Qed.

Lemma fetching_count_release l : forall i url r,
  l !! i = Some (Fetching url) ->
  S (fetching_count (<[i := Finished r]> l)) = fetching_count l.
Proof.
  induction l as [|t l IH]; intros [|i] url r H; simpl in *;
    try discriminate.
  - inversion H; subst. reflexivity.
  - rewrite <- (IH i url r H). lia.
Qed.

Lemma fetching_count_waiting (b : list entry) :
  fetching_count (List.map (fun e => Waiting (fst e)) b) = O.
Proof. induction b as [|e b IH]; simpl; auto. Qed.

Lemma gathered_finished l rs :
  gathered l = Some rs ->
  Forall (fun t => is_finished t = true) l
  /\ fetching_count l = O /\ length rs = length l.
Proof.
  revert rs. induction l as [|t l IH]; intros rs H; simpl in H.
  - inversion H; subst. auto.
  - destruct t as [u|u|r]; try discriminate.
    destruct (gathered l) as [rs'|] eqn:E; [|discriminate].
    inversion H; subst. destruct (IH rs' eq_refl) as (H1 & H2 & H3).
    simpl. repeat split; auto.
Qed.

Lemma conc_step_limiter c c' :
  conc_step c c' -> limiter_inv c -> limiter_inv c'.
Proof.
  intros Hstep [Hsum Hpos]. unfold limiter_inv.
  destruct Hstep as [c b q' h' Ht Hcond Hfb Hne
                    |c i url Hi Hsem|c i url reply Hi|c rs Hne Hg];
    cbn [tasks sem_value cs].
  - rewrite fetching_count_waiting. rewrite Ht in Hsum. simpl in Hsum.
    lia.
  - rewrite (fetching_count_acquire _ _ _ Hi). lia.
  - pose proof (fetching_count_release _ _ _
                  (crawl_url bracketed_netloc_invalid nfkc_invalid
                     urljoin url reply) Hi). lia.
  - apply gathered_finished in Hg as (_ & Hz & _). rewrite Hz in Hsum.
    simpl. lia.
Qed.

Lemma conc_reachable_limiter seed c :
  0 <= workers -> conc_reachable seed c -> limiter_inv c.
Proof.
  intros Hw. induction 1 as [|c c' _ IH Hstep].
  - split; simpl; lia.
  - eapply conc_step_limiter; eauto.
Qed.

Lemma conc_step_merge_after_all c c' :
  conc_step c c' -> cs c' <> cs c ->
  Forall (fun t => is_finished t = true) (tasks c).
Proof.
  intros Hstep Hchg.
  destruct Hstep as [c b q' h' Ht Hcond Hfb Hne
                    |c i url Hi Hsem|c i url reply Hi|c rs Hne Hg];
    cbn [cs] in Hchg; try congruence.
  - rewrite Ht. constructor.
  - apply gathered_finished in Hg. tauto.
Qed.

(** C9: with a worker count of at least 0, in every state of a crawl the
    tasks that are fetching are at most [workers]; they and the counter
    of the semaphore add up to [workers], so that no task is let in when
    [workers] of them are fetching; a step leaves at most [workers] of
    them fetching; and a step changes the state of the crawl only when
    no task is left that has not finished. *)
Theorem semaphore_caps_fetches (seed : list N) (c : conc_state) :
  0 <= workers -> conc_reachable seed c ->
  Z.of_nat (fetching_count (tasks c)) <= workers
  /\ Z.of_nat (fetching_count (tasks c)) + sem_value c = workers
  /\ (Z.of_nat (fetching_count (tasks c)) = workers -> sem_value c = 0)
  /\ (forall c', conc_step c c' ->
       Z.of_nat (fetching_count (tasks c')) <= workers)
  /\ (forall c', conc_step c c' -> cs c' <> cs c ->
       Forall (fun t => is_finished t = true) (tasks c)).
Proof.
  intros Hw Hreach.
  pose proof (conc_reachable_limiter seed c Hw Hreach) as [Hsum Hpos].
  split; [lia|]. split; [exact Hsum|]. split; [lia|]. split.
  - intros c' Hstep.
    destruct (conc_step_limiter c c' Hstep (conj Hsum Hpos)). lia.
  - intros c'. apply conc_step_merge_after_all.
Qed.

(** *** More on the tasks of a batch *)

Lemma conc_step_frontier c c' :
  conc_step c c' ->
  frontier_inv max_depth max_pages (cs c) ->
  frontier_inv max_depth max_pages (cs c').
Proof.
  intros Hstep Hs.
  destruct Hstep as [c b q' h' Ht Hcond Hfb Hne
                    |c i url Hi Hsem|c i url reply Hi|c rs Hne Hg];
    cbn [cs]; auto.
  - apply fill_batch_spec in Hfb as (p & Hq & Hb & He & Hr & Hd & _).
    destruct Hs as [H0 (p0 & Hp0 & Hr0 & Hd0) Hn Hv Hbu].
    split; cbn [visited queue hist]; rewrite ?He; auto.
    exists (p0 ++ p). rewrite Hp0, Hq, <- app_assoc.
    rewrite !List.filter_app, Hr, Hd, Hr0, Hd0. auto.
  - apply merge_results_frontier. exact Hs.
Qed.

Lemma conc_reachable_frontier seed c :
  conc_reachable seed c -> frontier_inv max_depth max_pages (cs c).
Proof.
  induction 1 as [|c c' _ IH Hstep].
  - apply initial_frontier.
  - eapply conc_step_frontier; eauto.
Qed.

(** X16: whatever the order in which the tasks of the batches run, the
    Visited Set holds at most as many addresses as the larger of 1 and
    the page budget, it holds exactly the addresses enqueued, each
    enqueued once, and no address is put in a batch twice. *)
Theorem every_interleaving_keeps_frontier (seed : list N)
    (c : conc_state) :
  conc_reachable seed c ->
  Z.of_nat (size (visited (cs c))) <= Z.max 1 max_pages
  /\ NoDup (List.map fst (enqueued (hist (cs c))))
  /\ visited (cs c) = list_to_set (List.map fst (enqueued (hist (cs c))))
  /\ NoDup (List.map fst (returned (hist (cs c)))).
Proof.
  intros Hreach.
  destruct (conc_reachable_frontier seed c Hreach)
    as [_ (p & Hp & Hr & _) Hn Hv Hb].
  repeat split; auto.
  rewrite Hr. apply NoDup_map_fst_filter.
  rewrite Hp, map_app in Hn. apply NoDup_app in Hn. tauto.
Qed.

Lemma tasks_classified (l : list task_phase) :
  (exists i url, l !! i = Some (Fetching url))
  \/ (fetching_count l = O
      /\ ((exists i url, l !! i = Some (Waiting url))
          \/ exists rs, gathered l = Some rs)).
Proof.
  induction l as [|t l IH].
  - right. split; [reflexivity|]. right. exists []. reflexivity.
  - destruct t as [u|u|r].
    + destruct IH as [(i & url & Hi)|(Hz & _)].
      * left. exists (S i), url. exact Hi.
      * right. split; [exact Hz|]. left. exists O, u. reflexivity.
    + left. exists O, u. reflexivity.
    + destruct IH as [(i & url & Hi)|(Hz & [(i & url & Hi)|(rs & Hrs)])].
      * left. exists (S i), url. exact Hi.
      * right. split; [exact Hz|]. left. exists (S i), url. exact Hi.
      * right. split; [exact Hz|]. right. exists (r :: rs). simpl.
        rewrite Hrs. reflexivity.
Qed.

Lemma conc_reachable_workers seed c :
  conc_reachable seed c -> tasks c = [] \/ 0 < workers.
Proof.
  induction 1 as [|c c' _ IH Hstep]; [left; reflexivity|].
  destruct Hstep as [c b q' h' Ht Hcond Hfb Hne
                    |c i url Hi Hsem|c i url reply Hi|c rs Hne Hg];
    cbn [tasks].
  - right. apply fill_batch_spec in Hfb as (_ & _ & _ & _ & _ & _ & _
                                            & Hlen & _).
    destruct b; [congruence|]. simpl in Hlen. lia.
  - destruct IH as [IH|IH]; [rewrite IH in Hi; discriminate|auto].
  - destruct IH as [IH|IH]; [rewrite IH in Hi; discriminate|auto].
  - left. reflexivity.
Qed.

(** X15: a batch cannot get stuck.  With a worker count of at least 0,
    in every state of a crawl with tasks in flight a step is possible: a
    task that is fetching can end, or else the semaphore lets a waiting
    task in, or else every task has finished and the results are merged;
    and between two batches the counter of the semaphore is back at
    [workers]. *)
Theorem batch_never_stuck (seed : list N) (c : conc_state) :
  0 <= workers -> conc_reachable seed c ->
  (tasks c = [] -> sem_value c = workers)
  /\ (tasks c <> [] -> exists c', conc_step c c').
Proof.
  intros Hw Hreach.
  pose proof (conc_reachable_limiter seed c Hw Hreach) as [Hsum Hpos].
  split.
  - intros Ht. rewrite Ht in Hsum. simpl in Hsum. lia.
  - intros Hne.
    destruct (conc_reachable_workers seed c Hreach) as [Ht|Hpos'];
      [congruence|].
    destruct (tasks_classified (tasks c))
      as [(i & url & Hi)|(Hz & [(i & url & Hi)|(rs & Hrs)])].
    + eexists. apply (step_release _ _ _ _ _ _ _ c i url
                        (GetRaises TransportError) Hi).
    + eexists. apply (step_acquire _ _ _ _ _ _ _ c i url Hi).
      rewrite Hz in Hsum. simpl in Hsum. lia.
    + eexists. apply (step_merge _ _ _ _ _ _ _ c rs Hne Hrs).
Qed.

End Limiter.

(** ** The maximum depth *)

Lemma fill_batch_any_depth (d1 d2 workers : Z) (q : list entry) :
  (0 <= d1)%Z -> (0 <= d2)%Z ->
  Forall (fun e : entry => e.2 = 0%Z) q ->
  forall b h, fill_batch d1 workers q b h = fill_batch d2 workers q b h.
Proof.
  intros H1 H2. induction 1 as [|[u d] q Hd Hq IH]; intros b h; simpl;
    [reflexivity|].
  simpl in Hd. subst d.
  assert ((0 >? d1)%Z = false) as -> by lia.
  assert ((0 >? d2)%Z = false) as -> by lia.
  rewrite IH. reflexivity.
Qed.

Lemma crawl_iteration_any_depth bni nfkc urljoin set_iter net
    (d1 d2 max_pages workers : Z) (s : crawl_state) :
  (0 <= d1)%Z -> (0 <= d2)%Z ->
  frontier_inv d1 max_pages s ->
  crawl_iteration bni nfkc urljoin set_iter net d1 max_pages workers s
  = crawl_iteration bni nfkc urljoin set_iter net d2 max_pages workers s.
Proof.
  intros H1 H2 [H0 (p & Hp & _) _ _ _]. unfold crawl_iteration.
  rewrite Hp, Forall_app in H0. destruct H0 as [_ H0].
  rewrite (fill_batch_any_depth d1 d2 workers (queue s) H1 H2 H0).
  reflexivity.
Qed.

Lemma crawl_loop_any_depth bni nfkc urljoin set_iter net
    (d1 d2 max_pages workers : Z) (fuel : nat) :
  (0 <= d1)%Z -> (0 <= d2)%Z ->
  forall s, frontier_inv d1 max_pages s ->
  crawl_loop bni nfkc urljoin set_iter net d1 max_pages workers fuel s
  = crawl_loop bni nfkc urljoin set_iter net d2 max_pages workers fuel s.
Proof.
  intros H1 H2. induction fuel as [|fuel IH]; intros s Hs; simpl;
    rewrite <- (crawl_iteration_any_depth bni nfkc urljoin set_iter net
                  d1 d2 max_pages workers s H1 H2 Hs);
    pose proof (crawl_iteration_frontier bni nfkc urljoin set_iter net
                  d1 max_pages workers s Hs) as Hi;
    destruct (crawl_iteration bni nfkc urljoin set_iter net d1 max_pages
                workers s); auto.
Qed.

(** X17: the maximum depth changes nothing as long as it is not negative:
    two crawls that differ only in a maximum depth of at least 0 end in the
    same state, and [crawl_async] returns the same for both. *)
Theorem max_depth_is_irrelevant
    (bracketed_netloc_invalid nfkc_invalid : list N -> bool)
    (urljoin : list N -> list N -> py_exn + list N)
    (set_iter : gset (list N) -> list (list N))
    (net : nat -> list N -> net_reply)
    (d1 d2 max_pages workers : Z) (start_url : list N) :
  (0 <= d1)%Z -> (0 <= d2)%Z ->
  crawl_run bracketed_netloc_invalid nfkc_invalid urljoin set_iter net
    d1 max_pages workers start_url
  = crawl_run bracketed_netloc_invalid nfkc_invalid urljoin set_iter net
      d2 max_pages workers start_url
  /\ crawl_async bracketed_netloc_invalid nfkc_invalid urljoin set_iter net
       d1 max_pages workers start_url
     = crawl_async bracketed_netloc_invalid nfkc_invalid urljoin set_iter
         net d2 max_pages workers start_url.
Proof.
  intros H1 H2.
  assert (Hrun : crawl_run bracketed_netloc_invalid nfkc_invalid urljoin
                   set_iter net d1 max_pages workers start_url
                 = crawl_run bracketed_netloc_invalid nfkc_invalid urljoin
                     set_iter net d2 max_pages workers start_url).
  { unfold crawl_run.
    destruct (normalize_url _ _ start_url) as [e|seed]; [reflexivity|].
    destruct (workers <? 0)%Z; [reflexivity|].
    rewrite (crawl_loop_any_depth _ _ _ _ _ d1 d2 _ _ _ H1 H2
               (initial_state seed) (initial_frontier d1 max_pages seed)).
    reflexivity. }
  split; [exact Hrun|]. unfold crawl_async. rewrite Hrun. reflexivity.
Qed.

(** ** The word list [main] writes *)

Lemma str_leb_refl a : str_leb a a = true.
Proof.
  induction a as [|x a IH]; simpl; [reflexivity|].
  rewrite N.ltb_irrefl. exact IH.
Qed.

Lemma str_leb_total a : forall b, str_leb a b = true \/ str_leb b a = true.
Proof.
  induction a as [|x a IH]; intros [|y b]; simpl; auto.
  destruct (N.ltb_spec x y) as [Hxy|Hxy]; [auto|].
  destruct (N.ltb_spec y x) as [Hyx|Hyx]; [auto|]. apply IH.
Qed.

Lemma str_leb_trans a : forall b c,
  str_leb a b = true -> str_leb b c = true -> str_leb a c = true.
Proof.
  induction a as [|x a IH]; intros [|y b] [|z c]; simpl; auto;
    try discriminate.
  destruct (N.ltb_spec x y) as [Hxy|Hxy];
    destruct (N.ltb_spec y z) as [Hyz|Hyz];
    destruct (N.ltb_spec x z) as [Hxz|Hxz]; auto; try lia;
    destruct (N.ltb_spec y x) as [Hyx|Hyx];
    destruct (N.ltb_spec z y) as [Hzy|Hzy];
    destruct (N.ltb_spec z x) as [Hzx|Hzx];
    try discriminate; try lia; auto.
  apply IH.
Qed.

Lemma str_leb_antisym a : forall b,
  str_leb a b = true -> str_leb b a = true -> a = b.
Proof.
  induction a as [|x a IH]; intros [|y b]; simpl; auto; try discriminate.
  destruct (N.ltb_spec x y) as [Hxy|Hxy];
    destruct (N.ltb_spec y x) as [Hyx|Hyx]; try discriminate; try lia.
  intros H1 H2. assert (x = y) by lia. subst y. f_equal. auto.
Qed.

#[local] Instance str_le_total : Total str_le.
Proof. intros a b. apply str_leb_total. Qed.

#[local] Instance str_le_trans : Transitive str_le.
Proof. intros a b c. apply str_leb_trans. Qed.

#[local] Instance str_le_antisym : AntiSymm (=) str_le.
Proof. intros a b. apply str_leb_antisym. Qed.

Lemma sorted_strongly l : StronglySorted str_le (sorted l).
Proof. apply StronglySorted_merge_sort; apply _. Qed.

Lemma sorted_permutation l : sorted l ≡ₚ l.
Proof. apply merge_sort_Permutation. Qed.

Lemma sorted_order_free l k : l ≡ₚ k -> sorted l = sorted k.
Proof.
  intros H. apply (StronglySorted_unique str_le);
    try apply sorted_strongly.
  rewrite !sorted_permutation. exact H.
Qed.

Lemma StronglySorted_strict l :
  StronglySorted str_le l -> NoDup l -> StronglySorted str_lt l.
Proof.
  induction 1 as [|x l Hl IH Hx]; intros Hn; constructor.
  - apply IH. apply NoDup_cons in Hn. tauto.
  - apply NoDup_cons in Hn as [Hnx _].
    rewrite Forall_forall in *. intros y Hy. split; [auto|].
    intros ->. apply Hnx. exact Hy.
Qed.

Lemma lines_from_word w rest : forall line,
  (10 ∉ w) ->
  lines_from line (w ++ 10 :: rest) = (rev line ++ w) :: lines_from [] rest.
Proof.
  induction w as [|c w IH]; intros line Hw; simpl.
  - rewrite app_nil_r. reflexivity.
  - assert ((c =? 10) = false) as ->.
    { apply N.eqb_neq. intros ->. apply Hw. left. }
    rewrite IH by (intros H; apply Hw; right; exact H).
    simpl. rewrite <- app_assoc. reflexivity.
Qed.

Lemma lines_wordlist ws :
  Forall (fun w => 10 ∉ w) ws -> lines (wordlist_text ws) = ws.
Proof.
  unfold lines. induction 1 as [|w ws Hw Hws IH]; simpl; [reflexivity|].
  rewrite <- app_assoc. simpl. rewrite lines_from_word by exact Hw.
  rewrite IH. reflexivity.
Qed.

Lemma word_token_no_newline w : word_token w -> 10 ∉ w.
Proof.
  intros [_ Hw] Hin. rewrite Forall_forall in Hw.
  specialize (Hw _ Hin). discriminate.
Qed.

Lemma lower_letters w :
  Forall (fun c => is_az c = true) w -> lower w = w.
Proof.
  induction 1 as [|c w Hc Hw IH]; simpl; [reflexivity|].
  rewrite IH. unfold lower_cp.
  assert (is_AZ c = false) as -> by N_bool.
  assert ((c =? 304) = false) as -> by N_bool.
  assert ((c =? 8490) = false) as -> by N_bool.
  reflexivity.
Qed.

Lemma findall_from_letters w : forall run,
  Forall (fun c => is_az c = true) w ->
  findall_from run w
  = match rev run ++ w with [] => [] | _ => [rev run ++ w] end.
Proof.
  induction w as [|c w IH]; intros run Hw; simpl.
  - rewrite app_nil_r. destruct run as [|r run]; [reflexivity|].
    simpl. destruct (rev run ++ [r]) eqn:E; [|reflexivity].
    apply app_eq_nil in E. destruct E; discriminate.
  - inversion Hw as [|? ? Hc Hw']; subst. rewrite Hc.
    rewrite IH by exact Hw'. simpl. rewrite <- app_assoc. reflexivity.
Qed.

Lemma extract_words_token w : word_token w -> extract_words w = {[w]}.
Proof.
  intros [Hne Hw]. unfold extract_words, WORD_PATTERN_findall.
  rewrite lower_letters, findall_from_letters by exact Hw. simpl.
  destruct w; [congruence|]. simpl. apply union_empty_r_L.
Qed.

Lemma extract_words_wordlist ws :
  Forall word_token ws -> extract_words (wordlist_text ws) = list_to_set ws.
Proof.
  induction 1 as [|w ws Hw Hws IH]; simpl; [reflexivity|].
  rewrite <- app_assoc. simpl.
  rewrite extract_words_separator by (reflexivity || discriminate).
  rewrite IH, (extract_words_token w Hw). reflexivity.
Qed.

(** X14: when [main] has written its file, the lines of the file are the
    words of the corpus [crawl_async] returned, each on one line and once,
    in strictly increasing order; their number is the number of words
    [main] reports; [extract_words] on the text of the file gives the
    corpus back; and the text is the same whatever the order in which the
    set is walked. *)
Theorem main_writes_sorted_corpus
    (bracketed_netloc_invalid nfkc_invalid : list N -> bool)
    (urljoin : list N -> list N -> py_exn + list N)
    (set_iter : gset (list N) -> list (list N))
    (net : nat -> list N -> net_reply) (args : arguments)
    (pages : Z) (count : nat) (text : list N) :
  (forall X, set_iter X ≡ₚ elements X) ->
  main bracketed_netloc_invalid nfkc_invalid urljoin set_iter net args
  = Some (inr (pages, count, text)) ->
  exists words,
    crawl_async bracketed_netloc_invalid nfkc_invalid urljoin set_iter net
      (arg_depth args) (arg_max_pages args) (arg_workers args)
      (arg_url args) = Some (inr (pages, words))
    /\ count = size words
    /\ length (lines text) = count
    /\ StronglySorted str_lt (lines text)
    /\ (forall w, w ∈ lines text <-> w ∈ words)
    /\ text = wordlist_text (lines text)
    /\ extract_words text = words
    /\ (forall order, order ≡ₚ elements words ->
        wordlist_text (sorted order) = text).
Proof.
  intros Hiter. unfold main.
  destruct (crawl_async _ _ _ _ _ _ _ _ _) as [[e|[pg words]]|] eqn:Hrun;
    try discriminate.
  intros [= <- <- <-]. exists words. split; [reflexivity|].
  split; [reflexivity|].
  assert (Hperm : sorted (set_iter words) ≡ₚ elements words)
    by (rewrite sorted_permutation; apply Hiter).
  assert (Htok : Forall word_token (sorted (set_iter words))).
  { apply Forall_forall. intros w Hw. rewrite Hperm in Hw.
    apply elem_of_elements in Hw.
    eapply crawl_async_tokens; eauto. }
  assert (Hlines : lines (wordlist_text (sorted (set_iter words)))
                   = sorted (set_iter words)).
  { apply lines_wordlist. eapply Forall_impl; [exact Htok|].
    apply word_token_no_newline. }
  rewrite Hlines. split.
  { rewrite Hperm. reflexivity. }
  split.
  { apply StronglySorted_strict; [apply sorted_strongly|].
    rewrite Hperm. apply NoDup_elements. }
  split.
  { intros w. rewrite Hperm. apply elem_of_elements. }
  split; [reflexivity|]. split.
  { rewrite extract_words_wordlist by exact Htok.
    apply set_eq. intros w. rewrite elem_of_list_to_set, Hperm.
    apply elem_of_elements. }
  intros order Horder. f_equal. apply sorted_order_free.
  rewrite Horder. symmetry. apply Hiter.
Qed.

(** ** The crawls of the model, run *)

Local Open Scope Z_scope.

(** C1, as stated, fails for a page budget of 0: the seed is put in the
    Visited Set before the budget is looked at. *)
Lemma budget_zero_visited_seed :
  exists s,
    crawl_run netloc_accepted netloc_accepted urljoin_absolute elements
      site_net 3 0 default_workers site_root = Some (inr s)
    /\ ~ (Z.of_nat (size (visited s)) <= 0).
Proof.
  eexists. split; [vm_compute; reflexivity|]. vm_compute. intros H. apply H.
  reflexivity.
Qed.

Lemma crawl_budget_respected_witness :
  1 <= 10
  /\ exists r,
       crawl_async netloc_accepted netloc_accepted urljoin_absolute elements
         site_net 3 10 default_workers site_root = Some r
       /\ forall pages words, r = inr (pages, words) -> 0 <= pages <= 10.
Proof.
  split; [lia|].
  apply (crawl_budget_respected netloc_accepted netloc_accepted
           urljoin_absolute elements site_net 3 10 default_workers
           site_root).
  lia.
Defined.

(** C2, as stated, fails when a fetch fails: with the network down the one
    fetch of the crawl ends in a transport error, no fetch succeeds, and
    one page is counted. *)
Lemma failed_fetch_counted :
  exists s,
    crawl_run netloc_accepted netloc_accepted urljoin_absolute elements
      net_down 3 10 default_workers site_root = Some (inr s)
    /\ success_count net_down 0 (returned (hist s)) = 0%nat
    /\ pages_crawled s = 1.
Proof.
  eexists. split; [vm_compute; reflexivity|]. split; reflexivity.
Qed.

Lemma pages_crawled_counts_tuples_witness :
  (forall X : gset (list N), elements X ≡ₚ elements X)
  /\ crawl_run netloc_accepted netloc_accepted urljoin_absolute elements
       site_net 3 10 default_workers site_root = Some (inr site_final)
  /\ pages_crawled site_final
     = Z.of_nat (count_tuples (results (hist site_final))).
Proof.
  assert (Hiter : forall X : gset (list N), elements X ≡ₚ elements X)
    by (intros X; reflexivity).
  assert (Hrun : crawl_run netloc_accepted netloc_accepted urljoin_absolute
                   elements site_net 3 10 default_workers site_root
                 = Some (inr site_final))
    by (vm_compute; reflexivity).
  split; [exact Hiter|]. split; [exact Hrun|].
  destruct (pages_crawled_counts_tuples netloc_accepted netloc_accepted
              urljoin_absolute elements site_net 3 10 default_workers
              site_root site_final Hiter Hrun) as [Hpages _].
  exact Hpages.
Defined.

Lemma crawl_url_absorbs_errors_witness :
  (forall e,
     crawl_url_try netloc_accepted netloc_accepted urljoin_absolute
       site_root (net_down 0 site_root) = inl e ->
     is_Exception e = true)
  /\ crawl_url netloc_accepted netloc_accepted urljoin_absolute
       site_root (net_down 0 site_root) = inr (site_root, ∅, ∅).
Proof.
  assert (Hexn : forall e,
            crawl_url_try netloc_accepted netloc_accepted urljoin_absolute
              site_root (net_down 0 site_root) = inl e ->
            is_Exception e = true)
    by (intros e [= <-]; reflexivity).
  split; [exact Hexn|].
  destruct (crawl_url_absorbs_errors netloc_accepted netloc_accepted
              urljoin_absolute elements site_net 3 10 default_workers
              site_root (net_down 0 site_root) Hexn)
    as (_ & _ & _ & Hraise & _).
  apply (Hraise TransportError). reflexivity.
Defined.

Lemma links_enqueued_at_depth_zero_witness :
  0 <= 3
  /\ List.map snd (enqueued (hist site_final)) = [0; 0; 0]
  /\ discarded
       (hist
          (state_after netloc_accepted netloc_accepted urljoin_absolute
             elements site_net 3 10 default_workers 2
             (initial_state site_root))) = [].
Proof.
  split; [lia|]. split; [vm_compute; reflexivity|].
  destruct (links_enqueued_at_depth_zero netloc_accepted netloc_accepted
              urljoin_absolute elements site_net 3 10 default_workers
              site_root 2) as (_ & _ & Hnone & _); [lia|].
  exact Hnone.
Defined.

(** A queue of three entries and one worker: the batch takes two. *)
Lemma dequeue_batch_fifo_witness :
  (fill_batch 3 1 [(py "a", 0); (py "b", 0); (py "c", 0)] []
     (hist (initial_state site_root))).1.2 <> []
  /\ Z.of_nat
       (length
          (fill_batch 3 1 [(py "a", 0); (py "b", 0); (py "c", 0)] []
             (hist (initial_state site_root))).1.1) = Z.max 0 (1 * 2).
Proof.
  assert (Hleft : (fill_batch 3 1 [(py "a", 0); (py "b", 0); (py "c", 0)] []
                     (hist (initial_state site_root))).1.2 <> [])
    by (vm_compute; discriminate).
  split; [exact Hleft|].
  destruct (dequeue_batch_fifo netloc_accepted netloc_accepted
              urljoin_absolute elements site_net 3 10 1
              [(py "a", 0); (py "b", 0); (py "c", 0)]
              (hist (initial_state site_root)) site_root 0)
    as (_ & _ & Hfull & _).
  exact (Hfull Hleft).
Defined.

(** The front page links to [/a] twice; at the end of the crawl of the site
    the address [/a] is in the Visited Set, and a link to it changes
    nothing. *)
Lemma visited_at_most_once_witness :
  py "http://site.test/a" ∈ visited site_final
  /\ enqueue_link 10 site_final (py "http://site.test/a") = site_final.
Proof.
  assert (Hin : py "http://site.test/a" ∈ visited site_final)
    by (apply (bool_decide_unpack
                 (py "http://site.test/a" ∈ visited site_final));
        vm_compute; exact I).
  split; [exact Hin|].
  destruct (visited_at_most_once netloc_accepted netloc_accepted
              urljoin_absolute elements site_net 3 10 default_workers
              site_root 0 site_final (py "http://site.test/a"))
    as (_ & _ & _ & Hsame & _).
  exact (Hsame Hin).
Defined.

Local Close Scope Z_scope.

(** C8, as stated, fails for a locator without a scheme: the result of
    [normalize_url] starts with [://], in which [urlparse] finds no scheme
    and no network location. *)
Lemma normalize_url_not_idempotent :
  normalize_url netloc_accepted netloc_accepted (py "example.com")
    = inr (py "://example.com")
  /\ normalize_twice netloc_accepted netloc_accepted (py "example.com")
    = inr (py "://://example.com")
  /\ normalize_twice netloc_accepted netloc_accepted (py "example.com")
    <> normalize_url netloc_accepted netloc_accepted (py "example.com").
Proof.
  split; [vm_compute; reflexivity|]. split; [vm_compute; reflexivity|].
  vm_compute. discriminate.
Qed.

(** The locator [HTTP://Example.com/a/b;p?x=1] has a scheme and a network
    location; with the fragment [frag] it is normalized to the same value,
    which [normalize_url] returns unchanged. *)
Lemma normalize_url_idempotent_absolute_witness :
  urlparse netloc_accepted netloc_accepted
    (py "HTTP://Example.com/a/b;p?x=1")
  = inr {| scheme := py "http"; netloc := py "Example.com";
           path := py "/a/b"; params := py "p"; query := py "x=1";
           fragment := [] |}
  /\ normalize_url netloc_accepted netloc_accepted
       (py "HTTP://Example.com/a/b;p?x=1" ++ 35 :: py "frag")
     = normalize_url netloc_accepted netloc_accepted
         (py "HTTP://Example.com/a/b;p?x=1")
  /\ exists v,
       normalize_url netloc_accepted netloc_accepted
         (py "HTTP://Example.com/a/b;p?x=1") = inr v
       /\ normalize_url netloc_accepted netloc_accepted v = inr v
       /\ normalize_twice netloc_accepted netloc_accepted
            (py "HTTP://Example.com/a/b;p?x=1")
          = normalize_url netloc_accepted netloc_accepted
              (py "HTTP://Example.com/a/b;p?x=1").
Proof.
  assert (Hr : urlparse netloc_accepted netloc_accepted
                 (py "HTTP://Example.com/a/b;p?x=1")
               = inr {| scheme := py "http"; netloc := py "Example.com";
                        path := py "/a/b"; params := py "p";
                        query := py "x=1"; fragment := [] |})
    by (vm_compute; reflexivity).
  split; [exact Hr|].
  destruct (normalize_url_idempotent_absolute netloc_accepted
              netloc_accepted (py "HTTP://Example.com/a/b;p?x=1")
              (py "frag")) as [Hfrag Hidem].
  split; [exact Hfrag|].
  apply (Hidem _ Hr); simpl; discriminate.
Defined.

(** C10, as stated, fails outside ASCII: the upper case of U+00DF is [SS],
    in which [extract_words] finds the word [ss], and it finds no word in
    U+00DF. *)
Lemma extract_words_upper_sharp_s :
  upper [223] = py "SS"
  /\ extract_words (upper [223]) = {[ py "ss" ]}
  /\ extract_words [223] = ∅
  /\ extract_words (upper [223]) <> extract_words [223].
Proof.
  split; [reflexivity|]. split; [vm_compute; reflexivity|].
  split; [vm_compute; reflexivity|]. vm_compute. discriminate.
Qed.

Lemma extract_words_ascii_case_insensitive_witness :
  ascii_case_variant (py "Foo-Bar") (py "fOO-bAR")
  /\ extract_words (py "Foo-Bar") = extract_words (py "fOO-bAR").
Proof.
  assert (Hv : ascii_case_variant (py "Foo-Bar") (py "fOO-bAR")).
  { repeat (constructor;
            [first [ left; reflexivity
                   | right; left; split; reflexivity
                   | right; right; split; reflexivity ]|]).
    constructor. }
  split; [exact Hv|].
  destruct (extract_words_ascii_case_insensitive netloc_accepted
              netloc_accepted urljoin_absolute elements site_net 3 10
              default_workers _ _ Hv) as [Hsame _].
  exact Hsame.
Defined.

Local Open Scope Z_scope.

(** The crawl of the site after the first batch is made and the semaphore
    has let its one task in. *)
Lemma semaphore_caps_fetches_witness :
  0 <= default_workers
  /\ exists c,
       conc_reachable netloc_accepted netloc_accepted urljoin_absolute
         elements 3 10 default_workers site_root c
       /\ fetching_count (tasks c) = 1%nat
       /\ sem_value c = 4.
Proof.
  assert (Hw : 0 <= default_workers) by (vm_compute; discriminate).
  split; [exact Hw|].
  assert (Hreach : conc_reachable netloc_accepted netloc_accepted
            urljoin_absolute elements 3 10 default_workers site_root
            {| cs := {| visited := {[site_root]}; queue := [];
                        all_words := ∅; pages_crawled := 0;
                        fetches := 1;
                        hist := {| enqueued := [(site_root, 0)];
                                   returned := [(site_root, 0)];
                                   discarded := []; results := [] |} |};
               sem_value := 4;
               tasks := [Fetching site_root] |}).
  { pose (h1 := {| enqueued := [(site_root, 0)];
                   returned := [(site_root, 0)];
                   discarded := []; results := [] |}).
    pose (c1 := {| cs := {| visited := {[site_root]}; queue := [];
                            all_words := ∅; pages_crawled := 0;
                            fetches := 1; hist := h1 |};
                   sem_value := default_workers;
                   tasks := [Waiting site_root] |}).
    assert (H1 : conc_reachable netloc_accepted netloc_accepted
              urljoin_absolute elements 3 10 default_workers site_root c1).
    { apply (reach_step netloc_accepted netloc_accepted urljoin_absolute
               elements 3 10 default_workers site_root
               (conc_initial default_workers site_root) c1);
        [apply reach_initial|].
      exact (step_dispatch netloc_accepted netloc_accepted urljoin_absolute
               elements 3 10 default_workers
               (conc_initial default_workers site_root)
               [(site_root, 0)] [] h1 eq_refl eq_refl eq_refl
               ltac:(discriminate)). }
    apply (reach_step netloc_accepted netloc_accepted urljoin_absolute
             elements 3 10 default_workers site_root c1 _ H1).
    exact (step_acquire netloc_accepted netloc_accepted urljoin_absolute
             elements 3 10 default_workers c1 0%nat site_root eq_refl
             eq_refl). }
  eexists. split; [exact Hreach|].
  destruct (semaphore_caps_fetches netloc_accepted netloc_accepted
              urljoin_absolute elements 3 10 default_workers site_root _
              Hw Hreach) as (_ & Hsum & _).
  split; [reflexivity|]. cbn [tasks fetching_count is_fetching] in Hsum.
  cbn [sem_value]. reflexivity.
Defined.

(** ** More runs *)

Lemma normalize_url_result_plain_witness :
  normalize_url netloc_accepted netloc_accepted
    (py "HTTP://Example.com/a/b;p?x=1#frag")
  = inr (py "http://Example.com/a/b?x=1")
  /\ 35%N ∉ py "http://Example.com/a/b?x=1".
Proof.
  assert (Hv : normalize_url netloc_accepted netloc_accepted
                 (py "HTTP://Example.com/a/b;p?x=1#frag")
               = inr (py "http://Example.com/a/b?x=1"))
    by (vm_compute; reflexivity).
  split; [exact Hv|].
  destruct (normalize_url_result_plain netloc_accepted netloc_accepted
              _ _ Hv) as [Hno _].
  exact Hno.
Defined.

Lemma normalize_url_raises_value_error_witness :
  normalize_url netloc_accepted netloc_accepted (py "http://[/x")
  = inl ValueError
  /\ starts_with (py "//")
       (split_scheme (clean_url (py "http://[/x"))).2 = true.
Proof.
  assert (He : normalize_url netloc_accepted netloc_accepted
                 (py "http://[/x") = inl ValueError)
    by (vm_compute; reflexivity).
  split; [exact He|].
  destruct (normalize_url_raises_value_error netloc_accepted
              netloc_accepted _ _ He) as (_ & Hnetloc & _).
  exact Hnetloc.
Defined.

Lemma extract_words_split_witness :
  is_ascii_alpha 45 = false /\ 45%N <> 304%N /\ 45%N <> 8490%N
  /\ extract_words (py "foo" ++ 45%N :: py "bar")
     = extract_words (py "foo") ∪ extract_words (py "bar").
Proof.
  assert (H1 : is_ascii_alpha 45 = false) by reflexivity.
  assert (H2 : 45%N <> 304%N) by discriminate.
  assert (H3 : 45%N <> 8490%N) by discriminate.
  split; [exact H1|]. split; [exact H2|]. split; [exact H3|].
  exact (extract_words_split (py "foo") (py "bar") 45 H1 H2 H3).
Defined.

Lemma unresolved_link_empties_page_witness :
  (forall b h e', urljoin_strict b h = inl e' -> is_Exception e' = true)
  /\ py "http://[broken"
     ∈ List.flat_map anchor_hrefs
         (List.flat_map extract_tags page_with_bad_link)
  /\ fails_with netloc_accepted netloc_accepted urljoin_strict site_root
       (py "http://[broken") ValueError
  /\ crawl_url netloc_accepted netloc_accepted urljoin_strict site_root
       (Response 200 (Some (py "text/html")) (inr page_with_bad_link))
     = inr (site_root, ∅, ∅).
Proof.
  assert (Hjoin : forall b h e',
            urljoin_strict b h = inl e' -> is_Exception e' = true).
  { intros b h e'. unfold urljoin_strict.
    destruct (has_char 91 h); [intros [= <-]; reflexivity|discriminate]. }
  assert (Hin : py "http://[broken"
                ∈ List.flat_map anchor_hrefs
                    (List.flat_map extract_tags page_with_bad_link)).
  { apply (bool_decide_unpack _). vm_compute. exact I. }
  assert (Hf : fails_with netloc_accepted netloc_accepted urljoin_strict
                 site_root (py "http://[broken") ValueError)
    by (left; reflexivity).
  split; [exact Hjoin|]. split; [exact Hin|]. split; [exact Hf|].
  exact (unresolved_link_empties_page netloc_accepted netloc_accepted
           urljoin_strict site_root (py "http://[broken") ValueError 200
           (Some (py "text/html")) page_with_bad_link Hjoin Hin Hf).
Defined.

Local Open Scope Z_scope.

Lemma crawl_without_fetch_witness :
  normalize_url netloc_accepted netloc_accepted site_root = inr site_root
  /\ 0 <= 0
  /\ exists s,
       crawl_run netloc_accepted netloc_accepted urljoin_absolute elements
         site_net 3 10 0 site_root = Some (inr s)
       /\ fetches s = O.
Proof.
  assert (Hseed : normalize_url netloc_accepted netloc_accepted site_root
                  = inr site_root) by (vm_compute; reflexivity).
  assert (Hw : 0 <= 0) by lia.
  split; [exact Hseed|]. split; [exact Hw|].
  destruct (crawl_without_fetch netloc_accepted netloc_accepted
              urljoin_absolute elements site_net 3 10 0 site_root
              site_root Hseed Hw (or_introl eq_refl))
    as (s & Hrun & Hf & _).
  exists s. split; [exact Hrun|exact Hf].
Defined.

Lemma crawl_only_grows_witness :
  (1 <= 2)%nat
  /\ all_words
       (state_after netloc_accepted netloc_accepted urljoin_absolute
          elements site_net 3 10 default_workers 1
          (initial_state site_root))
     ⊆ all_words
         (state_after netloc_accepted netloc_accepted urljoin_absolute
            elements site_net 3 10 default_workers 2
            (initial_state site_root)).
Proof.
  assert (Hle : (1 <= 2)%nat) by lia.
  split; [exact Hle|].
  destruct (crawl_only_grows netloc_accepted netloc_accepted
              urljoin_absolute elements site_net 3 10 default_workers
              (initial_state site_root) 1 2 Hle) as (_ & Hwords & _).
  exact Hwords.
Defined.

(** A page with a document type, a comment and a template: the tuple has
    the words of the paragraph and of the anchor, and the one link. *)
Lemma crawl_url_result_witness :
  crawl_url netloc_accepted netloc_accepted urljoin_absolute site_root
    (Response 200 (Some (py "text/html")) (inr page_with_comment))
  = inr (site_root,
         {[ py "visible"; py "text"; py "base" ]},
         {[ py "http://site.test/next" ]})
  /\ exists status ct doc,
       Response 200 (Some (py "text/html")) (inr page_with_comment)
       = Response status ct (inr doc)
       /\ is_success status = true
       /\ {[ py "visible"; py "text"; py "base" ]}
          = extract_words (get_text (List.flat_map extract_tags doc)).
Proof.
  assert (Hres : crawl_url netloc_accepted netloc_accepted urljoin_absolute
                   site_root
                   (Response 200 (Some (py "text/html"))
                      (inr page_with_comment))
                 = inr (site_root,
                        {[ py "visible"; py "text"; py "base" ]},
                        {[ py "http://site.test/next" ]}))
    by (vm_compute; reflexivity).
  split; [exact Hres|].
  destruct (crawl_url_result netloc_accepted netloc_accepted
              urljoin_absolute _ _ _ _ _ Hres)
    as [_ [[Hempty _]|(status & ct & doc & Hreply & Hok & _ & Hwords & _)]].
  - exfalso. revert Hempty. vm_compute. discriminate.
  - exists status, ct, doc.
    split; [exact Hreply|]. split; [exact Hok|exact Hwords].
Defined.

Lemma visited_addresses_normalized_witness :
  (forall (X : gset (list N)) x, x ∈ elements X -> x ∈ X)
  /\ crawl_run netloc_accepted netloc_accepted urljoin_absolute elements
       site_net 3 10 default_workers site_root = Some (inr site_final)
  /\ py "http://site.test/a" ∈ visited site_final
  /\ 35%N ∉ py "http://site.test/a".
Proof.
  assert (Hiter : forall (X : gset (list N)) x, x ∈ elements X -> x ∈ X)
    by (intros X x; apply elem_of_elements).
  assert (Hrun : crawl_run netloc_accepted netloc_accepted urljoin_absolute
                   elements site_net 3 10 default_workers site_root
                 = Some (inr site_final))
    by (vm_compute; reflexivity).
  assert (Hin : py "http://site.test/a" ∈ visited site_final)
    by (apply (bool_decide_unpack
                 (py "http://site.test/a" ∈ visited site_final));
        vm_compute; exact I).
  split; [exact Hiter|]. split; [exact Hrun|]. split; [exact Hin|].
  destruct (visited_addresses_normalized netloc_accepted netloc_accepted
              urljoin_absolute elements site_net 3 10 default_workers
              Hiter site_root site_final _ Hrun Hin) as (_ & Hno & _).
  exact Hno.
Defined.

Lemma crawl_ends_when_done_witness :
  0 <= 3 /\ 1 <= default_workers
  /\ crawl_run netloc_accepted netloc_accepted urljoin_absolute elements
       site_net 3 10 default_workers site_root = Some (inr site_final)
  /\ (queue site_final = [] \/ 10 <= pages_crawled site_final).
Proof.
  assert (Hd : 0 <= 3) by lia.
  assert (Hw : 1 <= default_workers) by (vm_compute; discriminate).
  assert (Hrun : crawl_run netloc_accepted netloc_accepted urljoin_absolute
                   elements site_net 3 10 default_workers site_root
                 = Some (inr site_final))
    by (vm_compute; reflexivity).
  split; [exact Hd|]. split; [exact Hw|]. split; [exact Hrun|].
  destruct (crawl_ends_when_done netloc_accepted netloc_accepted
              urljoin_absolute elements site_net 3 10 default_workers
              site_root site_final Hd Hw Hrun) as [Hdone _].
  exact Hdone.
Defined.

Lemma max_depth_is_irrelevant_witness :
  0 <= 0 /\ 0 <= 3
  /\ crawl_async netloc_accepted netloc_accepted urljoin_absolute elements
       site_net 0 10 default_workers site_root
     = crawl_async netloc_accepted netloc_accepted urljoin_absolute
         elements site_net 3 10 default_workers site_root.
Proof.
  assert (H1 : 0 <= 0) by lia.
  assert (H2 : 0 <= 3) by lia.
  split; [exact H1|]. split; [exact H2|].
  destruct (max_depth_is_irrelevant netloc_accepted netloc_accepted
              urljoin_absolute elements site_net 0 3 10 default_workers
              site_root H1 H2) as [_ Hsame].
  exact Hsame.
Defined.

Lemma main_writes_sorted_corpus_witness :
  (forall X : gset (list N), elements X ≡ₚ elements X)
  /\ main netloc_accepted netloc_accepted urljoin_absolute elements
       site_net (default_arguments site_root)
     = Some (inr (3, 4%nat, py "bar" ++ 10%N :: py "foo" ++ 10%N
                             :: py "hello" ++ 10%N :: py "world"
                             ++ [10%N]))
  /\ exists words,
       crawl_async netloc_accepted netloc_accepted urljoin_absolute
         elements site_net 3 10000 default_workers site_root
       = Some (inr (3, words))
       /\ 4%nat = size words.
Proof.
  assert (Hiter : forall X : gset (list N), elements X ≡ₚ elements X)
    by (intros X; reflexivity).
  assert (Hmain : main netloc_accepted netloc_accepted urljoin_absolute
                    elements site_net (default_arguments site_root)
                  = Some (inr (3, 4%nat,
                               py "bar" ++ 10%N :: py "foo" ++ 10%N
                               :: py "hello" ++ 10%N :: py "world"
                               ++ [10%N])))
    by (vm_compute; reflexivity).
  split; [exact Hiter|]. split; [exact Hmain|].
  destruct (main_writes_sorted_corpus netloc_accepted netloc_accepted
              urljoin_absolute elements site_net
              (default_arguments site_root) _ _ _ Hiter Hmain)
    as (words & Hrun & Hcount & _).
  exists words. split; [exact Hrun|exact Hcount].
Defined.

Lemma site_fetching_reachable :
  conc_reachable netloc_accepted netloc_accepted urljoin_absolute elements
    3 10 default_workers site_root site_fetching.
Proof.
  assert (H1 : conc_reachable netloc_accepted netloc_accepted
            urljoin_absolute elements 3 10 default_workers site_root
            site_dispatched).
  { apply (reach_step netloc_accepted netloc_accepted urljoin_absolute
             elements 3 10 default_workers site_root
             (conc_initial default_workers site_root) site_dispatched);
      [apply reach_initial|].
    exact (step_dispatch netloc_accepted netloc_accepted urljoin_absolute
             elements 3 10 default_workers
             (conc_initial default_workers site_root)
             [(site_root, 0)] [] (hist (cs site_dispatched))
             eq_refl eq_refl eq_refl ltac:(discriminate)). }
  apply (reach_step netloc_accepted netloc_accepted urljoin_absolute
           elements 3 10 default_workers site_root site_dispatched _ H1).
  exact (step_acquire netloc_accepted netloc_accepted urljoin_absolute
           elements 3 10 default_workers site_dispatched 0%nat site_root
           eq_refl eq_refl).
Defined.

Lemma batch_never_stuck_witness :
  0 <= default_workers
  /\ conc_reachable netloc_accepted netloc_accepted urljoin_absolute
       elements 3 10 default_workers site_root site_fetching
  /\ tasks site_fetching <> []
  /\ exists c',
       conc_step netloc_accepted netloc_accepted urljoin_absolute elements
         3 10 default_workers site_fetching c'.
Proof.
  assert (Hw : 0 <= default_workers) by (vm_compute; discriminate).
  assert (Hne : tasks site_fetching <> []) by discriminate.
  split; [exact Hw|]. split; [exact site_fetching_reachable|].
  split; [exact Hne|].
  destruct (batch_never_stuck netloc_accepted netloc_accepted
              urljoin_absolute elements 3 10 default_workers site_root
              site_fetching Hw site_fetching_reachable) as [_ Hstep].
  exact (Hstep Hne).
Defined.

Lemma every_interleaving_keeps_frontier_witness :
  conc_reachable netloc_accepted netloc_accepted urljoin_absolute elements
    3 10 default_workers site_root site_fetching
  /\ Z.of_nat (size (visited (cs site_fetching))) <= Z.max 1 10.
Proof.
  split; [exact site_fetching_reachable|].
  destruct (every_interleaving_keeps_frontier netloc_accepted
              netloc_accepted urljoin_absolute elements 3 10
              default_workers site_root site_fetching
              site_fetching_reachable) as [Hb _].
  exact Hb.
Defined.
